(** * powerdns-zone-manager: the reconciliation engine

    A shallow embedding of [internal/config/config.go],
    [internal/powerdns/types.go] and [internal/manager/manager.go], with the
    test double [MockClient] of the manager's test file, of the REST client
    of [pkg/powerdns/client.go], of [MaskSecret] of the logger and of
    [getAccountName] of [cmd/root.go], and the properties of the
    reconciliation pass proved about that embedding.

    Conventions of the embedding:
    - Go strings are [string] (byte strings); Go maps with string keys are
      [gmap string _]; slices are lists ([nil] and the empty slice are not
      told apart, the code only takes [len] and ranges over them).
    - [uint32] TTLs are [N]; they are only copied and compared.  The [int]
      counters of [ApplyResult] are [N]: they start at 0 and are incremented
      once per map entry, so they never reach the 64-bit bound.
    - a [range] over a Go map yields the entries in an unspecified order that
      may change from one loop execution to the next; see [MapOrder].
    - calls of the logger have no effect on any value and are left out. *)

From stdpp Require Import base strings pretty gmap list sorting.

Local Open Scope string_scope.
Local Open Scope N_scope.
Local Open Scope list_scope.
Local Open Scope stdpp_scope.

(** ** The Go standard library *)

(** [strings.ToLower], [strings.ToUpper], [strings.EqualFold] and the [%q]
    verb of [fmt] ([strconv.Quote]) depend on the Unicode tables of the Go
    runtime.  They are parameters of the development: every theorem holds
    whatever these four functions are. *)
Class GoStrings := {
  strings_ToLower : string → string;
  strings_ToUpper : string → string;
  strings_EqualFold : string → string → bool;
  strconv_Quote : string → string;
}.

(** The string made of one double quote character (byte 34), and the one
    made of a line feed (byte 10). *)
Definition dquote : string := String (Ascii.ascii_of_nat 34) EmptyString.
Definition newline : string := String (Ascii.ascii_of_nat 10) EmptyString.

(** [strings.HasPrefix] and [strings.HasSuffix] compare bytes. *)
Definition strings_HasPrefix (s pre : string) : bool := String.prefix pre s.

Fixpoint strings_HasSuffix (s suf : string) : bool :=
  if String.eqb s suf then true
  else match s with
       | EmptyString => false
       | String _ s' => strings_HasSuffix s' suf
       end.

(** [strings.Join]. *)
Fixpoint strings_Join (elems : list string) (sep : string) : string :=
  match elems with
  | [] => ""
  | [x] => x
  | x :: rest => x +:+ sep +:+ strings_Join rest sep
  end.

(** The [%t] verb. *)
Definition fmt_t (b : bool) : string := if b then "true" else "false".

(** [sort.Strings]: ascending byte-wise order.  The library sorts in place
    with an unstable algorithm; on strings, which are compared as values,
    the outcome is the one sorted permutation of the input
    (see [sort_Strings_unique]). *)
Definition sort_Strings (l : list string) : list string := merge_sort String.le l.

(** A [range] over a map: the entries come in some order, possibly a new one
    each time a loop is entered.  [range_at t m] is the order taken by the
    loop execution numbered [t]; the only thing known about it is that it
    enumerates the map. *)
Class MapOrder := {
  range_at : nat → ∀ V : Type, gmap string V → list (string * V);
  range_at_perm : ∀ t V (m : gmap string V), range_at t V m ≡ₚ map_to_list m;
}.
Global Arguments range_at {_} _ {_} _.

(** ** Errors *)

(** Go [error] values as this program builds them. *)
Inductive error : Type :=
| ErrAborted
    (* the package variable of manager.go: [errors.New("operation aborted by user")] *)
| errors_New (msg : string)
    (* [errors.New] and [fmt.Errorf] without [%w] *)
| fmt_Errorf_w (prefix : string) (err : error)
    (* [fmt.Errorf(prefix + "%w", err)] *)
| ValidationErr (errs : list string)
    (* a non-nil [*config.ValidationError] *).

Global Instance error_eq_dec : EqDecision error.
Proof. solve_decision. Defined.

(** The method [Error()].  The message of a validation error is the one
    built by the [Error] method of [ValidationError] in config.go. *)
Fixpoint error_Error (e : error) : string :=
  match e with
  | ErrAborted => "operation aborted by user"
  | errors_New msg => msg
  | fmt_Errorf_w prefix err => prefix +:+ error_Error err
  | ValidationErr errs =>
      "validation failed with " +:+ pretty (length errs) +:+ " error(s):" +:+ newline
      +:+ "  - " +:+ strings_Join errs (newline +:+ "  - ")
  end.

(** Outcome of a Go function returning [(T, error)]. *)
Inductive Res (A : Type) : Type :=
| Ok (a : A)
| Err (e : error).
Global Arguments Ok {_} _.
Global Arguments Err {_} _.

(** ** package powerdns (types.go) *)
Module powerdns.

Record Comment := mkComment {
  Comment_Content : string;
  Comment_Account : string;
}.

Record Rec := mkRec {
  Rec_Content : string;
  Rec_Disabled : bool;
}.

Record RRset := mkRRset {
  RRset_Name : string;
  RRset_Type : string;
  RRset_ChangeType : string;
  RRset_Records : list Rec;
  RRset_Comments : list Comment;
  RRset_TTL : N;
}.

Record Zone := mkZone {
  Zone_ID : string;
  Zone_Name : string;
  Zone_Type : string;
  Zone_Kind : string;
  Zone_Account : string;
  Zone_Masters : list string;
  Zone_Nameservers : list string;
  Zone_RRsets : list RRset;
}.

Record ZonePatch := mkZonePatch {
  ZonePatch_RRsets : list RRset;
}.

Global Instance Comment_eq_dec : EqDecision Comment.
Proof. solve_decision. Defined.
Global Instance Rec_eq_dec : EqDecision Rec.
Proof. solve_decision. Defined.
Global Instance RRset_eq_dec : EqDecision RRset.
Proof. solve_decision. Defined.
Global Instance Zone_eq_dec : EqDecision Zone.
Proof. solve_decision. Defined.

End powerdns.

(** ** package config (config.go) *)
Module config.

(** A decoded YAML value held in an [interface{}]: what the type switches
    of [normalizeRecords] tell apart, and for everything else the name
    that [%T] prints. *)
#[warnings="-register-all"]
Inductive YAML : Type :=
| YNil
| YString (s : string)
| YBool (b : bool)
| YList (items : list YAML)
| YMap (m : gmap string YAML)
| YOther (goType : string).

Definition fmt_T (v : YAML) : string :=
  match v with
  | YNil => "<nil>"
  | YString _ => "string"
  | YBool _ => "bool"
  | YList _ => "[]interface {}"
  | YMap _ => "map[string]interface {}"
  | YOther t => t
  end.

Record RRsetInput := mkRRsetInput {
  RRsetInput_Name : string;
  RRsetInput_Type : string;
  RRsetInput_Records : YAML;
  RRsetInput_TTL : option N;
  RRsetInput_Comment : string;
}.

Record Zone := mkZone {
  Zone_Kind : string;
  Zone_Nameservers : list string;
  Zone_RRsets : list RRsetInput;
}.

Record Config := mkConfig {
  Zones : gmap string Zone;
}.

Record Rec := mkRec {
  Rec_Content : string;
  Rec_Comment : string;
  Rec_Disabled : bool;
}.

Record RRset := mkRRset {
  RRset_Name : string;
  RRset_Type : string;
  RRset_Comment : string;
  RRset_Records : list Rec;
  RRset_TTL : N;
}.

Record ValidationError := mkValidationError {
  Errors : list string;
}.

Definition Error (e : ValidationError) : string :=
  "validation failed with " +:+ pretty (length (Errors e)) +:+ " error(s):" +:+ newline
  +:+ "  - " +:+ strings_Join (Errors e) (newline +:+ "  - ").

(** [e.Add(format, args...)], the message already formatted. *)
Definition Add (e : ValidationError) (msg : string) : ValidationError :=
  {| Errors := Errors e ++ [msg] |}.

Definition HasErrors (e : ValidationError) : bool :=
  bool_decide (0 < length (Errors e))%nat.

Record ZoneState := mkZoneState {
  Exists : bool;
  IsManaged : bool;
}.

(** Reading a key that a Go map does not hold gives the zero value. *)
Definition zeroZoneState : ZoneState := {| Exists := false; IsManaged := false |}.

Definition CanonicalZoneName (name : string) : string :=
  if negb (strings_HasSuffix name ".") then name +:+ "." else name.

Definition parseRecordMap (m : gmap string YAML) : Res Rec :=
  let rec := {| Rec_Content := ""; Rec_Comment := ""; Rec_Disabled := false |} in
  let step1 : Res Rec :=
    match m !! "content" with
    | Some (YString s) =>
        Ok {| Rec_Content := s; Rec_Comment := Rec_Comment rec;
              Rec_Disabled := Rec_Disabled rec |}
    | Some _ => Err (errors_New "content must be a string")
    | None => Ok rec
    end in
  match step1 with
  | Err e => Err e
  | Ok rec =>
    let step2 : Res Rec :=
      match m !! "disabled" with
      | Some (YBool b) =>
          Ok {| Rec_Content := Rec_Content rec; Rec_Comment := Rec_Comment rec;
                Rec_Disabled := b |}
      | Some _ => Err (errors_New "disabled must be a boolean")
      | None => Ok rec
      end in
    match step2 with
    | Err e => Err e
    | Ok rec =>
      match m !! "comment" with
      | Some (YString s) =>
          Ok {| Rec_Content := Rec_Content rec; Rec_Comment := s;
                Rec_Disabled := Rec_Disabled rec |}
      | Some _ => Err (errors_New "comment must be a string")
      | None => Ok rec
      end
    end
  end.

Fixpoint normalizeRecordsList_from (i : nat) (items : list YAML) (records : list Rec)
  : Res (list Rec) :=
  match items with
  | [] => Ok records
  | item :: rest =>
      match item with
      | YString r =>
          normalizeRecordsList_from (S i) rest
            (records ++ [{| Rec_Content := r; Rec_Comment := ""; Rec_Disabled := false |}])
      | YMap r =>
          match parseRecordMap r with
          | Err err => Err (fmt_Errorf_w ("record[" +:+ pretty i +:+ "]: ") err)
          | Ok rec => normalizeRecordsList_from (S i) rest (records ++ [rec])
          end
      | _ =>
          Err (errors_New ("record[" +:+ pretty i +:+ "]: unsupported type " +:+ fmt_T item))
      end
  end.

Definition normalizeRecordsList (items : list YAML) : Res (list Rec) :=
  normalizeRecordsList_from 0 items [].

Definition normalizeRecords (input : YAML) : Res (list Rec) :=
  match input with
  | YNil => Ok []
  | YString v => Ok [{| Rec_Content := v; Rec_Comment := ""; Rec_Disabled := false |}]
  | YList v => normalizeRecordsList v
  | YMap v =>
      match parseRecordMap v with
      | Err err => Err err
      | Ok rec => Ok [rec]
      end
  | _ => Err (errors_New ("unsupported records type " +:+ fmt_T input))
  end.

Definition NormalizeZone (z : Zone) : Zone :=
  if decide (Zone_Kind z = "") then
    {| Zone_Kind := "Native"; Zone_Nameservers := Zone_Nameservers z;
       Zone_RRsets := Zone_RRsets z |}
  else z.

Section WithGoStrings.
Context `{GS : GoStrings}.

Fixpoint NormalizeRRsets_loop (inputs : list RRsetInput) (rrsets : list RRset)
  : Res (list RRset) :=
  match inputs with
  | [] => Ok rrsets
  | input :: rest =>
      match normalizeRecords (RRsetInput_Records input) with
      | Err err =>
          Err (fmt_Errorf_w ("rrset " +:+ RRsetInput_Name input +:+ "/"
                             +:+ RRsetInput_Type input +:+ ": ") err)
      | Ok records =>
          let ttl := match RRsetInput_TTL input with
                     | Some t => t
                     | None => 300
                     end in
          NormalizeRRsets_loop rest
            (rrsets ++ [{| RRset_Name := RRsetInput_Name input;
                           RRset_Type := strings_ToUpper (RRsetInput_Type input);
                           RRset_TTL := ttl;
                           RRset_Records := records;
                           RRset_Comment := RRsetInput_Comment input |}])
      end
  end.

Definition NormalizeRRsets (z : Zone) : Res (list RRset) :=
  NormalizeRRsets_loop (Zone_RRsets z) [].

(** The checks on the records of one record set, from the call of
    [normalizeRecords] to the end of the loop body. *)
Fixpoint validateRecords_from (rrsetID : string) (j : nat) (records : list Rec)
    (errs : ValidationError) : ValidationError :=
  match records with
  | [] => errs
  | rec :: rest =>
      let errs :=
        if decide (Rec_Content rec = "") then
          Add errs (rrsetID +:+ ", record[" +:+ pretty j +:+ "]: content cannot be empty")
        else errs in
      validateRecords_from rrsetID (S j) rest errs
  end.

(** One iteration of the loop of [validateRRsets]; a [continue] ends the
    iteration with what has been recorded so far. *)
Definition validateRRsets_body (zoneName : string) (i : nat) (rrset : RRsetInput)
    (st : gmap string bool * ValidationError) : gmap string bool * ValidationError :=
  let '(seenRRsets, errs) := st in
  let rrsetID :=
    "zone " +:+ strconv_Quote zoneName +:+ ", rrset[" +:+ pretty i +:+ "] ("
    +:+ RRsetInput_Name rrset +:+ "/" +:+ RRsetInput_Type rrset +:+ ")" in
  if strings_EqualFold (RRsetInput_Type rrset) "NS" then
    (seenRRsets,
     Add errs (rrsetID +:+ ": NS records must be managed via 'nameservers' property, not in rrsets"))
  else if strings_EqualFold (RRsetInput_Type rrset) "SOA" then
    (seenRRsets,
     Add errs (rrsetID +:+ ": SOA records are managed by PowerDNS and cannot be specified"))
  else
    let errs :=
      if decide (RRsetInput_Name rrset = "")
      then Add errs (rrsetID +:+ ": name is required") else errs in
    let errs :=
      if decide (RRsetInput_Type rrset = "")
      then Add errs (rrsetID +:+ ": type is required") else errs in
    let key := strings_ToLower (RRsetInput_Name rrset) +:+ "/"
               +:+ strings_ToUpper (RRsetInput_Type rrset) in
    let errs :=
      if default false (seenRRsets !! key)
      then Add errs (rrsetID +:+ ": duplicate RRset definition") else errs in
    let seenRRsets := <[key := true]> seenRRsets in
    match normalizeRecords (RRsetInput_Records rrset) with
    | Err err =>
        (seenRRsets, Add errs (rrsetID +:+ ": " +:+ error_Error err))
    | Ok records =>
        let errs :=
          if decide (length records = 0%nat)
          then Add errs (rrsetID +:+ ": at least one record is required") else errs in
        (seenRRsets, validateRecords_from rrsetID 0 records errs)
    end.

Fixpoint validateRRsets_from (zoneName : string) (i : nat) (rrsets : list RRsetInput)
    (st : gmap string bool * ValidationError) : gmap string bool * ValidationError :=
  match rrsets with
  | [] => st
  | rrset :: rest =>
      validateRRsets_from zoneName (S i) rest (validateRRsets_body zoneName i rrset st)
  end.

Definition validateRRsets (zoneName : string) (rrsets : list RRsetInput)
    (errs : ValidationError) : ValidationError :=
  snd (validateRRsets_from zoneName 0 rrsets (∅, errs)).

Fixpoint validateNameservers_from (zoneName : string) (i : nat) (nss : list string)
    (errs : ValidationError) : ValidationError :=
  match nss with
  | [] => errs
  | ns :: rest =>
      let errs :=
        if decide (ns = "") then
          Add errs ("zone " +:+ strconv_Quote zoneName +:+ ": nameserver["
                    +:+ pretty i +:+ "] cannot be empty")
        else errs in
      validateNameservers_from zoneName (S i) rest errs
  end.

Definition validKinds : list string :=
  ["Native"; "Master"; "Slave"; "Producer"; "Consumer"].

Definition msg_nameservers_required (zoneName : string) : string :=
  "zone " +:+ strconv_Quote zoneName
  +:+ ": nameservers are required when creating a new zone".

Definition msg_not_managed (zoneName : string) : string :=
  "zone " +:+ strconv_Quote zoneName
  +:+ ": zone exists but is not managed (account does not match)".

Definition validateZone (zoneName : string) (zone : Zone)
    (existingZones : gmap string ZoneState) (errs : ValidationError) : ValidationError :=
  let canonicalName := CanonicalZoneName zoneName in
  let state := default zeroZoneState (existingZones !! canonicalName) in
  let errs :=
    if negb (Exists state) && bool_decide (length (Zone_Nameservers zone) = 0%nat)
    then Add errs (msg_nameservers_required zoneName) else errs in
  let errs :=
    if Exists state && negb (IsManaged state)
    then Add errs (msg_not_managed zoneName) else errs in
  let errs := validateNameservers_from zoneName 0 (Zone_Nameservers zone) errs in
  let errs :=
    if decide (Zone_Kind zone ≠ "") then
      let isValid := existsb (String.eqb (Zone_Kind zone)) validKinds in
      if negb isValid then
        Add errs ("zone " +:+ strconv_Quote zoneName +:+ ": invalid kind "
                  +:+ strconv_Quote (Zone_Kind zone)
                  +:+ ", must be one of: Native, Master, Slave, Producer, Consumer")
      else errs
    else errs in
  validateRRsets zoneName (Zone_RRsets zone) errs.

(** [Validate] ranges over [c.Zones]; [order] is what that [range] yields.
    The result is [None] for Go's [nil]. *)
Definition Validate_over (order : list (string * Zone))
    (existingZones : gmap string ZoneState) : option ValidationError :=
  let errs :=
    foldl (λ errs '(zoneName, zone), validateZone zoneName zone existingZones errs)
          {| Errors := [] |} order in
  if HasErrors errs then Some errs else None.

Definition Validate `{MO : MapOrder} (t : nat) (c : Config)
    (existingZones : gmap string ZoneState) : option ValidationError :=
  Validate_over (range_at t (Zones c)) existingZones.

End WithGoStrings.

End config.

(** ** package manager (manager.go) *)
Module manager.
Import powerdns.

(** The three operations of the backend, over a backend state [B].  A call
    returns its Go result and the state it leaves.  For [CreateZone] and
    [GetZone], [Ok None] is the pair [(nil, nil)]. *)
Record PowerDNSClient (B : Type) := mkClient {
  CreateZone : Zone → B → Res (option Zone) * B;
  GetZone : string → B → Res (option Zone) * B;
  PatchZone : string → ZonePatch → B → option error * B;
}.
Global Arguments CreateZone {_} _ _ _.
Global Arguments GetZone {_} _ _ _.
Global Arguments PatchZone {_} _ _ _ _.

(** The confirmation callback talks to the user, whose state is [U]; a
    [nil] callback is [None]. *)
Definition ConfirmFunc (U : Type) : Type := string → U → bool * U.

Record Manager (B U : Type) := mkManager {
  client : PowerDNSClient B;
  confirmFn : option (ConfirmFunc U);
  accountName : string;
}.
Global Arguments client {_ _} _.
Global Arguments confirmFn {_ _} _.
Global Arguments accountName {_ _} _.

Definition NewManager {B U} (client : PowerDNSClient B) (accountName : string)
  : Manager B U :=
  {| client := client; confirmFn := None; accountName := accountName |}.

Definition SetConfirmFunc {B U} (m : Manager B U) (fn : ConfirmFunc U) : Manager B U :=
  {| client := client m; confirmFn := Some fn; accountName := accountName m |}.

Record ApplyOptions := mkApplyOptions {
  DryRun : bool;
  AutoConfirm : bool;
}.

Record ApplyResult := mkApplyResult {
  Errors : list error;
  ZonesCreated : N;
  RRsetsCreated : N;
  RRsetsUpdated : N;
  RRsetsDeleted : N;
}.

Definition emptyResult : ApplyResult :=
  {| Errors := []; ZonesCreated := 0; RRsetsCreated := 0;
     RRsetsUpdated := 0; RRsetsDeleted := 0 |}.

(** *** Pure helpers *)

Section Pure.
Context `{GS : GoStrings} {B U : Type}.
Implicit Types m : Manager B U.

Definition rrsetKey (name recordType : string) : string :=
  strings_ToLower name +:+ "/" +:+ strings_ToUpper recordType.

Definition buildFQDN m (name zoneID : string) : string :=
  if decide (name = "@") then zoneID
  else if strings_HasSuffix name "." then name
  else name +:+ "." +:+ zoneID.

Definition normalizeNameserver m (ns zoneID : string) : string :=
  if strings_HasSuffix ns "." then ns else ns +:+ "." +:+ zoneID.

Definition normalizeNameservers m (nameservers : list string) (zoneID : string)
  : list string :=
  map (λ ns, normalizeNameserver m ns zoneID) nameservers.

Definition isManaged m (rrset : RRset) : bool :=
  existsb (λ comment, bool_decide (Comment_Account comment = accountName m))
          (RRset_Comments rrset).

Definition createRRsetPatch m (desired : RRset) : RRset :=
  {| RRset_Name := RRset_Name desired;
     RRset_Type := RRset_Type desired;
     RRset_TTL := RRset_TTL desired;
     RRset_ChangeType := "REPLACE";
     RRset_Records := RRset_Records desired;
     RRset_Comments :=
       [ {| Comment_Content := "Managed by zone-manager";
            Comment_Account := accountName m |} ] |}.

(** The strings that [shouldUpdateRRset] sorts: [Sprintf("%s|%t", ...)]. *)
Definition recordString (r : Rec) : string :=
  Rec_Content r +:+ "|" +:+ fmt_t (Rec_Disabled r).

(** The final loop of [shouldUpdateRRset], over two slices of one length. *)
Fixpoint anyDiffers (xs ys : list string) : bool :=
  match xs, ys with
  | x :: xs', y :: ys' => if decide (x ≠ y) then true else anyDiffers xs' ys'
  | _, _ => false
  end.

Definition shouldUpdateRRset m (desired existing : RRset) : bool :=
  if decide (RRset_TTL desired ≠ RRset_TTL existing) then true
  else if decide (length (RRset_Records desired) ≠ length (RRset_Records existing))
  then true
  else
    let desiredContents := sort_Strings (map recordString (RRset_Records desired)) in
    let existingContents := sort_Strings (map recordString (RRset_Records existing)) in
    anyDiffers desiredContents existingContents.

(** One iteration of the loop over [rrsets] in [buildDesiredRRsets]. *)
Definition desiredFromConfig m (zoneID : string) (rrset : config.RRset) : string * RRset :=
  let fqdn := buildFQDN m (config.RRset_Name rrset) zoneID in
  let key := rrsetKey fqdn (config.RRset_Type rrset) in
  let records :=
    map (λ rec,
           let content := config.Rec_Content rec in
           let content :=
             if bool_decide (config.RRset_Type rrset = "TXT")
                && negb (strings_HasPrefix content dquote)
             then strconv_Quote content else content in
           {| Rec_Content := content; Rec_Disabled := config.Rec_Disabled rec |})
        (config.RRset_Records rrset) in
  (key, {| RRset_Name := fqdn;
           RRset_Type := config.RRset_Type rrset;
           RRset_TTL := config.RRset_TTL rrset;
           RRset_Records := records;
           RRset_ChangeType := "";
           RRset_Comments := [] |}).

Definition buildDesiredRRsets m (zoneID : string) (cfg : config.Zone)
    (state : config.ZoneState) : Res (gmap string RRset) :=
  let desired : gmap string RRset := ∅ in
  let desired :=
    if bool_decide (0 < length (config.Zone_Nameservers cfg))%nat then
      if config.IsManaged state || negb (config.Exists state) then
        let nsRecords :=
          map (λ ns, {| Rec_Content := normalizeNameserver m ns zoneID;
                        Rec_Disabled := false |})
              (config.Zone_Nameservers cfg) in
        <[rrsetKey zoneID "NS" :=
            {| RRset_Name := zoneID; RRset_Type := "NS"; RRset_TTL := 300;
               RRset_Records := nsRecords;
               RRset_ChangeType := ""; RRset_Comments := [] |}]> desired
      else desired
    else desired in
  match config.NormalizeRRsets cfg with
  | Err err => Err err
  | Ok rrsets =>
      Ok (foldl (λ desired rrset,
                   let '(key, v) := desiredFromConfig m zoneID rrset in
                   <[key := v]> desired)
                desired rrsets)
  end.

(** [existingByKey] of [applyRRsets]. *)
Definition indexRRsets (rrsets : list RRset) : gmap string RRset :=
  foldl (λ existingByKey rrset,
           <[rrsetKey (RRset_Name rrset) (RRset_Type rrset) := rrset]> existingByKey)
        ∅ rrsets.

Definition deleteRRsetPatch (existing : RRset) : RRset :=
  {| RRset_Name := RRset_Name existing;
     RRset_Type := RRset_Type existing;
     RRset_ChangeType := "DELETE";
     RRset_Records := []; RRset_Comments := []; RRset_TTL := 0 |}.

Definition incCreated (r : ApplyResult) : ApplyResult :=
  {| Errors := Errors r; ZonesCreated := ZonesCreated r;
     RRsetsCreated := RRsetsCreated r + 1;
     RRsetsUpdated := RRsetsUpdated r; RRsetsDeleted := RRsetsDeleted r |}.
Definition incUpdated (r : ApplyResult) : ApplyResult :=
  {| Errors := Errors r; ZonesCreated := ZonesCreated r;
     RRsetsCreated := RRsetsCreated r;
     RRsetsUpdated := RRsetsUpdated r + 1; RRsetsDeleted := RRsetsDeleted r |}.
Definition incDeleted (r : ApplyResult) : ApplyResult :=
  {| Errors := Errors r; ZonesCreated := ZonesCreated r;
     RRsetsCreated := RRsetsCreated r;
     RRsetsUpdated := RRsetsUpdated r; RRsetsDeleted := RRsetsDeleted r + 1 |}.
Definition incZones (r : ApplyResult) : ApplyResult :=
  {| Errors := Errors r; ZonesCreated := ZonesCreated r + 1;
     RRsetsCreated := RRsetsCreated r;
     RRsetsUpdated := RRsetsUpdated r; RRsetsDeleted := RRsetsDeleted r |}.
Definition addError (r : ApplyResult) (e : error) : ApplyResult :=
  {| Errors := Errors r ++ [e]; ZonesCreated := ZonesCreated r;
     RRsetsCreated := RRsetsCreated r;
     RRsetsUpdated := RRsetsUpdated r; RRsetsDeleted := RRsetsDeleted r |}.

(** One iteration of the first loop of [applyRRsets] ("Process desired
    RRsets"), on the patch built so far and the result counters. *)
Definition processDesired m (existingByKey : gmap string RRset)
    (acc : list RRset * ApplyResult) (entry : string * RRset)
  : list RRset * ApplyResult :=
  let '(patchRRsets, result) := acc in
  let '(key, desired) := entry in
  match existingByKey !! key with
  | None =>
      (patchRRsets ++ [createRRsetPatch m desired], incCreated result)
  | Some existing =>
      if isManaged m existing then
        if shouldUpdateRRset m desired existing then
          (patchRRsets ++ [createRRsetPatch m desired], incUpdated result)
        else acc
      else acc
  end.

(** One iteration of the second loop ("Find orphaned managed RRsets"). *)
Definition processOrphan m (desiredRRsets : gmap string RRset)
    (acc : list RRset * ApplyResult) (entry : string * RRset)
  : list RRset * ApplyResult :=
  let '(patchRRsets, result) := acc in
  let '(key, existing) := entry in
  if isManaged m existing then
    match desiredRRsets !! key with
    | None => (patchRRsets ++ [deleteRRsetPatch existing], incDeleted result)
    | Some _ => acc
    end
  else acc.

(** Both loops, given the orders in which the two maps are ranged over. *)
Definition diffRRsets m (desiredRRsets existingByKey : gmap string RRset)
    (order1 order2 : list (string * RRset)) (result : ApplyResult)
  : list RRset * ApplyResult :=
  foldl (processOrphan m desiredRRsets)
        (foldl (processDesired m existingByKey) ([], result) order1)
        order2.

End Pure.

(** *** Effects *)

(** What the manager asks of the backend and what the backend answers, in
    the order of the calls. *)
Inductive Call : Type :=
| CallCreateZone (zone : Zone) (answer : Res (option Zone))
| CallGetZone (zoneID : string) (answer : Res (option Zone))
| CallPatchZone (zoneID : string) (patch : ZonePatch) (answer : option error).

Definition isGetZone (c : Call) : bool :=
  match c with CallGetZone _ _ => true | _ => false end.

(** The state threaded through a run: the backend, the user behind the
    confirmation prompt, the calls made so far, and the number of map
    loops entered so far. *)
Record St (B U : Type) := mkSt {
  backend : B;
  user : U;
  calls : list Call;
  tick : nat;
}.
Global Arguments mkSt {_ _} _ _ _ _.
Global Arguments backend {_ _} _.
Global Arguments user {_ _} _.
Global Arguments calls {_ _} _.
Global Arguments tick {_ _} _.

(** A computation returns a value, or panics ([None]: a nil pointer is
    dereferenced), and leaves a state. *)
Definition M (B U A : Type) : Type := St B U → option A * St B U.

Definition ret {B U A} (a : A) : M B U A := λ st, (Some a, st).
Definition bind {B U A A'} (c : M B U A) (k : A → M B U A') : M B U A' :=
  λ st, match c st with
        | (Some a, st') => k a st'
        | (None, st') => (None, st')
        end.
Definition panic {B U A} : M B U A := λ st, (None, st).

Notation "x ←← c ;; k" := (bind c (λ x, k))
  (at level 100, c at next level, right associativity, only parsing).

Section Effects.
Context `{GS : GoStrings} `{MO : MapOrder} {B U : Type}.
Implicit Types m : Manager B U.

Definition callGetZone m (zoneID : string) : M B U (Res (option Zone)) :=
  λ st, let '(r, b) := GetZone (client m) zoneID (backend st) in
        (Some r, mkSt b (user st) (calls st ++ [CallGetZone zoneID r]) (tick st)).

Definition callCreateZone m (zone : Zone) : M B U (Res (option Zone)) :=
  λ st, let '(r, b) := CreateZone (client m) zone (backend st) in
        (Some r, mkSt b (user st) (calls st ++ [CallCreateZone zone r]) (tick st)).

Definition callPatchZone m (zoneID : string) (patch : ZonePatch)
  : M B U (option error) :=
  λ st, let '(r, b) := PatchZone (client m) zoneID patch (backend st) in
        (Some r, mkSt b (user st) (calls st ++ [CallPatchZone zoneID patch r]) (tick st)).

Definition callConfirm (fn : ConfirmFunc U) (prompt : string) : M B U bool :=
  λ st, let '(r, u) := fn prompt (user st) in
        (Some r, mkSt (backend st) u (calls st) (tick st)).

(** Entering a [range] over a map. *)
Definition rangeM {V} (mp : gmap string V) : M B U (list (string * V)) :=
  λ st, (Some (range_at (tick st) mp),
         mkSt (backend st) (user st) (calls st) (S (tick st))).

Definition nextTick : M B U nat :=
  λ st, (Some (tick st), mkSt (backend st) (user st) (calls st) (S (tick st))).

Definition sendPatch m (zoneID : string) (patchRRsets : list RRset)
    (opts : ApplyOptions) : M B U (option error) :=
  if decide (length patchRRsets = 0%nat) then ret None
  else if DryRun opts then ret None
  else
    confirmed ←←
      (if negb (AutoConfirm opts) then
         match confirmFn m with
         | Some fn => callConfirm fn "Apply these changes?"
         | None => ret true
         end
       else ret true);;
    if negb confirmed then ret (Some ErrAborted)
    else
      r ←← callPatchZone m zoneID {| ZonePatch_RRsets := patchRRsets |};;
      match r with
      | Some err => ret (Some (fmt_Errorf_w "failed to patch zone: " err))
      | None => ret None
      end.

(** [result] is a pointer in the source; the embedding passes the record
    and returns it next to the error. *)
Definition applyRRsets m (zoneID : string) (cfg : config.Zone)
    (existingZone : option Zone) (state : config.ZoneState)
    (opts : ApplyOptions) (result : ApplyResult)
  : M B U (option error * ApplyResult) :=
  match buildDesiredRRsets m zoneID cfg state with
  | Err err => ret (Some err, result)
  | Ok desiredRRsets =>
      match existingZone with
      | None => panic
      | Some existingZone =>
          let existingByKey := indexRRsets (Zone_RRsets existingZone) in
          order1 ←← rangeM desiredRRsets;;
          let acc := foldl (processDesired m existingByKey) ([], result) order1 in
          order2 ←← rangeM existingByKey;;
          let '(patchRRsets, result) :=
            foldl (processOrphan m desiredRRsets) acc order2 in
          err ←← sendPatch m zoneID patchRRsets opts;;
          ret (err, result)
      end
  end.

Definition applyZone m (zoneID : string) (zoneConfig : config.Zone)
    (state : config.ZoneState) (existingZone : option Zone)
    (opts : ApplyOptions) (result : ApplyResult)
  : M B U (option error * ApplyResult) :=
  if negb (config.Exists state) then
    if negb (DryRun opts) then
      let zone :=
        {| Zone_ID := ""; Zone_Name := zoneID; Zone_Type := "";
           Zone_Kind := config.Zone_Kind zoneConfig;
           Zone_Account := accountName m;
           Zone_Masters := [];
           Zone_Nameservers :=
             normalizeNameservers m (config.Zone_Nameservers zoneConfig) zoneID;
           Zone_RRsets := [] |} in
      r ←← callCreateZone m zone;;
      match r with
      | Err err => ret (Some (fmt_Errorf_w "failed to create zone: " err), result)
      | Ok created =>
          applyRRsets m zoneID zoneConfig created state opts (incZones result)
      end
    else
      let existingZone :=
        {| Zone_ID := ""; Zone_Name := zoneID; Zone_Type := ""; Zone_Kind := "";
           Zone_Account := ""; Zone_Masters := []; Zone_Nameservers := [];
           Zone_RRsets := [] |} in
      applyRRsets m zoneID zoneConfig (Some existingZone) state opts (incZones result)
  else
    applyRRsets m zoneID zoneConfig existingZone state opts result.

(** Step 1 of [Apply]: the loop over [cfg.Zones], in the order [zones]. *)
Fixpoint fetchZones m (zones : list (string * config.Zone))
    (existingZones : gmap string config.ZoneState) (zoneData : gmap string Zone)
  : M B U (Res (gmap string config.ZoneState * gmap string Zone)) :=
  match zones with
  | [] => ret (Ok (existingZones, zoneData))
  | (zoneName, _) :: rest =>
      let canonicalName := config.CanonicalZoneName zoneName in
      r ←← callGetZone m canonicalName;;
      match r with
      | Err err =>
          ret (Err (fmt_Errorf_w ("failed to check zone " +:+ zoneName +:+ ": ") err))
      | Ok (Some zone) =>
          let isManaged := bool_decide (Zone_Account zone = accountName m) in
          fetchZones m rest
            (<[canonicalName := {| config.Exists := true;
                                   config.IsManaged := isManaged |}]> existingZones)
            (<[canonicalName := zone]> zoneData)
      | Ok None =>
          fetchZones m rest
            (<[canonicalName := {| config.Exists := false;
                                   config.IsManaged := false |}]> existingZones)
            zoneData
      end
  end.

(** Step 3 of [Apply]: the loop over [cfg.Zones], in the order [zones]. *)
Fixpoint applyZones m (zones : list (string * config.Zone))
    (existingZones : gmap string config.ZoneState) (zoneData : gmap string Zone)
    (opts : ApplyOptions) (result : ApplyResult) : M B U ApplyResult :=
  match zones with
  | [] => ret result
  | (zoneName, zoneConfig) :: rest =>
      let zoneConfig := config.NormalizeZone zoneConfig in
      let canonicalName := config.CanonicalZoneName zoneName in
      let state := default config.zeroZoneState (existingZones !! canonicalName) in
      r ←←
        applyZone m canonicalName zoneConfig state (zoneData !! canonicalName)
                  opts result;;
      let '(err, result) := r in
      let result :=
        match err with
        | Some err => addError result (fmt_Errorf_w ("zone " +:+ zoneName +:+ ": ") err)
        | None => result
        end in
      applyZones m rest existingZones zoneData opts result
  end.

(** [Apply] returns [(nil, err)] or [(result, nil)]. *)
Definition Apply m (cfg : config.Config) (opts : ApplyOptions)
  : M B U (Res ApplyResult) :=
  let result := emptyResult in
  zones ←← rangeM (config.Zones cfg);;
  fetched ←← fetchZones m zones ∅ ∅;;
  match fetched with
  | Err err => ret (Err err)
  | Ok (existingZones, zoneData) =>
      t ←← nextTick;;
      match config.Validate t cfg existingZones with
      | Some validationErr => ret (Err (ValidationErr (config.Errors validationErr)))
      | None =>
          zones ←← rangeM (config.Zones cfg);;
          result ←← applyZones m zones existingZones zoneData opts result;;
          ret (Ok result)
      end
  end.

End Effects.

End manager.

(** ** Instances for closed examples *)

(** On strings of ASCII letters, digits and punctuation the four library
    functions are the following; the examples below only use such strings. *)
Module ascii_strings.
Import Stdlib.Strings.Ascii.

Definition lower_byte (c : ascii) : ascii :=
  let n := N_of_ascii c in
  if (65 <=? n) && (n <=? 90) then ascii_of_N (n + 32) else c.

Definition upper_byte (c : ascii) : ascii :=
  let n := N_of_ascii c in
  if (97 <=? n) && (n <=? 122) then ascii_of_N (n - 32) else c.

Fixpoint map_bytes (f : ascii → ascii) (s : string) : string :=
  match s with
  | EmptyString => EmptyString
  | String c s' => String (f c) (map_bytes f s')
  end.

Fixpoint escape (s : string) : string :=
  match s with
  | EmptyString => EmptyString
  | String c s' =>
      if decide (c = ascii_of_nat 34) then String "\"%char (String c (escape s'))
      else if decide (c = "\"%char) then String "\"%char (String c (escape s'))
      else String c (escape s')
  end.

Definition quote (s : string) : string := dquote +:+ escape s +:+ dquote.

Global Instance ascii_GoStrings : GoStrings := {|
  strings_ToLower := map_bytes lower_byte;
  strings_ToUpper := map_bytes upper_byte;
  strings_EqualFold s t := String.eqb (map_bytes lower_byte s) (map_bytes lower_byte t);
  strconv_Quote := quote;
|}.

End ascii_strings.

(** One admissible iteration order: every loop takes the entries as
    [map_to_list] lists them. *)
Program Definition listed_order : MapOrder :=
  {| range_at := λ _ V mp, map_to_list mp |}.
Next Obligation. reflexivity. Qed.

(** ** The test double of the manager's tests *)
Module mock.
Import powerdns manager.

Record MockClient := mkMockClient {
  zones : gmap string Zone;
  createZoneErr : option error;
  getZoneErr : option error;
  patchZoneErr : option error;
  patchCalls : list ZonePatch;
}.

Definition NewMockClient : MockClient :=
  {| zones := ∅; createZoneErr := None; getZoneErr := None;
     patchZoneErr := None; patchCalls := [] |}.

Definition mockCreateZone (zone : Zone) (c : MockClient) : Res (option Zone) * MockClient :=
  match createZoneErr c with
  | Some err => (Err err, c)
  | None =>
      let created := zone in
      (Ok (Some created),
       {| zones := <[Zone_Name zone := created]> (zones c);
          createZoneErr := createZoneErr c; getZoneErr := getZoneErr c;
          patchZoneErr := patchZoneErr c; patchCalls := patchCalls c |})
  end.

Definition mockGetZone (zoneID : string) (c : MockClient) : Res (option Zone) * MockClient :=
  match getZoneErr c with
  | Some err => (Err err, c)
  | None => (Ok (zones c !! zoneID), c)
  end.

Definition mockPatchZone (zoneID : string) (patch : ZonePatch) (c : MockClient)
  : option error * MockClient :=
  match patchZoneErr c with
  | Some err => (Some err, c)
  | None =>
      (None,
       {| zones := zones c;
          createZoneErr := createZoneErr c; getZoneErr := getZoneErr c;
          patchZoneErr := patchZoneErr c; patchCalls := patchCalls c ++ [patch] |})
  end.

Definition client : PowerDNSClient MockClient :=
  {| CreateZone := mockCreateZone; GetZone := mockGetZone; PatchZone := mockPatchZone |}.

End mock.

(** ** A reference backend *)

(** Modelled from the spec: the DNS server behind the REST API is not part of
    the repository.  Section 6 of the specification gives its three calls
    (GET of a zone: the zone, or 404 for a zone that does not exist; POST of a
    zone: the created zone; PATCH: a batch of record-set changes tagged
    REPLACE or DELETE), pkg/powerdns/client.go documents PATCH as "creates,
    modifies, deletes RRsets present in the payload and their comments", and
    both [GetZone] and [PatchZone] of that client complete the zone id with a
    final dot.  The state is the map of the zones by name.  A record set is
    identified by its name and type as [rrsetKey] identifies it.  Which record
    sets a zone holds right after its creation is left open: [initialRRsets]
    is a parameter. *)
Module server.
Import powerdns manager.

Section WithInitialRRsets.
Context `{GS : GoStrings}.
Variable initialRRsets : Zone → list RRset.

(** A record set as the server keeps it. *)
Definition stored (change : RRset) : RRset :=
  {| RRset_Name := RRset_Name change; RRset_Type := RRset_Type change;
     RRset_ChangeType := "";
     RRset_Records := RRset_Records change;
     RRset_Comments := RRset_Comments change;
     RRset_TTL := RRset_TTL change |}.

Definition sameRRset (change rrset : RRset) : bool :=
  bool_decide (rrsetKey (RRset_Name rrset) (RRset_Type rrset)
               = rrsetKey (RRset_Name change) (RRset_Type change)).

Definition applyChange (rrsets : list RRset) (change : RRset) : list RRset :=
  let others := filter (λ rrset, negb (sameRRset change rrset)) rrsets in
  if decide (RRset_ChangeType change = "REPLACE") then others ++ [stored change]
  else if decide (RRset_ChangeType change = "DELETE") then others
  else rrsets.

Definition withRRsets (zone : Zone) (rrsets : list RRset) : Zone :=
  {| Zone_ID := Zone_ID zone; Zone_Name := Zone_Name zone; Zone_Type := Zone_Type zone;
     Zone_Kind := Zone_Kind zone; Zone_Account := Zone_Account zone;
     Zone_Masters := Zone_Masters zone; Zone_Nameservers := Zone_Nameservers zone;
     Zone_RRsets := rrsets |}.

Definition serverCreateZone (zone : Zone) (zones : gmap string Zone)
  : Res (option Zone) * gmap string Zone :=
  match zones !! Zone_Name zone with
  | Some _ => (Err (errors_New "Conflict"), zones)
  | None =>
      let created := withRRsets zone (initialRRsets zone) in
      (Ok (Some created), <[Zone_Name zone := created]> zones)
  end.

Definition serverGetZone (zoneID : string) (zones : gmap string Zone)
  : Res (option Zone) * gmap string Zone :=
  (Ok (zones !! config.CanonicalZoneName zoneID), zones).

Definition serverPatchZone (zoneID : string) (patch : ZonePatch) (zones : gmap string Zone)
  : option error * gmap string Zone :=
  let zoneID := config.CanonicalZoneName zoneID in
  match zones !! zoneID with
  | None => (Some (errors_New "Not Found"), zones)
  | Some zone =>
      (None,
       <[zoneID := withRRsets zone (foldl applyChange (Zone_RRsets zone)
                                          (ZonePatch_RRsets patch))]> zones)
  end.

Definition client : PowerDNSClient (gmap string Zone) :=
  {| CreateZone := serverCreateZone; GetZone := serverGetZone;
     PatchZone := serverPatchZone |}.

End WithInitialRRsets.

End server.

(** ** package logger (logger.go) *)

(** [strings.Repeat]. *)
Fixpoint strings_Repeat (s : string) (count : nat) : string :=
  match count with
  | O => ""
  | S count' => s +:+ strings_Repeat s count'
  end.

(** [strings.TrimSuffix]: [s] without the suffix when it ends with it. *)
Definition strings_TrimSuffix (s suffix : string) : string :=
  if strings_HasSuffix s suffix
  then Stdlib.Strings.String.substring 0 (String.length s - String.length suffix) s
  else s.

Module logger.

(** [secret[:2]] and [secret[len(secret)-2:]] slice bytes; [len] counts
    bytes. *)
Definition MaskSecret (secret : string) : string :=
  if bool_decide (String.length secret ≤ 4)%nat then "****"
  else
    Stdlib.Strings.String.substring 0 2 secret
    +:+ strings_Repeat "*" (String.length secret - 4)
    +:+ Stdlib.Strings.String.substring (String.length secret - 2) 2 secret.

End logger.

(** ** package cmd (root.go) *)
Module cmd.

Definition defaultAccountName : string := "zone-manager".

(** [os.Getenv] on an environment [env]: the value of the variable, the
    empty string when it is not set. *)
Definition os_Getenv (env : gmap string string) (key : string) : string :=
  default "" (env !! key).

Definition getAccountName (env : gmap string string) : string :=
  let name := os_Getenv env "ACCOUNT_NAME" in
  if decide (name ≠ "") then name else defaultAccountName.

End cmd.

(** ** package powerdns (client.go): the REST client *)

(** [encoding/json] on the types of the API, and what [net/http] does with a
    request, are parameters: the client is embedded for any encoder, decoder
    and transport.  A transport has a state [H] (the server and the network);
    sending a request gives a response or an error and leaves a state. *)
Class GoJSON := {
  json_Marshal_Zone : powerdns.Zone → Res string;
  json_Marshal_ZonePatch : powerdns.ZonePatch → Res string;
  json_Unmarshal_Zone : string → Res powerdns.Zone;
  (* decoding into [APIError]: the field [Error] of the decoded value *)
  json_Unmarshal_APIError : string → Res string;
}.

Module restclient.
Import powerdns.

(** A request as [doRequest] builds it: [Header] lists the calls of
    [req.Header.Set] in order. *)
Record Request := mkRequest {
  Method : string;
  URL : string;
  Header : list (string * string);
  ReqBody : option string;
}.

(** A response: [Body] is what [io.ReadAll(resp.Body)] returns, the bytes
    read and the error that ended the reading, if any. *)
Record Response := mkResponse {
  StatusCode : Z;
  Status : string;
  Body : string * option error;
}.

Global Instance Request_eq_dec : EqDecision Request.
Proof. solve_decision. Defined.

Class GoHTTP (H : Type) := {
  (* [http.NewRequestWithContext(ctx, method, url, body)]: the error, if any *)
  http_NewRequest : string → string → option error;
  (* [httpClient.Do(req)] *)
  http_Do : Request → H → Res Response * H;
}.

Record Client := mkClient {
  baseURL : string;
  apiKey : string;
}.

Definition NewClient (baseURL apiKey : string) : Client :=
  {| baseURL := strings_TrimSuffix baseURL "/"; apiKey := apiKey |}.

(** The values passed as [body]: a zone, a patch, or nothing ([None] is the
    untyped [nil] of [GetZone]). *)
Inductive Payload : Type :=
| ZoneBody (zone : Zone)
| PatchBody (patch : ZonePatch).

Section WithTransport.
Context `{GJ : GoJSON} {H : Type} `{GH : GoHTTP H}.

Definition json_Marshal (body : Payload) : Res string :=
  match body with
  | ZoneBody zone => json_Marshal_Zone zone
  | PatchBody patch => json_Marshal_ZonePatch patch
  end.

Definition doRequest (c : Client) (method path : string) (body : option Payload)
    (h : H) : Res Response * H :=
  let reqBody : Res (option string) :=
    match body with
    | Some body =>
        match json_Marshal body with
        | Err err => Err (fmt_Errorf_w "failed to marshal request body: " err)
        | Ok data => Ok (Some data)
        end
    | None => Ok None
    end in
  match reqBody with
  | Err err => (Err err, h)
  | Ok reqBody =>
      let url := baseURL c +:+ path in
      match http_NewRequest method url with
      | Some err => (Err (fmt_Errorf_w "failed to create request: " err), h)
      | None =>
          let req :=
            {| Method := method; URL := url;
               Header := ("X-API-Key", apiKey c)
                         :: match body with
                            | Some _ => [("Content-Type", "application/json")]
                            | None => []
                            end;
               ReqBody := reqBody |} in
          match http_Do req h with
          | (Err err, h') => (Err (fmt_Errorf_w "request failed: " err), h')
          | (Ok resp, h') => (Ok resp, h')
          end
      end
  end.

Definition handleError (c : Client) (method path : string) (resp : Response) : error :=
  let body := (Body resp).1 in
  let plain :=
    errors_New ("API request failed with status " +:+ pretty (StatusCode resp)
                +:+ ": " +:+ body) in
  match json_Unmarshal_APIError body with
  | Ok apiErr =>
      if decide (apiErr ≠ "") then
        errors_New ("API error (status " +:+ pretty (StatusCode resp) +:+ "): " +:+ apiErr)
      else plain
  | Err _ => plain
  end.

(** The body of a response that was read to its end, decoded as a zone. *)
Definition readZone (resp : Response) : Res Zone :=
  match Body resp with
  | (_, Some err) => Err (fmt_Errorf_w "failed to read response: " err)
  | (body, None) =>
      match json_Unmarshal_Zone body with
      | Err err => Err (fmt_Errorf_w "failed to parse response: " err)
      | Ok zone => Ok zone
      end
  end.

Definition CreateZone (c : Client) (zone : Zone) (h : H) : Res (option Zone) * H :=
  let path := "/zones" in
  match doRequest c "POST" path (Some (ZoneBody zone)) h with
  | (Err err, h') => (Err err, h')
  | (Ok resp, h') =>
      if decide (StatusCode resp ≠ 201%Z) then (Err (handleError c "POST" path resp), h')
      else
        match readZone resp with
        | Err err => (Err err, h')
        | Ok created => (Ok (Some created), h')
        end
  end.

Definition GetZone (c : Client) (zoneID : string) (h : H) : Res (option Zone) * H :=
  let zoneID := if negb (strings_HasSuffix zoneID ".") then zoneID +:+ "." else zoneID in
  let path := "/zones/" +:+ zoneID in
  match doRequest c "GET" path None h with
  | (Err err, h') => (Err err, h')
  | (Ok resp, h') =>
      if decide (StatusCode resp = 404%Z) then (Ok None, h')
      else if decide (StatusCode resp ≠ 200%Z)
      then (Err (handleError c "GET" path resp), h')
      else
        match readZone resp with
        | Err err => (Err err, h')
        | Ok zone => (Ok (Some zone), h')
        end
  end.

Definition PatchZone (c : Client) (zoneID : string) (patch : ZonePatch) (h : H)
  : option error * H :=
  let zoneID := if negb (strings_HasSuffix zoneID ".") then zoneID +:+ "." else zoneID in
  let path := "/zones/" +:+ zoneID in
  match doRequest c "PATCH" path (Some (PatchBody patch)) h with
  | (Err err, h') => (Some err, h')
  | (Ok resp, h') =>
      if decide (StatusCode resp ≠ 204%Z) then (Some (handleError c "PATCH" path resp), h')
      else (None, h')
  end.

(** The client as the manager uses it. *)
Definition asPowerDNSClient (c : Client) : manager.PowerDNSClient H :=
  {| manager.CreateZone := CreateZone c;
     manager.GetZone := GetZone c;
     manager.PatchZone := PatchZone c |}.

End WithTransport.

End restclient.

(** * Properties *)

(** ** Strings and sorting *)

Lemma string_app_cons (c : Ascii.ascii) (s t : string) :
  String c s +:+ t = String c (s +:+ t).
Proof. reflexivity. Qed.

Lemma list_ascii_of_string_app (s t : string) :
  Stdlib.Strings.String.list_ascii_of_string (s +:+ t) = Stdlib.Strings.String.list_ascii_of_string s ++ Stdlib.Strings.String.list_ascii_of_string t.
Proof.
  induction s as [|c s IH]; [done|]. rewrite string_app_cons. simpl. by rewrite IH.
Qed.

Lemma list_ascii_of_string_inj (s t : string) :
  Stdlib.Strings.String.list_ascii_of_string s = Stdlib.Strings.String.list_ascii_of_string t → s = t.
Proof.
  intros E. rewrite <-(Stdlib.Strings.String.string_of_list_ascii_of_string s), E.
  apply Stdlib.Strings.String.string_of_list_ascii_of_string.
Qed.

(** Two strings with suffixes of one length are equal only when both parts are. *)
Lemma string_app_inj_2 (s1 s2 t1 t2 : string) :
  String.length t1 = String.length t2 →
  s1 +:+ t1 = s2 +:+ t2 → s1 = s2 ∧ t1 = t2.
Proof.
  intros Hlen E.
  apply (f_equal Stdlib.Strings.String.list_ascii_of_string) in E.
  rewrite !list_ascii_of_string_app in E.
  apply app_inj_2 in E as [E1 E2].
  - split; by apply list_ascii_of_string_inj.
  - clear E. revert t2 Hlen. induction t1 as [|c t1 IH]; intros [|c2 t2] ?; simpl in *;
      try done. f_equal. apply IH. lia.
Qed.

Lemma string_app_assoc (s t u : string) : (s +:+ t) +:+ u = s +:+ t +:+ u.
Proof. induction s as [|c s IH]; [done|]. by rewrite !string_app_cons, IH. Qed.

Lemma sort_Strings_Permutation (l : list string) : sort_Strings l ≡ₚ l.
Proof. apply merge_sort_Permutation. Qed.

Lemma sort_Strings_Sorted (l : list string) : Sorted String.le (sort_Strings l).
Proof. apply (Sorted_merge_sort String.le). Qed.

(** The outcome of sorting is fixed by the elements alone, whatever the
    algorithm: any sorted rearrangement of [l] is [sort_Strings l]. *)
Lemma sort_Strings_unique (l l' : list string) :
  Sorted String.le l' → l' ≡ₚ l → l' = sort_Strings l.
Proof.
  intros Hs Hp. apply (Sorted_unique String.le); [done|apply sort_Strings_Sorted|].
  by rewrite sort_Strings_Permutation.
Qed.

Lemma sort_Strings_eq_iff (l1 l2 : list string) :
  sort_Strings l1 = sort_Strings l2 ↔ l1 ≡ₚ l2.
Proof.
  split.
  - intros E. rewrite <-(sort_Strings_Permutation l1), E. apply sort_Strings_Permutation.
  - intros Hp. apply sort_Strings_unique; [apply sort_Strings_Sorted|].
    by rewrite sort_Strings_Permutation.
Qed.

Lemma fmap_Permutation_inj_iff {A A'} (f : A → A') `{!Inj (=) (=) f} (l1 l2 : list A) :
  f <$> l1 ≡ₚ f <$> l2 ↔ l1 ≡ₚ l2.
Proof.
  split; [|by intros ->].
  intros Hp. apply Permutation_map_inv in Hp as (l3 & E & Hp).
  apply (inj (fmap f)) in E. subst l3. done.
Qed.

(** ** The update test *)
Section ShouldUpdate.
Import powerdns manager.
Context `{GS : GoStrings} {B U : Type}.
Implicit Types m : Manager B U.

Global Instance recordString_inj : Inj (=) (=) recordString.
Proof.
  intros [c1 d1] [c2 d2]. unfold recordString. simpl. intros E.
  destruct d1, d2; simpl in E.
  - apply string_app_inj_2 in E as [-> _]; done.
  - rewrite <-(string_app_assoc c2) in E.
    apply string_app_inj_2 in E as [_ E]; [|done]. by vm_compute in E.
  - rewrite <-(string_app_assoc c1) in E.
    apply string_app_inj_2 in E as [_ E]; [|done]. by vm_compute in E.
  - apply string_app_inj_2 in E as [-> _]; done.
Qed.

Lemma anyDiffers_false_iff (xs ys : list string) :
  length xs = length ys → anyDiffers xs ys = false ↔ xs = ys.
Proof.
  revert ys. induction xs as [|x xs IH]; intros [|y ys] Hlen; simpl in *; try done.
  case_decide as Hxy.
  - split; [done|]. intros [= ? ?]. done.
  - subst y. rewrite IH by lia. split; [by intros ->|].
    by intros [= ->].
Qed.

Definition recordPair (r : Rec) : string * bool := (Rec_Content r, Rec_Disabled r).

Global Instance recordPair_inj : Inj (=) (=) recordPair.
Proof. intros [??] [??] [= -> ->]. done. Qed.

Lemma shouldUpdateRRset_false_iff m (desired existing : RRset) :
  shouldUpdateRRset m desired existing = false ↔
  RRset_TTL desired = RRset_TTL existing ∧
  RRset_Records desired ≡ₚ RRset_Records existing.
Proof.
  unfold shouldUpdateRRset.
  case_decide as Httl.
  { split; [done|]. intros [? _]. done. }
  case_decide as Hlen.
  { split; [done|]. intros [_ Hp]. by rewrite Hp in Hlen. }
  rewrite anyDiffers_false_iff.
  - rewrite sort_Strings_eq_iff.
    rewrite (fmap_Permutation_inj_iff recordString).
    split; [by intros ?|by intros [_ ?]].
  - rewrite !(Permutation_length (sort_Strings_Permutation _)), !length_map. done.
Qed.

Definition withComments (rrset : RRset) (comments : list Comment) : RRset :=
  {| RRset_Name := RRset_Name rrset; RRset_Type := RRset_Type rrset;
     RRset_ChangeType := RRset_ChangeType rrset;
     RRset_Records := RRset_Records rrset;
     RRset_Comments := comments; RRset_TTL := RRset_TTL rrset |}.

(** C4.  [shouldUpdateRRset] answers true exactly when the TTLs differ, the
    numbers of records differ, or the records differ as multisets of
    (content, disabled) pairs.  Hence a rearrangement of the records with
    the TTL kept never asks for an update, and the comments of the two
    record sets have no influence on the answer. *)
Theorem shouldUpdateRRset_multiset :
  (∀ m (desired existing : RRset),
     shouldUpdateRRset m desired existing = true ↔
     RRset_TTL desired ≠ RRset_TTL existing
     ∨ length (RRset_Records desired) ≠ length (RRset_Records existing)
     ∨ ¬ (recordPair <$> RRset_Records desired ≡ₚ recordPair <$> RRset_Records existing))
  ∧ (∀ m (desired existing : RRset),
     RRset_TTL desired = RRset_TTL existing →
     RRset_Records desired ≡ₚ RRset_Records existing →
     shouldUpdateRRset m desired existing = false)
  ∧ (∀ m (desired existing : RRset) (cs1 cs2 : list Comment),
     shouldUpdateRRset m (withComments desired cs1) (withComments existing cs2)
     = shouldUpdateRRset m desired existing).
Proof.
  split; [|split].
  - intros m d e. rewrite (fmap_Permutation_inj_iff recordPair).
    rewrite <-not_false_iff_true, shouldUpdateRRset_false_iff. split.
    + intros Hn. destruct (decide (RRset_TTL d = RRset_TTL e)) as [Httl|Httl];
        [|by left]. right; right. intros Hp. by apply Hn.
    + intros [Httl|[Hlen|Hp]] [E Hperm]; [done| |done].
      by rewrite Hperm in Hlen.
  - intros m d e Httl Hp. by apply shouldUpdateRRset_false_iff.
  - intros m d e cs1 cs2. reflexivity.
Qed.

End ShouldUpdate.
(** ** The two loops of [applyRRsets] as list functions *)
(** [count f l] as a counter increment. *)
Definition count {A} (f : A → bool) (l : list A) : N :=
  N.of_nat (length (filter (λ x, f x) l)).

Definition bump (r : manager.ApplyResult) (c u d : N) : manager.ApplyResult :=
  {| manager.Errors := manager.Errors r;
     manager.ZonesCreated := manager.ZonesCreated r;
     manager.RRsetsCreated := manager.RRsetsCreated r + c;
     manager.RRsetsUpdated := manager.RRsetsUpdated r + u;
     manager.RRsetsDeleted := manager.RRsetsDeleted r + d |}.

Lemma ApplyResult_eq (r1 r2 : manager.ApplyResult) :
  manager.Errors r1 = manager.Errors r2 →
  manager.ZonesCreated r1 = manager.ZonesCreated r2 →
  manager.RRsetsCreated r1 = manager.RRsetsCreated r2 →
  manager.RRsetsUpdated r1 = manager.RRsetsUpdated r2 →
  manager.RRsetsDeleted r1 = manager.RRsetsDeleted r2 → r1 = r2.
Proof. destruct r1, r2; simpl; by intros -> -> -> -> ->. Qed.

Lemma count_nil {A} (f : A → bool) : count f [] = 0.
Proof. done. Qed.

Ltac result_eq :=
  rewrite ?count_nil; apply ApplyResult_eq;
  cbn [bump manager.incCreated manager.incUpdated manager.incDeleted
       manager.incZones manager.addError manager.Errors manager.ZonesCreated
       manager.RRsetsCreated manager.RRsetsUpdated manager.RRsetsDeleted];
  first [done | lia].

Section Diff.
Import powerdns manager.
Context `{GS : GoStrings} {B U : Type}.
Implicit Types m : Manager B U.
Implicit Types D E : gmap string RRset.

(** Classification of an entry of the desired map against [existingByKey]. *)
Definition isCreate E (x : string * RRset) : bool :=
  bool_decide (E !! x.1 = None).

Definition isUpdate m E (x : string * RRset) : bool :=
  match E !! x.1 with
  | Some existing => isManaged m existing && shouldUpdateRRset m x.2 existing
  | None => false
  end.

(** Classification of an entry of [existingByKey] against the desired map. *)
Definition isOrphan m D (x : string * RRset) : bool :=
  isManaged m x.2 && bool_decide (D !! x.1 = None).

Lemma count_cons {A} (f : A → bool) x l :
  count f (x :: l) = (if f x then 1 else 0) + count f l.
Proof.
  unfold count. rewrite filter_cons. destruct (f x) eqn:E.
  - rewrite decide_True by done. simpl length. lia.
  - rewrite decide_False by (by intros ?). lia.
Qed.

Lemma count_Permutation {A} (f : A → bool) l1 l2 : l1 ≡ₚ l2 → count f l1 = count f l2.
Proof. intros Hp. unfold count. by rewrite Hp. Qed.

Lemma count_zero {A} (f : A → bool) l : count f l = 0 ↔ ∀ x, x ∈ l → f x = false.
Proof.
  induction l as [|x l IH].
  - split; [intros _ y Hy; by apply elem_of_nil in Hy|done].
  - rewrite count_cons. split.
    + intros Hc y Hy. apply elem_of_cons in Hy as [->|Hy].
      * destruct (f x); [lia|done].
      * apply IH; [|done]. destruct (f x); lia.
    + intros Hall. rewrite (Hall x) by (apply elem_of_cons; by left).
      rewrite (proj2 IH); [done|]. intros y Hy. apply Hall. apply elem_of_cons. by right.
Qed.

Lemma processDesired_step m E patch result x :
  processDesired m E (patch, result) x
  = (patch ++ (if isCreate E x || isUpdate m E x then [createRRsetPatch m x.2] else []),
     bump result (if isCreate E x then 1 else 0) (if isUpdate m E x then 1 else 0) 0).
Proof.
  destruct x as [key desired]. unfold processDesired, isCreate, isUpdate. simpl.
  destruct (E !! key) as [existing|] eqn:HE.
  - rewrite bool_decide_eq_false_2 by done. simpl.
    destruct (isManaged m existing); simpl;
      [destruct (shouldUpdateRRset m desired existing); simpl|];
      rewrite ?app_nil_r; f_equal; result_eq.
  - rewrite bool_decide_eq_true_2 by done. simpl. f_equal; result_eq.
Qed.

Lemma processOrphan_step m D patch result x :
  processOrphan m D (patch, result) x
  = (patch ++ (if isOrphan m D x then [deleteRRsetPatch x.2] else []),
     bump result 0 0 (if isOrphan m D x then 1 else 0)).
Proof.
  destruct x as [key existing]. unfold processOrphan, isOrphan. simpl.
  destruct (isManaged m existing); simpl.
  - destruct (D !! key) as [d|] eqn:HD.
    + rewrite bool_decide_eq_false_2 by done. rewrite app_nil_r. f_equal; result_eq.
    + rewrite bool_decide_eq_true_2 by done. f_equal; result_eq.
  - rewrite app_nil_r. f_equal; result_eq.
Qed.

Lemma filter_cons_bool {A} (f : A → bool) x l :
  filter (λ y, f y) (x :: l) = if f x then x :: filter (λ y, f y) l else filter (λ y, f y) l.
Proof.
  rewrite filter_cons. destruct (f x) eqn:E.
  - by rewrite decide_True.
  - by rewrite decide_False by (by intros ?).
Qed.

Lemma foldl_processDesired m E order patch result :
  foldl (processDesired m E) (patch, result) order
  = (patch ++ ((λ x, createRRsetPatch m x.2) <$>
                 filter (λ x, isCreate E x || isUpdate m E x) order),
     bump result (count (isCreate E) order) (count (isUpdate m E) order) 0).
Proof.
  revert patch result. induction order as [|x order IH]; intros patch result.
  - simpl. rewrite app_nil_r. f_equal. result_eq.
  - rewrite !count_cons, filter_cons_bool. cbn [foldl].
    rewrite processDesired_step, IH.
    destruct (isCreate E x), (isUpdate m E x); simpl;
      rewrite <-?app_assoc, ?app_nil_r; simpl; f_equal; result_eq.
Qed.

Lemma foldl_processOrphan m D order patch result :
  foldl (processOrphan m D) (patch, result) order
  = (patch ++ ((λ x, deleteRRsetPatch x.2) <$> filter (λ x, isOrphan m D x) order),
     bump result 0 0 (count (isOrphan m D) order)).
Proof.
  revert patch result. induction order as [|x order IH]; intros patch result.
  - simpl. rewrite app_nil_r. f_equal. result_eq.
  - rewrite !count_cons, filter_cons_bool. cbn [foldl].
    rewrite processOrphan_step, IH.
    destruct (isOrphan m D x); simpl;
      rewrite <-?app_assoc, ?app_nil_r; simpl; f_equal; result_eq.
Qed.

Lemma diffRRsets_spec m D E order1 order2 result :
  diffRRsets m D E order1 order2 result
  = (((λ x, createRRsetPatch m x.2) <$>
        filter (λ x, isCreate E x || isUpdate m E x) order1)
     ++ ((λ x, deleteRRsetPatch x.2) <$> filter (λ x, isOrphan m D x) order2),
     bump result (count (isCreate E) order1) (count (isUpdate m E) order1)
          (count (isOrphan m D) order2)).
Proof.
  unfold diffRRsets. rewrite foldl_processDesired, foldl_processOrphan. simpl.
  f_equal. result_eq.
Qed.

End Diff.

(** ** Keys of the two maps *)
Section Keys.
Import powerdns manager.
Context `{GS : GoStrings} {B U : Type}.
Implicit Types m : Manager B U.

Definition keyOf (rrset : RRset) : string :=
  rrsetKey (RRset_Name rrset) (RRset_Type rrset).

(** The NS record set that [buildDesiredRRsets] derives from [nameservers]. *)
Definition nsRRset m (zoneID : string) (cfg : config.Zone) : RRset :=
  {| RRset_Name := zoneID; RRset_Type := "NS"; RRset_TTL := 300;
     RRset_Records :=
       map (λ ns, {| Rec_Content := normalizeNameserver m ns zoneID;
                     Rec_Disabled := false |})
           (config.Zone_Nameservers cfg);
     RRset_ChangeType := ""; RRset_Comments := [] |}.

Lemma foldl_insert_Forall {A V} (P : string → V → Prop) (f : A → string * V)
    (l : list A) (init : gmap string V) :
  map_Forall P init →
  (∀ a, a ∈ l → P (f a).1 (f a).2) →
  map_Forall P (foldl (λ acc a, let '(k, v) := f a in <[k := v]> acc) init l).
Proof.
  revert init. induction l as [|a l IH]; intros init Hinit Hl; [done|].
  simpl. apply IH.
  - specialize (Hl a (proj2 (elem_of_cons _ _ _) (or_introl eq_refl))).
    destruct (f a) as [k v]. by apply map_Forall_insert_2.
  - intros a' Ha'. apply Hl, elem_of_cons. by right.
Qed.

Lemma indexRRsets_Forall (rrsets : list RRset) :
  map_Forall (λ k e, keyOf e = k ∧ e ∈ rrsets) (indexRRsets rrsets).
Proof.
  unfold indexRRsets.
  apply (foldl_insert_Forall (λ k e, keyOf e = k ∧ e ∈ rrsets) (λ r, (keyOf r, r))).
  - apply map_Forall_empty.
  - intros a Ha. done.
Qed.

Lemma indexRRsets_key (rrsets : list RRset) k e :
  indexRRsets rrsets !! k = Some e → keyOf e = k.
Proof. intros Hk. by apply (indexRRsets_Forall rrsets k e). Qed.

(** Every entry of the desired map is the NS record set of the zone or comes
    from a normalized record set of the configuration. *)
Lemma buildDesiredRRsets_entries m zoneID cfg state D :
  buildDesiredRRsets m zoneID cfg state = Ok D →
  ∃ rrsets, config.NormalizeRRsets cfg = Ok rrsets ∧
    map_Forall (λ k d,
        (k = rrsetKey zoneID "NS" ∧ d = nsRRset m zoneID cfg
         ∧ config.Zone_Nameservers cfg ≠ []
         ∧ config.IsManaged state || negb (config.Exists state) = true)
        ∨ ∃ r, r ∈ rrsets ∧ (k, d) = desiredFromConfig m zoneID r) D.
Proof.
  unfold buildDesiredRRsets.
  destruct (config.NormalizeRRsets cfg) as [rrsets|err]; [|done].
  intros [= <-]. exists rrsets. split; [done|].
  apply (foldl_insert_Forall _ (desiredFromConfig m zoneID)).
  - case_bool_decide as Hns; [|apply map_Forall_empty].
    destruct (config.IsManaged state || negb (config.Exists state)) eqn:Hst;
      [|apply map_Forall_empty].
    apply map_Forall_insert_2; [|apply map_Forall_empty].
    left. repeat split; try done.
    intros Hnil. rewrite Hnil in Hns. simpl in Hns. lia.
  - intros r Hr. right. exists r. split; [done|]. by destruct (desiredFromConfig _ _ _).
Qed.

Lemma buildDesiredRRsets_key m zoneID cfg state D k d :
  buildDesiredRRsets m zoneID cfg state = Ok D → D !! k = Some d → keyOf d = k.
Proof.
  intros (rrsets & _ & HD)%buildDesiredRRsets_entries Hk.
  destruct (HD k d Hk) as [(-> & -> & _)|(r & _ & [= -> ->])]; done.
Qed.

Lemma keyOf_createRRsetPatch m d : keyOf (createRRsetPatch m d) = keyOf d.
Proof. done. Qed.

Lemma keyOf_deleteRRsetPatch e : keyOf (deleteRRsetPatch e) = keyOf e.
Proof. done. Qed.

End Keys.

(** ** What the diff emits *)
Section Ops.
Import powerdns manager.
Context `{GS : GoStrings} `{MO : MapOrder} {B U : Type}.
Implicit Types m : Manager B U.
Implicit Types D E : gmap string RRset.

Lemma elem_of_range_at {V} t (mp : gmap string V) k v :
  (k, v) ∈ range_at t mp ↔ mp !! k = Some v.
Proof. rewrite (range_at_perm t V mp). apply elem_of_map_to_list. Qed.

(** The shape of an entry of the patch, for the maps [D] and [E]. *)
Definition replaceOp m D E (op : RRset) : Prop :=
  RRset_ChangeType op = "REPLACE" ∧
  ∃ d, D !! keyOf op = Some d ∧ op = createRRsetPatch m d ∧
    (E !! keyOf op = None
     ∨ ∃ e, E !! keyOf op = Some e ∧ isManaged m e = true
            ∧ shouldUpdateRRset m d e = true).

Definition deleteOp m D E (op : RRset) : Prop :=
  RRset_ChangeType op = "DELETE" ∧ D !! keyOf op = None ∧
  ∃ e, E !! keyOf op = Some e ∧ isManaged m e = true ∧ op = deleteRRsetPatch e.

Lemma diffRRsets_ops m D E t1 t2 result op :
  map_Forall (λ k d, keyOf d = k) D →
  map_Forall (λ k e, keyOf e = k) E →
  op ∈ (diffRRsets m D E (range_at t1 D) (range_at t2 E) result).1 →
  replaceOp m D E op ∨ deleteOp m D E op.
Proof.
  intros HD HE. rewrite diffRRsets_spec. simpl.
  rewrite elem_of_app, !list_elem_of_fmap.
  intros [([k d] & -> & Hin)|([k e] & -> & Hin)].
  - left. apply list_elem_of_filter in Hin as [Hc Hin].
    apply elem_of_range_at in Hin. simpl.
    assert (keyOf (createRRsetPatch m d) = k) as Hk
      by (rewrite keyOf_createRRsetPatch; by apply HD).
    split; [done|]. exists d. rewrite Hk. split; [done|]. split; [done|].
    apply orb_prop_elim in Hc as [Hc|Hc].
    + left. unfold isCreate in Hc. by apply bool_decide_unpack in Hc.
    + right. unfold isUpdate in Hc. simpl in Hc.
      destruct (E !! k) as [e|]; [|done]. exists e.
      apply andb_prop_elim in Hc as [H1 H2].
      by rewrite (Is_true_true_1 _ H1), (Is_true_true_1 _ H2).
  - right. apply list_elem_of_filter in Hin as [Hc Hin].
    apply elem_of_range_at in Hin. simpl.
    assert (keyOf (deleteRRsetPatch e) = k) as Hk
      by (rewrite keyOf_deleteRRsetPatch; by apply HE).
    unfold isOrphan in Hc. simpl in Hc.
    apply andb_prop_elim in Hc as [H1 H2]. apply bool_decide_unpack in H2.
    split; [done|]. rewrite Hk. split; [done|]. exists e.
    by rewrite (Is_true_true_1 _ H1).
Qed.

(** Conversely, the patch holds an entry for every key that is to be
    created, updated or deleted. *)
Lemma diffRRsets_complete m D E t1 t2 result :
  (∀ k d, D !! k = Some d →
     (E !! k = None ∨ ∃ e, E !! k = Some e ∧ isManaged m e = true
                           ∧ shouldUpdateRRset m d e = true) →
     createRRsetPatch m d ∈ (diffRRsets m D E (range_at t1 D) (range_at t2 E) result).1)
  ∧ (∀ k e, E !! k = Some e → isManaged m e = true → D !! k = None →
     deleteRRsetPatch e ∈ (diffRRsets m D E (range_at t1 D) (range_at t2 E) result).1).
Proof.
  rewrite diffRRsets_spec. simpl. split.
  - intros k d Hk Hc. apply elem_of_app. left.
    apply list_elem_of_fmap. exists (k, d). split; [done|].
    apply list_elem_of_filter. split; [|by apply elem_of_range_at].
    apply orb_prop_intro. unfold isCreate, isUpdate. simpl.
    destruct Hc as [->|(e & -> & -> & ->)]; [left|right]; [|done].
    by apply bool_decide_pack.
  - intros k e Hk Hm Hd. apply elem_of_app. right.
    apply list_elem_of_fmap. exists (k, e). split; [done|].
    apply list_elem_of_filter. split; [|by apply elem_of_range_at].
    unfold isOrphan. simpl. rewrite Hm. simpl. by apply bool_decide_pack.
Qed.

End Ops.

(** ** Sending the patch *)
Section SendPatch.
Import powerdns manager.
Context `{GS : GoStrings} `{MO : MapOrder} {B U : Type}.
Implicit Types m : Manager B U.
Implicit Types st : St B U.

Lemma sendPatch_empty m zoneID opts st :
  sendPatch m zoneID [] opts st = (Some None, st).
Proof. done. Qed.

Lemma sendPatch_dry_run m zoneID patch opts st :
  DryRun opts = true → sendPatch m zoneID patch opts st = (Some None, st).
Proof.
  intros Hdry. unfold sendPatch. case_decide; [done|]. by rewrite Hdry.
Qed.

Lemma sendPatch_declined m zoneID patch opts st fn u' :
  patch ≠ [] → DryRun opts = false → AutoConfirm opts = false →
  confirmFn m = Some fn → fn "Apply these changes?" (user st) = (false, u') →
  sendPatch m zoneID patch opts st
  = (Some (Some ErrAborted), mkSt (backend st) u' (calls st) (tick st)).
Proof.
  intros Hne Hdry Hauto Hfn Hno. unfold sendPatch.
  rewrite decide_False by (by destruct patch).
  rewrite Hdry, Hauto, Hfn. unfold bind, callConfirm. simpl. by rewrite Hno.
Qed.

(** Every run of [sendPatch] returns; it leaves the list of calls as it was
    or adds the one [PatchZone] call for the whole patch. *)
Lemma sendPatch_outcome m zoneID patch opts st :
  ∃ err st', sendPatch m zoneID patch opts st = (Some err, st')
    ∧ tick st' = tick st
    ∧ ((calls st' = calls st ∧ backend st' = backend st)
       ∨ (∃ answer,
            calls st' = calls st
                        ++ [CallPatchZone zoneID {| ZonePatch_RRsets := patch |} answer]
            ∧ patch ≠ [] ∧ DryRun opts = false)).
Proof.
  unfold sendPatch. case_decide as Hlen; [by eauto 10|].
  destruct (DryRun opts) eqn:Hdry; [by eauto 10|].
  assert (patch ≠ []) as Hne by (by intros ->).
  assert (∀ st0 : St B U, tick st0 = tick st → calls st0 = calls st →
            backend st0 = backend st →
    ∃ err st',
      (r ←← callPatchZone m zoneID {| ZonePatch_RRsets := patch |};;
       match r with
       | Some err => ret (Some (fmt_Errorf_w "failed to patch zone: " err))
       | None => ret None
       end) st0 = (Some err, st')
      ∧ tick st' = tick st
      ∧ ((calls st' = calls st ∧ backend st' = backend st)
         ∨ (∃ answer,
              calls st' = calls st
                          ++ [CallPatchZone zoneID {| ZonePatch_RRsets := patch |} answer]
              ∧ patch ≠ [] ∧ false = false))) as Hsend.
  { intros st0 Ht Hc Hb. unfold bind, callPatchZone.
    destruct (PatchZone _ _ _ _) as [[err|] b']; simpl;
      eexists _, _; (split; [done|]); simpl; rewrite Hc; eauto 10. }
  unfold bind at 1.
  destruct (negb (AutoConfirm opts)); [destruct (confirmFn m) as [fn|]|]; simpl.
  - unfold callConfirm. destruct (fn _ _) as [[|] u'] eqn:Hfn; simpl.
    + by apply Hsend.
    + eexists _, _. split; [done|]. simpl. eauto.
  - by apply Hsend.
  - by apply Hsend.
Qed.

Definition enterLoops (st : St B U) : St B U :=
  mkSt (backend st) (user st) (calls st) (S (S (tick st))).

(** [applyRRsets] computes the patch and the counters first and sends the
    patch last; what it returns next to the error is the result record as
    the two loops left it. *)
Lemma applyRRsets_run m zoneID cfg z state opts result st D :
  buildDesiredRRsets m zoneID cfg state = Ok D →
  let E := indexRRsets (Zone_RRsets z) in
  let dr := diffRRsets m D E (range_at (tick st) D) (range_at (S (tick st)) E) result in
  applyRRsets m zoneID cfg (Some z) state opts result st
  = let r := sendPatch m zoneID dr.1 opts (enterLoops st) in
    (option_map (λ err, (err, dr.2)) r.1, r.2).
Proof.
  intros HD. unfold applyRRsets. rewrite HD. unfold bind at 1 2, rangeM. simpl.
  unfold diffRRsets.
  destruct (foldl _ (foldl _ _ _) _) as [patch result'] eqn:Hfold. simpl.
  unfold bind, enterLoops.
  destruct (sendPatch_outcome m zoneID patch opts
              (mkSt (backend st) (user st) (calls st) (S (S (tick st)))))
    as (err & st' & -> & _). done.
Qed.

End SendPatch.

(** ** Ownership, patch entries and counters *)
Section Ownership.
Import powerdns manager.
Context `{GS : GoStrings} `{MO : MapOrder} {B U : Type}.
Implicit Types m : Manager B U.
Implicit Types st : St B U.

(** C8.  An empty patch is not sent and the call succeeds; under dry-run
    the call succeeds and leaves the state, calls included, as it was; and
    with a non-empty patch, dry-run and auto-confirm off, a confirmation
    callback that declines makes [sendPatch] return [ErrAborted], with no
    call added and the backend as it was (only the user has been asked). *)
Theorem sendPatch_guards m (zoneID : string) (patch : list RRset)
    (opts : ApplyOptions) st :
  sendPatch m zoneID [] opts st = (Some None, st)
  ∧ (DryRun opts = true → sendPatch m zoneID patch opts st = (Some None, st))
  ∧ (∀ fn u',
       patch ≠ [] → DryRun opts = false → AutoConfirm opts = false →
       confirmFn m = Some fn → fn "Apply these changes?" (user st) = (false, u') →
       sendPatch m zoneID patch opts st
       = (Some (Some ErrAborted), mkSt (backend st) u' (calls st) (tick st))).
Proof.
  split; [apply sendPatch_empty|]. split; [apply sendPatch_dry_run|].
  intros fn u'. apply sendPatch_declined.
Qed.

Definition managedComment m : Comment :=
  {| Comment_Content := "Managed by zone-manager"; Comment_Account := accountName m |}.

Lemma isManaged_createRRsetPatch m d : isManaged m (createRRsetPatch m d) = true.
Proof. unfold isManaged. simpl. by rewrite bool_decide_eq_true_2. Qed.

Lemma count_create_update m E (l : list (string * RRset)) :
  count (isCreate E) l + count (isUpdate m E) l
  = N.of_nat (length (filter (λ x, isCreate E x || isUpdate m E x) l)).
Proof.
  induction l as [|x l IH]; [done|].
  rewrite !count_cons, filter_cons_bool.
  assert (isCreate E x && isUpdate m E x = false) as Hex.
  { unfold isCreate, isUpdate. destruct (E !! x.1); [done|].
    by rewrite andb_false_r. }
  destruct (isCreate E x), (isUpdate m E x); simpl in *; try done; lia.
Qed.

Lemma filter_fmap_all {A} (P : RRset → Prop) `{∀ x, Decision (P x)}
    (f : A → RRset) (l : list A) :
  (∀ a, P (f a)) → filter P (f <$> l) = f <$> l.
Proof.
  intros HP. induction l as [|a l IH]; [done|].
  rewrite fmap_cons, filter_cons, decide_True by done. by rewrite IH.
Qed.

Lemma filter_fmap_none {A} (P : RRset → Prop) `{∀ x, Decision (P x)}
    (f : A → RRset) (l : list A) :
  (∀ a, ¬ P (f a)) → filter P (f <$> l) = [].
Proof.
  intros HP. induction l as [|a l IH]; [done|].
  rewrite fmap_cons, filter_cons, decide_False by done. by rewrite IH.
Qed.

(** C9.  Every entry of the patch is a REPLACE entry or a DELETE entry.  A
    REPLACE entry carries exactly one comment, with content "Managed by
    zone-manager" and the account name of the manager, so the ownership
    test accepts it.  The REPLACE entries are as many as the creations and
    updates counted, the DELETE entries as many as the deletions counted. *)
Theorem replace_entries_are_managed m (desiredRRsets existingByKey : gmap string RRset)
    (order1 order2 : list (string * RRset)) (result : ApplyResult) :
  let patch := (diffRRsets m desiredRRsets existingByKey order1 order2 result).1 in
  let result' := (diffRRsets m desiredRRsets existingByKey order1 order2 result).2 in
  (∀ op, op ∈ patch →
     (RRset_ChangeType op = "REPLACE"
      ∧ RRset_Comments op = [managedComment m]
      ∧ isManaged m op = true)
     ∨ (RRset_ChangeType op = "DELETE" ∧ RRset_Comments op = []))
  ∧ RRsetsCreated result' + RRsetsUpdated result'
    = RRsetsCreated result + RRsetsUpdated result
      + N.of_nat (length (filter (λ op, RRset_ChangeType op = "REPLACE") patch))
  ∧ RRsetsDeleted result'
    = RRsetsDeleted result
      + N.of_nat (length (filter (λ op, RRset_ChangeType op = "DELETE") patch)).
Proof.
  rewrite diffRRsets_spec. simpl. split; [|split].
  - intros op. rewrite elem_of_app, !list_elem_of_fmap.
    intros [(x & -> & _)|(x & -> & _)]; [left|right]; [|done].
    split; [done|]. split; [done|]. apply isManaged_createRRsetPatch.
  - rewrite filter_app, filter_fmap_all, filter_fmap_none by done.
    rewrite app_nil_r, length_fmap, <-count_create_update. lia.
  - rewrite filter_app, filter_fmap_none, filter_fmap_all by done.
    rewrite app_nil_l, length_fmap. unfold count. simpl. lia.
Qed.

(** C1.  Whatever [applyRRsets] sends to the backend, no entry of the patch
    has the key of an existing record set that is not managed.  Every entry
    is a REPLACE for a desired key that is absent from the existing map or
    whose existing record set is managed (and differs), or a DELETE of a
    managed existing record set whose key is not desired. *)
Theorem unmanaged_never_patched m (zoneID : string) (cfg : config.Zone)
    (existingZone : Zone) (state : config.ZoneState) (opts : ApplyOptions)
    (result : ApplyResult) st (desiredRRsets : gmap string RRset) :
  buildDesiredRRsets m zoneID cfg state = Ok desiredRRsets →
  let existingByKey := indexRRsets (Zone_RRsets existingZone) in
  ∃ new,
    calls (applyRRsets m zoneID cfg (Some existingZone) state opts result st).2
    = calls st ++ new
    ∧ ∀ id patch answer op,
        CallPatchZone id patch answer ∈ new → op ∈ ZonePatch_RRsets patch →
        (∀ existing, existingByKey !! keyOf op = Some existing →
                     isManaged m existing = true)
        ∧ (replaceOp m desiredRRsets existingByKey op
           ∨ deleteOp m desiredRRsets existingByKey op).
Proof.
  intros HD E. rewrite (applyRRsets_run _ _ _ _ _ _ _ _ _ HD). simpl.
  set (dr := diffRRsets _ _ _ _ _ _).
  destruct (sendPatch_outcome m zoneID dr.1 opts (enterLoops st))
    as (err & st' & Hs & _ & [[Hc _]|(ans & Hc & _)]); rewrite Hs; simpl; rewrite Hc.
  - exists []. rewrite app_nil_r. split; [done|]. intros ???? Hin.
    by apply elem_of_nil in Hin.
  - eexists. split; [done|]. intros id patch answer op Hin Hop.
    apply list_elem_of_singleton in Hin as [= -> -> ->]. simpl in Hop.
    assert (replaceOp m desiredRRsets E op ∨ deleteOp m desiredRRsets E op) as Hshape.
    { eapply diffRRsets_ops; [| |exact Hop].
      - intros k d Hk. by eapply buildDesiredRRsets_key.
      - intros k e Hk. by eapply indexRRsets_key. }
    split; [|done]. intros existing Hex.
    destruct Hshape as [(_ & d & _ & _ & [Hn|(e & He & Hm & _)])
                       |(_ & _ & e & He & Hm & _)]; congruence.
Qed.

End Ownership.

(** ** The counters are planned operations *)
Section Counters.
Import powerdns manager.
Context `{GS : GoStrings}.


Lemma isManaged_account {B1 U1 B2 U2} (m1 : Manager B1 U1) (m2 : Manager B2 U2) rrset :
  accountName m1 = accountName m2 → isManaged m1 rrset = isManaged m2 rrset.
Proof. intros Hacc. unfold isManaged. by rewrite Hacc. Qed.

(** The result record after the two loops, whatever the iteration orders. *)
Definition plannedResult {B U} (m : Manager B U) (D E : gmap string RRset)
    (result : ApplyResult) : ApplyResult :=
  bump result (count (isCreate E) (map_to_list D)) (count (isUpdate m E) (map_to_list D))
       (count (isOrphan m D) (map_to_list E)).

Lemma diffRRsets_result `{MO : MapOrder} {B U} (m : Manager B U) D E t1 t2 result :
  (diffRRsets m D E (range_at t1 D) (range_at t2 E) result).2 = plannedResult m D E result.
Proof.
  rewrite diffRRsets_spec. simpl. unfold plannedResult.
  by rewrite !(count_Permutation _ _ _ (range_at_perm _ _ _)).
Qed.


(** The result record that a run hands back, if it returns. *)
Definition resultOf {B U} (run : option (option error * ApplyResult) * St B U)
  : option ApplyResult :=
  snd <$> run.1.

Lemma applyRRsets_resultOf `{MO : MapOrder} {B U} (m : Manager B U) zoneID cfg
    existingZone state opts result (st : St B U) :
  resultOf (applyRRsets m zoneID cfg existingZone state opts result st)
  = match buildDesiredRRsets m zoneID cfg state with
    | Err _ => Some result
    | Ok D =>
        match existingZone with
        | None => None
        | Some z => Some (plannedResult m D (indexRRsets (Zone_RRsets z)) result)
        end
    end.
Proof.
  destruct (buildDesiredRRsets m zoneID cfg state) as [D|err] eqn:HD.
  - destruct existingZone as [z|].
    + rewrite (applyRRsets_run _ _ _ _ _ _ _ _ _ HD). simpl.
      destruct (sendPatch_outcome m zoneID
          (diffRRsets m D (indexRRsets (Zone_RRsets z)) (range_at (tick st) D)
             (range_at (S (tick st)) (indexRRsets (Zone_RRsets z))) result).1
          opts (enterLoops st)) as (err & st' & -> & _).
      unfold resultOf. simpl. by rewrite diffRRsets_result.
    + unfold applyRRsets. by rewrite HD.
  - unfold applyRRsets. by rewrite HD.
Qed.




End Counters.

(** ** Validation *)
Section Validation.
Import config.
Context `{GS : GoStrings}.

(** A step of the validation only adds messages, and which ones does not
    depend on the messages recorded before. *)
Definition appends (f : ValidationError → ValidationError) : Prop :=
  ∀ errs, Errors (f errs) = Errors errs ++ Errors (f {| Errors := [] |}).

Lemma appends_id : appends (λ errs, errs).
Proof. intros errs. simpl. by rewrite app_nil_r. Qed.

Lemma appends_Add msg : appends (λ errs, Add errs msg).
Proof. intros errs. done. Qed.

Lemma appends_if (b : bool) f g :
  appends f → appends g → appends (λ errs, if b then f errs else g errs).
Proof. by destruct b. Qed.

Lemma appends_compose f g : appends f → appends g → appends (λ errs, g (f errs)).
Proof.
  intros Hf Hg errs. rewrite Hg, Hf, (Hg (f _)). by rewrite app_assoc.
Qed.

Lemma compose_new f g :
  appends f → appends g →
  Errors (g (f {| Errors := [] |}))
  = Errors (f {| Errors := [] |}) ++ Errors (g {| Errors := [] |}).
Proof. intros Hf Hg. by rewrite Hg. Qed.

Lemma appends_validateRecords_from rrsetID j records :
  appends (validateRecords_from rrsetID j records).
Proof.
  revert j. induction records as [|rec records IH]; intros j; [apply appends_id|].
  simpl. apply (appends_compose (λ errs, if decide (Rec_Content rec = "") then _ else errs)).
  - case_decide; [apply appends_Add|apply appends_id].
  - apply IH.
Qed.

Lemma validateRRsets_body_seen zoneName i rrset seen errs errs' :
  (validateRRsets_body zoneName i rrset (seen, errs)).1
  = (validateRRsets_body zoneName i rrset (seen, errs')).1.
Proof.
  unfold validateRRsets_body.
  repeat (case_match; simpl; try done).
Qed.

Lemma appends_validateRRsets_body zoneName i rrset seen :
  appends (λ errs, (validateRRsets_body zoneName i rrset (seen, errs)).2).
Proof.
  intros errs. unfold validateRRsets_body.
  destruct (strings_EqualFold _ "NS"); [done|].
  destruct (strings_EqualFold _ "SOA"); [done|].
  destruct (decide (RRsetInput_Name rrset = "")),
           (decide (RRsetInput_Type rrset = "")),
           (default false _), (normalizeRecords _) as [records|err]; simpl;
    try (destruct (decide (length records = 0%nat)));
    try match goal with
        | |- Errors (validateRecords_from ?a ?b ?c ?e1)
             = _ ++ Errors (validateRecords_from _ _ _ ?e2) =>
            rewrite (appends_validateRecords_from a b c e1),
                    (appends_validateRecords_from a b c e2)
        end;
    simpl; rewrite ?app_nil_r, <-?app_assoc; done.
Qed.

Lemma validateRRsets_from_seen zoneName i rrsets seen errs errs' :
  (validateRRsets_from zoneName i rrsets (seen, errs)).1
  = (validateRRsets_from zoneName i rrsets (seen, errs')).1.
Proof.
  revert i seen errs errs'. induction rrsets as [|rrset rrsets IH]; intros; [done|].
  cbn [validateRRsets_from].
  destruct (validateRRsets_body zoneName i rrset (seen, errs)) as [s1 e1] eqn:E1.
  destruct (validateRRsets_body zoneName i rrset (seen, errs')) as [s2 e2] eqn:E2.
  pose proof (validateRRsets_body_seen zoneName i rrset seen errs errs') as Hs.
  rewrite E1, E2 in Hs. simpl in Hs. subst s2. apply IH.
Qed.

Lemma appends_validateRRsets_from zoneName i rrsets seen :
  appends (λ errs, (validateRRsets_from zoneName i rrsets (seen, errs)).2).
Proof.
  revert i seen. induction rrsets as [|rrset rrsets IH]; intros i seen;
    [apply appends_id|].
  cbn [validateRRsets_from]. intros errs.
  pose proof (appends_validateRRsets_body zoneName i rrset seen errs) as Hb.
  cbv beta in Hb.
  pose proof (validateRRsets_body_seen zoneName i rrset seen errs {| Errors := [] |}) as Hs.
  destruct (validateRRsets_body zoneName i rrset (seen, errs)) as [s1 e1].
  destruct (validateRRsets_body zoneName i rrset (seen, {| Errors := [] |})) as [s2 e2].
  cbn [fst snd] in *. subst s2.
  rewrite (IH (S i) s1 e1), (IH (S i) s1 e2), Hb. by rewrite app_assoc.
Qed.

Lemma appends_validateRRsets zoneName rrsets : appends (validateRRsets zoneName rrsets).
Proof. apply appends_validateRRsets_from. Qed.

Lemma appends_validateNameservers_from zoneName i nss :
  appends (validateNameservers_from zoneName i nss).
Proof.
  revert i. induction nss as [|ns nss IH]; intros i; [apply appends_id|].
  simpl. apply (appends_compose (λ errs, if decide (ns = "") then _ else errs)).
  - case_decide; [apply appends_Add|apply appends_id].
  - apply IH.
Qed.

(** *** The messages of one zone *)

Definition kindStep (zoneName : string) (zone : Zone) (errs : ValidationError)
  : ValidationError :=
  if decide (Zone_Kind zone ≠ "") then
    if negb (existsb (String.eqb (Zone_Kind zone)) validKinds) then
      Add errs ("zone " +:+ strconv_Quote zoneName +:+ ": invalid kind "
                +:+ strconv_Quote (Zone_Kind zone)
                +:+ ", must be one of: Native, Master, Slave, Producer, Consumer")
    else errs
  else errs.

Lemma appends_kindStep zoneName zone : appends (kindStep zoneName zone).
Proof.
  unfold kindStep. case_decide; [|apply appends_id].
  destruct (negb _); [apply appends_Add|apply appends_id].
Qed.

(** The messages that do not depend on the state of the zone. *)
Definition staticViolations (zoneName : string) (zone : Zone) : list string :=
  Errors (validateRRsets zoneName (Zone_RRsets zone)
            (kindStep zoneName zone
               (validateNameservers_from zoneName 0 (Zone_Nameservers zone)
                  {| Errors := [] |}))).

Definition needsNameservers (state : ZoneState) (zone : Zone) : bool :=
  negb (Exists state) && bool_decide (length (Zone_Nameservers zone) = 0%nat).

Definition foreignZone (state : ZoneState) : bool :=
  Exists state && negb (IsManaged state).

Definition stateOf (existingZones : gmap string ZoneState) (zoneName : string)
  : ZoneState :=
  default zeroZoneState (existingZones !! CanonicalZoneName zoneName).

Lemma validateZone_Errors zoneName zone existingZones errs :
  Errors (validateZone zoneName zone existingZones errs)
  = Errors errs
    ++ (if needsNameservers (stateOf existingZones zoneName) zone
        then [msg_nameservers_required zoneName] else [])
    ++ (if foreignZone (stateOf existingZones zoneName)
        then [msg_not_managed zoneName] else [])
    ++ staticViolations zoneName zone.
Proof.
  unfold validateZone. fold (stateOf existingZones zoneName).
  fold (needsNameservers (stateOf existingZones zoneName) zone).
  fold (foreignZone (stateOf existingZones zoneName)).
  change (if decide (Zone_Kind zone ≠ "") then _ else ?e) with (kindStep zoneName zone e).
  unfold staticViolations.
  rewrite appends_validateRRsets, appends_kindStep, appends_validateNameservers_from.
  rewrite (appends_validateRRsets _ _ (kindStep _ _ _)), (appends_kindStep _ _ (validateNameservers_from _ _ _ _)).
  destruct (needsNameservers _ _), (foreignZone _); simpl;
    rewrite ?app_nil_r, <-?app_assoc; done.
Qed.

Definition zoneViolations (zoneName : string) (zone : Zone)
    (existingZones : gmap string ZoneState) : list string :=
  Errors (validateZone zoneName zone existingZones {| Errors := [] |}).

Lemma validateZone_app zoneName zone existingZones errs :
  Errors (validateZone zoneName zone existingZones errs)
  = Errors errs ++ zoneViolations zoneName zone existingZones.
Proof. unfold zoneViolations. by rewrite !validateZone_Errors. Qed.

(** *** Telling the messages apart *)

Lemma string_app_nil_l (s : string) : "" +:+ s = s.
Proof. reflexivity. Qed.

(** A message of the zone that continues after the quoted name with
    something else than the text of the nameservers message. *)
Lemma other_message zoneName rest :
  rest ≠ ": nameservers are required when creating a new zone" →
  "zone " +:+ strconv_Quote zoneName +:+ rest ≠ msg_nameservers_required zoneName.
Proof.
  intros Hne E. unfold msg_nameservers_required in E.
  apply (inj (String.app "zone ")), (inj (String.app (strconv_Quote zoneName))) in E.
  done.
Qed.

Lemma rrset_message zoneName rest tail :
  ("zone " +:+ strconv_Quote zoneName +:+ ", rrset[" +:+ rest) +:+ tail
  ≠ msg_nameservers_required zoneName.
Proof.
  rewrite !string_app_assoc. apply other_message.
  rewrite !string_app_cons. intros E. discriminate E.
Qed.

Local Abbreviation other zoneName := (λ msg, msg ≠ msg_nameservers_required zoneName).

Lemma Forall_Add (P : string → Prop) errs msg :
  Forall P (Errors errs) → P msg → Forall P (Errors (Add errs msg)).
Proof. intros He Hm. apply Forall_app. split; [done|]. by apply Forall_singleton. Qed.

Lemma other_validateNameservers_from zoneName i nss errs :
  Forall (other zoneName) (Errors errs) →
  Forall (other zoneName) (Errors (validateNameservers_from zoneName i nss errs)).
Proof.
  revert i errs. induction nss as [|ns nss IH]; intros i errs He; [done|].
  simpl. apply IH. case_decide; [|done]. apply Forall_Add; [done|].
  apply other_message. rewrite !string_app_cons. intros E. discriminate E.
Qed.

Lemma other_kindStep zoneName zone errs :
  Forall (other zoneName) (Errors errs) →
  Forall (other zoneName) (Errors (kindStep zoneName zone errs)).
Proof.
  intros He. unfold kindStep. case_decide; [|done]. destruct (negb _); [|done].
  apply Forall_Add; [done|].
  apply other_message. rewrite !string_app_cons. intros E. discriminate E.
Qed.

Lemma other_validateRecords_from zoneName rest j records errs :
  Forall (other zoneName) (Errors errs) →
  Forall (other zoneName)
    (Errors (validateRecords_from
               ("zone " +:+ strconv_Quote zoneName +:+ ", rrset[" +:+ rest)
               j records errs)).
Proof.
  revert j errs. induction records as [|rec records IH]; intros j errs He; [done|].
  simpl. apply IH. case_decide; [|done]. apply Forall_Add; [done|].
  apply rrset_message.
Qed.

Lemma other_validateRRsets_body zoneName i rrset seen errs :
  Forall (other zoneName) (Errors errs) →
  Forall (other zoneName) (Errors (validateRRsets_body zoneName i rrset (seen, errs)).2).
Proof.
  intros He. unfold validateRRsets_body.
  destruct (strings_EqualFold _ "NS");
    [by apply Forall_Add; [|apply rrset_message]|].
  destruct (strings_EqualFold _ "SOA");
    [by apply Forall_Add; [|apply rrset_message]|].
  destruct (normalizeRecords _) as [records|err]; simpl.
  - apply other_validateRecords_from.
    repeat first [ done | case_decide | case_match
                 | apply Forall_Add; [|apply rrset_message] ].
  - repeat first [ done | case_decide | case_match
                 | apply Forall_Add; [|apply rrset_message] ].
Qed.

Lemma other_validateRRsets_from zoneName i rrsets seen errs :
  Forall (other zoneName) (Errors errs) →
  Forall (other zoneName) (Errors (validateRRsets_from zoneName i rrsets (seen, errs)).2).
Proof.
  revert i seen errs. induction rrsets as [|rrset rrsets IH]; intros i seen errs He;
    [done|].
  cbn [validateRRsets_from].
  pose proof (other_validateRRsets_body zoneName i rrset seen errs He) as Hb.
  destruct (validateRRsets_body zoneName i rrset (seen, errs)) as [s1 e1].
  by apply IH.
Qed.

Lemma other_staticViolations zoneName zone :
  Forall (other zoneName) (staticViolations zoneName zone).
Proof.
  apply other_validateRRsets_from, other_kindStep, other_validateNameservers_from.
  constructor.
Qed.

Lemma other_msg_not_managed zoneName :
  msg_not_managed zoneName ≠ msg_nameservers_required zoneName.
Proof. apply other_message. done. Qed.

(** C6.  The messages that [validateZone] adds for a zone hold the
    "nameservers are required" message exactly when the state of the zone
    says that it does not exist and no nameserver is configured; for a zone
    recorded as existing the message is never among them. *)
Theorem nameservers_required_iff (zoneName : string) (zone : Zone)
    (existingZones : gmap string ZoneState) (errs : ValidationError) :
  let state := default zeroZoneState (existingZones !! CanonicalZoneName zoneName) in
  ∃ new,
    Errors (validateZone zoneName zone existingZones errs) = Errors errs ++ new
    ∧ (msg_nameservers_required zoneName ∈ new
       ↔ Exists state = false ∧ Zone_Nameservers zone = [])
    ∧ (Exists state = true → msg_nameservers_required zoneName ∉ new).
Proof.
  intros state. eexists. split; [apply validateZone_Errors|].
  fold (stateOf existingZones zoneName) in state.
  assert (msg_nameservers_required zoneName
            ∉ (if foreignZone state then [msg_not_managed zoneName] else [])
              ++ staticViolations zoneName zone) as Hrest.
  { intros [Hin|Hin]%elem_of_app.
    - destruct (foreignZone state); [|by apply elem_of_nil in Hin].
      apply list_elem_of_singleton in Hin. symmetry in Hin.
      by apply other_msg_not_managed in Hin.
    - pose proof (other_staticViolations zoneName zone) as Hall.
      rewrite Forall_forall in Hall. by apply (Hall _ Hin). }
  assert (needsNameservers state zone = true
          ↔ Exists state = false ∧ Zone_Nameservers zone = []) as Hneeds.
  { unfold needsNameservers. rewrite andb_true_iff, negb_true_iff, bool_decide_eq_true.
    by rewrite length_zero_iff_nil. }
  fold state. destruct (needsNameservers state zone) eqn:Hn.
  - destruct (proj1 Hneeds eq_refl) as [Hex Hns]. split.
    + split; [done|]. intros _. apply elem_of_cons. by left.
    + intros Hex'. congruence.
  - split.
    + split; [by intros ?%Hrest|]. intros Hc%Hneeds. done.
    + intros _. apply Hrest.
Qed.

End Validation.

(** ** Quoting of TXT contents *)
Section TxtQuoting.
Import powerdns manager.
Context `{GS : GoStrings} {B U : Type}.
Implicit Types m : Manager B U.












End TxtQuoting.

(** ** The three steps of [Apply] *)
Section ApplySteps.
Import powerdns manager.
Context `{GS : GoStrings} `{MO : MapOrder} {B U : Type}.
Implicit Types m : Manager B U.
Implicit Types st : St B U.

Definition tickSt (st : St B U) : St B U :=
  mkSt (backend st) (user st) (calls st) (S (tick st)).

Lemma Apply_steps m cfg opts st :
  Apply m cfg opts st =
  match fetchZones m (range_at (tick st) (config.Zones cfg)) ∅ ∅ (tickSt st) with
  | (Some (Err err), st1) => (Some (Err err), st1)
  | (Some (Ok (existingZones, zoneData)), st1) =>
      match config.Validate (tick st1) cfg existingZones with
      | Some validationErr =>
          (Some (Err (ValidationErr (config.Errors validationErr))), tickSt st1)
      | None =>
          let run := applyZones m (range_at (S (tick st1)) (config.Zones cfg))
                       existingZones zoneData opts emptyResult (tickSt (tickSt st1)) in
          (Ok <$> run.1, run.2)
      end
  | (None, st1) => (None, st1)
  end.
Proof.
  unfold Apply, bind at 1 2, rangeM. simpl. fold (tickSt st).
  destruct (fetchZones _ _ _ _ _) as [[[[ez zd]|err]|] st1]; try done.
  unfold bind at 1, nextTick. simpl.
  destruct (config.Validate _ _ _); [done|].
  unfold bind, rangeM. simpl.
  destruct (applyZones _ _ _ _ _ _ _) as [[r|] st2]; done.
Qed.

Definition wrapFetch (zoneName : string) (err : error) : error :=
  fmt_Errorf_w ("failed to check zone " +:+ zoneName +:+ ": ") err.

Definition wrapZone (zoneName : string) (err : error) : error :=
  fmt_Errorf_w ("zone " +:+ zoneName +:+ ": ") err.

(** The fetch loop returns, asks the backend for nothing but zones, and when
    it fails it reports the error of a [GetZone] call for a zone of the list. *)
Lemma fetchZones_outcome m zones existingZones zoneData st :
  ∃ out st' new,
    fetchZones m zones existingZones zoneData st = (Some out, st')
    ∧ calls st' = calls st ++ new ∧ Forall (λ c, isGetZone c = true) new
    ∧ tick st' = tick st ∧ user st' = user st
    ∧ (∀ err, out = Err err →
         ∃ zoneName zc e b b',
           (zoneName, zc) ∈ zones
           ∧ GetZone (client m) (config.CanonicalZoneName zoneName) b = (Err e, b')
           ∧ err = wrapFetch zoneName e).
Proof.
  revert existingZones zoneData st.
  induction zones as [|[zoneName zc] zones IH]; intros ez zd st.
  - exists (Ok (ez, zd)), st, []. rewrite app_nil_r. by repeat split.
  - cbn [fetchZones]. unfold bind, callGetZone.
    destruct (GetZone (client m) (config.CanonicalZoneName zoneName) (backend st))
      as [r b'] eqn:Hget.
    set (st1 := mkSt b' (user st) (calls st ++ [CallGetZone _ _]) (tick st)).
    assert (∀ ez' zd',
      ∃ out st' new,
        fetchZones m zones ez' zd' st1 = (Some out, st')
        ∧ calls st' = calls st ++ new ∧ Forall (λ c, isGetZone c = true) new
        ∧ tick st' = tick st ∧ user st' = user st
        ∧ (∀ err, out = Err err →
             ∃ zoneName0 zc0 e b b0,
               (zoneName0, zc0) ∈ (zoneName, zc) :: zones
               ∧ GetZone (client m) (config.CanonicalZoneName zoneName0) b = (Err e, b0)
               ∧ err = wrapFetch zoneName0 e)) as Hrest.
    { intros ez' zd'.
      destruct (IH ez' zd' st1) as (out & st' & new & -> & Hc & Hg & Ht & Hu & He).
      exists out, st', (CallGetZone (config.CanonicalZoneName zoneName) r :: new).
      split; [done|]. split; [by rewrite Hc; simpl; rewrite <-app_assoc|].
      split; [by constructor|]. split; [done|]. split; [done|].
      intros err Herr. destruct (He err Herr) as (z0 & zc0 & e & b & b0 & Hin & Hgz & ->).
      exists z0, zc0, e, b, b0. split; [|done]. apply elem_of_cons. by right. }
    destruct r as [[zone|]|e]; simpl; [apply Hrest|apply Hrest|].
    exists (Err (wrapFetch zoneName e)), st1,
      [CallGetZone (config.CanonicalZoneName zoneName) (Err e)].
    split; [done|]. split; [done|]. split; [by repeat constructor|].
    split; [done|]. split; [done|].
    intros err [= <-]. exists zoneName, zc, e, (backend st), b'.
    split; [apply elem_of_cons; by left|done].
Qed.








Lemma applyRRsets_Errors m zoneID cfg existingZone state opts result st err result' st' :
  applyRRsets m zoneID cfg existingZone state opts result st = (Some (err, result'), st') →
  Errors result' = Errors result.
Proof.
  intros Hrun.
  pose proof (applyRRsets_resultOf m zoneID cfg existingZone state opts result st) as Hr.
  rewrite Hrun in Hr. unfold resultOf in Hr. simpl in Hr.
  destruct (buildDesiredRRsets m zoneID cfg state); [|by injection Hr as ->].
  destruct existingZone; [|done]. by injection Hr as ->.
Qed.

Lemma applyZone_Errors m zoneID cfg state existingZone opts result st err result' st' :
  applyZone m zoneID cfg state existingZone opts result st = (Some (err, result'), st') →
  Errors result' = Errors result.
Proof.
  unfold applyZone.
  destruct (negb (config.Exists state)); [|apply applyRRsets_Errors].
  destruct (negb (DryRun opts)).
  - unfold bind, callCreateZone. destruct (CreateZone _ _ _) as [[created|e] b'].
    + intros Hrun%applyRRsets_Errors. done.
    + by intros [= _ <- _].
  - intros Hrun%applyRRsets_Errors. done.
Qed.

(** Errors already recorded stay in the result. *)
Lemma applyZones_Errors m zones existingZones zoneData opts result st result' st' :
  applyZones m zones existingZones zoneData opts result st = (Some result', st') →
  ∃ more, Errors result' = Errors result ++ more.
Proof.
  revert result st. induction zones as [|[zn zc] zones IH]; intros result st.
  - intros [= <- <-]. exists []. by rewrite app_nil_r.
  - cbn [applyZones]. unfold bind.
    destruct (applyZone _ _ _ _ _ _ _ _) as [[[err r1]|] st1] eqn:Hz; [|done].
    apply applyZone_Errors in Hz. intros (more & Hm)%IH.
    destruct err as [e|]; simpl in Hm; rewrite Hm, Hz, <-?app_assoc; eauto.
Qed.


End ApplySteps.

(** ** The fetch loop against a backend whose lookups change nothing *)
Section Fetch.
Import powerdns manager.
Context `{GS : GoStrings} `{MO : MapOrder} {B U : Type}.
Implicit Types m : Manager B U.
Implicit Types st : St B U.

(** [GetZone] leaves the backend as it is. *)
Definition readOnly m : Prop := ∀ zoneID b, (GetZone (client m) zoneID b).2 = b.

Definition lookupZone m (b : B) (canonicalName : string) : Res (option Zone) :=
  (GetZone (client m) canonicalName b).1.

Definition fetchedState m (b : B) (canonicalName : string) : config.ZoneState :=
  match lookupZone m b canonicalName with
  | Ok (Some zone) =>
      {| config.Exists := true;
         config.IsManaged := bool_decide (Zone_Account zone = accountName m) |}
  | _ => {| config.Exists := false; config.IsManaged := false |}
  end.

Definition fetchedZone m (b : B) (canonicalName : string) : option Zone :=
  match lookupZone m b canonicalName with
  | Ok (Some zone) => Some zone
  | _ => None
  end.

(** The fetch loop as a function of the backend state. *)
Fixpoint fetchFold m (b : B) (zones : list (string * config.Zone))
    (existingZones : gmap string config.ZoneState) (zoneData : gmap string Zone)
  : Res (gmap string config.ZoneState * gmap string Zone) :=
  match zones with
  | [] => Ok (existingZones, zoneData)
  | (zoneName, _) :: rest =>
      let canonicalName := config.CanonicalZoneName zoneName in
      match lookupZone m b canonicalName with
      | Err err => Err (wrapFetch zoneName err)
      | Ok (Some zone) =>
          fetchFold m b rest
            (<[canonicalName := fetchedState m b canonicalName]> existingZones)
            (<[canonicalName := zone]> zoneData)
      | Ok None =>
          fetchFold m b rest
            (<[canonicalName := fetchedState m b canonicalName]> existingZones)
            zoneData
      end
  end.

Lemma fetchZones_readOnly m zones existingZones zoneData st :
  readOnly m →
  ∃ calls',
    fetchZones m zones existingZones zoneData st
    = (Some (fetchFold m (backend st) zones existingZones zoneData),
       mkSt (backend st) (user st) calls' (tick st)).
Proof.
  intros Hro. revert existingZones zoneData st.
  induction zones as [|[zn zc] zones IH]; intros ez zd st.
  - exists (calls st). by destruct st.
  - cbn [fetchZones fetchFold]. unfold bind, callGetZone, fetchedState, lookupZone.
    pose proof (Hro (config.CanonicalZoneName zn) (backend st)) as Hb.
    destruct (GetZone (client m) (config.CanonicalZoneName zn) (backend st)) as [r b'].
    simpl in Hb. subst b'. simpl.
    destruct r as [[zone|]|e]; simpl.
    + destruct (IH (<[config.CanonicalZoneName zn :=
                       {| config.Exists := true;
                          config.IsManaged :=
                            bool_decide (Zone_Account zone = accountName m) |}]> ez)
                  (<[config.CanonicalZoneName zn := zone]> zd)
                  (mkSt (backend st) (user st)
                     (calls st ++ [CallGetZone (config.CanonicalZoneName zn) (Ok (Some zone))])
                     (tick st)))
        as (calls' & ->). eauto.
    + destruct (IH (<[config.CanonicalZoneName zn :=
                       {| config.Exists := false; config.IsManaged := false |}]> ez) zd
                  (mkSt (backend st) (user st)
                     (calls st ++ [CallGetZone (config.CanonicalZoneName zn) (Ok None)])
                     (tick st)))
        as (calls' & ->). eauto.
    + eauto.
Qed.

Definition canonicalNames (zones : list (string * config.Zone)) : list string :=
  (λ x, config.CanonicalZoneName x.1) <$> zones.

(** A successful fetch: every lookup succeeded, and the two maps hold, for the
    canonical names of the list, what the lookups returned. *)
Lemma fetchFold_Ok m b zones existingZones zoneData existingZones' zoneData' :
  fetchFold m b zones existingZones zoneData = Ok (existingZones', zoneData') →
  (∀ k, k ∈ canonicalNames zones → ∃ found, lookupZone m b k = Ok found)
  ∧ (∀ k, existingZones' !! k
          = if decide (k ∈ canonicalNames zones) then Some (fetchedState m b k)
            else existingZones !! k)
  ∧ (∀ k, zoneData' !! k
          = if decide (k ∈ canonicalNames zones)
            then match fetchedZone m b k with
                 | Some zone => Some zone
                 | None => zoneData !! k
                 end
            else zoneData !! k).
Proof.
  revert existingZones zoneData.
  induction zones as [|[zn zc] zones IH]; intros ez zd.
  - intros [= <- <-]. split; [intros k Hk; by apply elem_of_nil in Hk|]. split; intros k.
    + rewrite decide_False; [done|]. intros Hk. by apply elem_of_nil in Hk.
    + rewrite decide_False; [done|]. intros Hk. by apply elem_of_nil in Hk.
  - cbn [fetchFold]. set (cn := config.CanonicalZoneName zn).
    unfold canonicalNames. rewrite fmap_cons. fold (canonicalNames zones). simpl. fold cn.
    destruct (lookupZone m b cn) as [[zone|]|e] eqn:Hl; [| |done].
    + intros (Hall & Hez & Hzd)%IH. split; [|split].
      * intros k [->|Hk]%elem_of_cons; [by eauto|by apply Hall].
      * intros k. rewrite Hez.
        destruct (decide (k ∈ canonicalNames zones)) as [Hin|Hnin].
        -- rewrite decide_True; [done|]. apply elem_of_cons. by right.
        -- destruct (decide (k = cn)) as [->|Hne].
           ++ rewrite lookup_insert_eq. rewrite decide_True; [done|].
              apply elem_of_cons. by left.
           ++ rewrite lookup_insert_ne by done. rewrite decide_False; [done|].
              intros [?|?]%elem_of_cons; done.
      * intros k. rewrite Hzd.
        destruct (decide (k ∈ canonicalNames zones)) as [Hin|Hnin].
        -- rewrite decide_True by (apply elem_of_cons; by right).
           destruct (fetchedZone m b k) as [z|] eqn:Hf; [done|].
           destruct (decide (k = cn)) as [->|Hne].
           ++ unfold fetchedZone in Hf. by rewrite Hl in Hf.
           ++ by rewrite lookup_insert_ne.
        -- destruct (decide (k = cn)) as [->|Hne].
           ++ rewrite lookup_insert_eq. rewrite decide_True by (apply elem_of_cons; by left).
              unfold fetchedZone. by rewrite Hl.
           ++ rewrite lookup_insert_ne by done. rewrite decide_False; [done|].
              intros [?|?]%elem_of_cons; done.
    + intros (Hall & Hez & Hzd)%IH. split; [|split].
      * intros k [->|Hk]%elem_of_cons; [by eauto|by apply Hall].
      * intros k. rewrite Hez.
        destruct (decide (k ∈ canonicalNames zones)) as [Hin|Hnin].
        -- rewrite decide_True; [done|]. apply elem_of_cons. by right.
        -- destruct (decide (k = cn)) as [->|Hne].
           ++ rewrite lookup_insert_eq. rewrite decide_True; [done|].
              apply elem_of_cons. by left.
           ++ rewrite lookup_insert_ne by done. rewrite decide_False; [done|].
              intros [?|?]%elem_of_cons; done.
      * intros k. rewrite Hzd.
        destruct (decide (k ∈ canonicalNames zones)) as [Hin|Hnin].
        -- by rewrite decide_True by (apply elem_of_cons; by right).
        -- destruct (decide (k = cn)) as [->|Hne].
           ++ rewrite decide_True by (apply elem_of_cons; by left).
              unfold fetchedZone. by rewrite Hl.
           ++ rewrite decide_False; [done|]. intros [?|?]%elem_of_cons; done.
Qed.

(** The fetch fails exactly when some lookup fails. *)
Lemma fetchFold_Err m b zones existingZones zoneData :
  (∃ err, fetchFold m b zones existingZones zoneData = Err err)
  ↔ ∃ k e, k ∈ canonicalNames zones ∧ lookupZone m b k = Err e.
Proof.
  revert existingZones zoneData.
  induction zones as [|[zn zc] zones IH]; intros ez zd.
  - split; [by intros [? ?]|]. intros (k & e & Hk & _). by apply elem_of_nil in Hk.
  - cbn [fetchFold]. set (cn := config.CanonicalZoneName zn).
    unfold canonicalNames. rewrite fmap_cons. fold (canonicalNames zones). simpl. fold cn.
    destruct (lookupZone m b cn) as [[zone|]|e] eqn:Hl.
    + rewrite IH. split.
      * intros (k & e & Hk & He). exists k, e. split; [|done]. apply elem_of_cons. by right.
      * intros (k & e & [->|Hk]%elem_of_cons & He); [congruence|by eauto].
    + rewrite IH. split.
      * intros (k & e & Hk & He). exists k, e. split; [|done]. apply elem_of_cons. by right.
      * intros (k & e & [->|Hk]%elem_of_cons & He); [congruence|by eauto].
    + split; [|by eauto]. intros _. exists cn, e. split; [|done]. apply elem_of_cons. by left.
Qed.


End Fetch.

(** ** Validation of the whole configuration *)
Section ValidateAll.
Import config.
Context `{GS : GoStrings}.

Lemma foldl_validateZone_Errors existingZones order errs :
  Errors (foldl (λ errs '(zoneName, zone), validateZone zoneName zone existingZones errs)
                errs order)
  = Errors errs ++ (order ≫= λ x, zoneViolations x.1 x.2 existingZones).
Proof.
  revert errs. induction order as [|[zn zc] order IH]; intros errs.
  - simpl. by rewrite app_nil_r.
  - cbn [foldl]. rewrite IH, validateZone_app. simpl. by rewrite app_assoc.
Qed.

Lemma Validate_over_None order existingZones :
  Validate_over order existingZones = None
  ↔ ∀ zoneName zone, (zoneName, zone) ∈ order →
      zoneViolations zoneName zone existingZones = [].
Proof.
  unfold Validate_over, HasErrors. rewrite foldl_validateZone_Errors. simpl.
  case_bool_decide as Hlen.
  - split; [done|]. intros Hall. exfalso.
    assert ((order ≫= λ x, zoneViolations x.1 x.2 existingZones) = []) as Hnil.
    { clear Hlen. induction order as [|[zn zc] order IH]; [done|].
      simpl. rewrite (Hall zn zc) by (apply elem_of_cons; by left). simpl.
      apply IH. intros ?? Hin. apply Hall, elem_of_cons. by right. }
    rewrite Hnil in Hlen. simpl in Hlen. lia.
  - split; [|done]. intros _ zn zc Hin.
    destruct (zoneViolations zn zc existingZones) as [|msg msgs] eqn:Hv; [done|].
    exfalso. apply Hlen.
    assert (msg ∈ order ≫= λ x, zoneViolations x.1 x.2 existingZones) as Hmsg.
    { apply list_elem_of_bind. exists (zn, zc). split; [|done]. simpl. rewrite Hv.
      apply elem_of_cons. by left. }
    destruct (order ≫= _); [by apply elem_of_nil in Hmsg|simpl; lia].
Qed.

Lemma Validate_None `{MO : MapOrder} t cfg existingZones :
  Validate t cfg existingZones = None
  ↔ ∀ zoneName zone, Zones cfg !! zoneName = Some zone →
      zoneViolations zoneName zone existingZones = [].
Proof.
  unfold Validate. rewrite Validate_over_None.
  split; intros Hall zn zc Hin; apply Hall; by apply (elem_of_range_at t).
Qed.

Lemma zoneViolations_nil zoneName zone existingZones :
  zoneViolations zoneName zone existingZones = []
  ↔ needsNameservers (stateOf existingZones zoneName) zone = false
    ∧ foreignZone (stateOf existingZones zoneName) = false
    ∧ staticViolations zoneName zone = [].
Proof.
  unfold zoneViolations. rewrite validateZone_Errors. simpl.
  destruct (needsNameservers _ _), (foreignZone _); simpl;
    (split; [try done|by intros (? & ? & ?)]).
Qed.

End ValidateAll.

(** ** Counters of a run *)

Definition Counts : Type := N * N * N * N.

Definition counters (r : manager.ApplyResult) : Counts :=
  (manager.ZonesCreated r, manager.RRsetsCreated r,
   manager.RRsetsUpdated r, manager.RRsetsDeleted r).









(** ** Dry-run against real run *)
Section DryRunParity.
Import powerdns manager.
Context `{GS : GoStrings} {B U : Type}.
Implicit Types m : Manager B U.
Implicit Types st : St B U.












Lemma counters_addError result e : counters (addError result e) = counters result.
Proof. done. Qed.







(** Under dry-run the apply loop asks nothing of the backend. *)
Lemma applyRRsets_dry_calls `{MO : MapOrder} m zoneID cfg existingZone state opts result st :
  DryRun opts = true →
  calls (applyRRsets m zoneID cfg existingZone state opts result st).2 = calls st.
Proof.
  intros Hdry. unfold applyRRsets.
  destruct (buildDesiredRRsets m zoneID cfg state) as [D|e]; [|done].
  destruct existingZone as [z|]; [|done].
  unfold bind at 1 2, rangeM. simpl.
  destruct (foldl _ (foldl _ _ _) _) as [patch result'].
  unfold bind. rewrite sendPatch_dry_run by done. done.
Qed.

Lemma applyZone_dry_calls `{MO : MapOrder} m zoneID cfg state existingZone opts result st :
  DryRun opts = true →
  calls (applyZone m zoneID cfg state existingZone opts result st).2 = calls st.
Proof.
  intros Hdry. unfold applyZone. rewrite Hdry. simpl.
  destruct (negb (config.Exists state)); by apply applyRRsets_dry_calls.
Qed.

Lemma applyZones_dry_calls `{MO : MapOrder} m zones existingZones zoneData opts result st :
  DryRun opts = true →
  calls (applyZones m zones existingZones zoneData opts result st).2 = calls st.
Proof.
  intros Hdry. revert result st. induction zones as [|[zn zc] zones IH]; intros result st;
    [done|].
  cbn [applyZones]. unfold bind.
  pose proof (applyZone_dry_calls m (config.CanonicalZoneName zn) (config.NormalizeZone zc)
    (default config.zeroZoneState (existingZones !! config.CanonicalZoneName zn))
    (zoneData !! config.CanonicalZoneName zn) opts result st Hdry) as Hz.
  destruct (applyZone _ _ _ _ _ _ _ _) as [[[err r1]|] st1]; simpl in Hz; [|done].
  by rewrite IH.
Qed.

Lemma Apply_dry_calls `{MO : MapOrder} m cfg opts st :
  DryRun opts = true →
  ∃ new, calls (Apply m cfg opts st).2 = calls st ++ new
         ∧ Forall (λ c, isGetZone c = true) new.
Proof.
  intros Hdry. rewrite Apply_steps.
  destruct (fetchZones_outcome m (range_at (tick st) (config.Zones cfg)) ∅ ∅ (tickSt st))
    as (out & st1 & new & -> & Hc & Hg & _).
  exists new. split; [|done].
  destruct out as [[ez zd]|err]; [|done].
  destruct (config.Validate _ _ _); [done|]. simpl.
  by rewrite applyZones_dry_calls.
Qed.


End DryRunParity.

(** ** Patches applied by the reference backend *)
Section Convergence.
Import powerdns manager.
Context `{GS : GoStrings} `{MO : MapOrder} {B U : Type}.
Implicit Types m : Manager B U.
Implicit Types D E : gmap string RRset.

(** The effect of one change on the record sets of a zone, by key. *)
Definition mapChange E (change : RRset) : gmap string RRset :=
  if decide (RRset_ChangeType change = "REPLACE")
  then <[keyOf change := server.stored change]> E
  else if decide (RRset_ChangeType change = "DELETE")
  then delete (keyOf change) E
  else E.

Lemma indexRRsets_snoc (rrsets : list RRset) rrset :
  indexRRsets (rrsets ++ [rrset]) = <[keyOf rrset := rrset]> (indexRRsets rrsets).
Proof. unfold indexRRsets. by rewrite foldl_app. Qed.

Lemma indexRRsets_filter (rrsets : list RRset) change :
  indexRRsets (filter (λ rrset, negb (server.sameRRset change rrset)) rrsets)
  = delete (keyOf change) (indexRRsets rrsets).
Proof.
  induction rrsets as [|rrset rrsets IH] using rev_ind.
  - unfold indexRRsets. simpl. symmetry. apply delete_empty.
  - rewrite filter_app, indexRRsets_snoc, filter_cons_bool, filter_nil.
    destruct (server.sameRRset change rrset) eqn:Hs; simpl.
    + apply bool_decide_eq_true in Hs. fold (keyOf rrset) (keyOf change) in Hs.
      rewrite app_nil_r, IH, Hs. by rewrite delete_insert_eq.
    + apply bool_decide_eq_false in Hs. fold (keyOf rrset) (keyOf change) in Hs.
      rewrite indexRRsets_snoc, IH. by rewrite delete_insert_ne.
Qed.

Lemma indexRRsets_applyChange (rrsets : list RRset) change :
  indexRRsets (server.applyChange rrsets change) = mapChange (indexRRsets rrsets) change.
Proof.
  unfold server.applyChange, mapChange.
  case_decide.
  { rewrite indexRRsets_snoc, indexRRsets_filter.
    change (keyOf (server.stored change)) with (keyOf change).
    by rewrite insert_delete_eq. }
  case_decide; [by rewrite indexRRsets_filter|done].
Qed.

Lemma indexRRsets_foldl_applyChange (rrsets changes : list RRset) :
  indexRRsets (foldl server.applyChange rrsets changes)
  = foldl mapChange (indexRRsets rrsets) changes.
Proof.
  revert rrsets. induction changes as [|change changes IH]; intros rrsets; [done|].
  simpl. by rewrite IH, indexRRsets_applyChange.
Qed.

Lemma lookup_mapChange_ne E change k :
  keyOf change ≠ k → mapChange E change !! k = E !! k.
Proof.
  intros Hne. unfold mapChange.
  case_decide; [by rewrite lookup_insert_ne|].
  case_decide; [by rewrite lookup_delete_ne|done].
Qed.

Lemma lookup_untouched E changes k :
  (∀ change, change ∈ changes → keyOf change ≠ k) →
  foldl mapChange E changes !! k = E !! k.
Proof.
  revert E. induction changes as [|change changes IH]; intros E Hall; [done|].
  simpl. rewrite IH.
  - apply lookup_mapChange_ne, Hall, elem_of_cons. by left.
  - intros c Hc. apply Hall, elem_of_cons. by right.
Qed.

Lemma lookup_replaced E changes k v :
  (∀ change, change ∈ changes → keyOf change = k →
     RRset_ChangeType change = "REPLACE" ∧ server.stored change = v) →
  E !! k = Some v ∨ (∃ change, change ∈ changes ∧ keyOf change = k) →
  foldl mapChange E changes !! k = Some v.
Proof.
  revert E. induction changes as [|change changes IH]; intros E Hall Hsome.
  - destruct Hsome as [?|(c & Hc & _)]; [done|by apply elem_of_nil in Hc].
  - simpl. apply IH.
    + intros c Hc. apply Hall, elem_of_cons. by right.
    + destruct (decide (keyOf change = k)) as [Hk|Hk].
      * left. destruct (Hall change) as [Hr Hv]; [apply elem_of_cons; by left|done|].
        unfold mapChange. rewrite decide_True by done. by rewrite Hk, Hv, lookup_insert_eq.
      * rewrite lookup_mapChange_ne by done.
        destruct Hsome as [?|(c & [->|Hc]%elem_of_cons & Hck)]; [by left|done|].
        right. eauto.
Qed.

Lemma lookup_deleted E changes k :
  (∀ change, change ∈ changes → keyOf change = k →
     RRset_ChangeType change = "DELETE") →
  E !! k = None ∨ (∃ change, change ∈ changes ∧ keyOf change = k) →
  foldl mapChange E changes !! k = None.
Proof.
  revert E. induction changes as [|change changes IH]; intros E Hall Hsome.
  - destruct Hsome as [?|(c & Hc & _)]; [done|by apply elem_of_nil in Hc].
  - simpl. apply IH.
    + intros c Hc. apply Hall, elem_of_cons. by right.
    + destruct (decide (keyOf change = k)) as [Hk|Hk].
      * left. assert (RRset_ChangeType change = "DELETE") as Hd
          by (apply Hall; [apply elem_of_cons; by left|done]).
        unfold mapChange. rewrite decide_False by (by rewrite Hd).
        rewrite decide_True by done. by rewrite Hk, lookup_delete_eq.
      * rewrite lookup_mapChange_ne by done.
        destruct Hsome as [?|(c & [->|Hc]%elem_of_cons & Hck)]; [by left|done|].
        right. eauto.
Qed.

(** The record sets [E] of a zone agree with the desired map [D]: every
    desired key is there and needs no update, and every managed record set is
    desired. *)
Definition converged m D E : Prop :=
  (∀ k d, D !! k = Some d →
     ∃ x, E !! k = Some x ∧ isManaged m x && shouldUpdateRRset m d x = false)
  ∧ (∀ k x, E !! k = Some x → isManaged m x = true → is_Some (D !! k)).

Lemma shouldUpdateRRset_stored m d :
  shouldUpdateRRset m d (server.stored (createRRsetPatch m d)) = false.
Proof. by apply shouldUpdateRRset_false_iff. Qed.

(** After the patch that the diff emits, the zone agrees with the desired map. *)
Lemma diffRRsets_converges m D E t1 t2 result :
  map_Forall (λ k d, keyOf d = k) D →
  map_Forall (λ k e, keyOf e = k) E →
  converged m D
    (foldl mapChange E (diffRRsets m D E (range_at t1 D) (range_at t2 E) result).1).
Proof.
  intros HD HE.
  set (ops := (diffRRsets m D E (range_at t1 D) (range_at t2 E) result).1).
  assert (∀ op, op ∈ ops → replaceOp m D E op ∨ deleteOp m D E op) as Hops
    by (intros op; by apply diffRRsets_ops).
  destruct (diffRRsets_complete m D E t1 t2 result) as [Hcreate Hdelete].
  fold ops in Hcreate, Hdelete.
  split.
  - intros k d Hk.
    assert (∀ op, op ∈ ops → keyOf op = k →
              RRset_ChangeType op = "REPLACE"
              ∧ server.stored op = server.stored (createRRsetPatch m d)) as Hrep.
    { intros op Hop Hkey.
      destruct (Hops op Hop) as [(Hr & d' & Hd' & -> & _)|(_ & Hn & _)].
      - split; [done|]. rewrite keyOf_createRRsetPatch in Hkey.
        rewrite keyOf_createRRsetPatch, Hkey in Hd'. congruence.
      - rewrite Hkey in Hn. congruence. }
    destruct (E !! k) as [e|] eqn:He;
      [destruct (isManaged m e && shouldUpdateRRset m d e) eqn:Hc|].
    + exists (server.stored (createRRsetPatch m d)). split.
      * apply lookup_replaced; [done|]. right. exists (createRRsetPatch m d). split.
        -- apply (Hcreate k d Hk). right. exists e. split; [done|].
           by apply andb_true_iff in Hc.
        -- rewrite keyOf_createRRsetPatch. by apply HD.
      * rewrite shouldUpdateRRset_stored. by rewrite andb_false_r.
    + exists e. split; [|done]. rewrite lookup_untouched; [done|].
      intros op Hop Hkey.
      destruct (Hops op Hop) as [(_ & d' & Hd' & -> & [Hn|(e' & He' & Hm & Hs)])
                                |(_ & Hn & _)].
      * rewrite Hkey in Hn. congruence.
      * rewrite Hkey in He'. rewrite keyOf_createRRsetPatch in Hkey.
        rewrite keyOf_createRRsetPatch, Hkey in Hd'.
        assert (e' = e) as -> by congruence. assert (d' = d) as -> by congruence.
        by rewrite Hm, Hs in Hc.
      * rewrite Hkey in Hn. congruence.
    + exists (server.stored (createRRsetPatch m d)). split.
      * apply lookup_replaced; [done|]. right. exists (createRRsetPatch m d). split.
        -- apply (Hcreate k d Hk). by left.
        -- rewrite keyOf_createRRsetPatch. by apply HD.
      * rewrite shouldUpdateRRset_stored. by rewrite andb_false_r.
  - intros k x Hx Hm.
    destruct (D !! k) as [d|] eqn:Hk; [done|]. exfalso.
    assert (∀ op, op ∈ ops → keyOf op = k → RRset_ChangeType op = "DELETE") as Hdel.
    { intros op Hop Hkey.
      destruct (Hops op Hop) as [(_ & d' & Hd' & _)|(Hd & _)]; [|done].
      rewrite Hkey in Hd'. congruence. }
    destruct (E !! k) as [e|] eqn:He; [destruct (isManaged m e) eqn:Hme|].
    + rewrite lookup_deleted in Hx; [done|done|].
      right. exists (deleteRRsetPatch e). split; [by apply (Hdelete k e)|].
      rewrite keyOf_deleteRRsetPatch. by apply HE.
    + rewrite lookup_untouched in Hx; [congruence|].
      intros op Hop Hkey.
      destruct (Hops op Hop) as [(_ & d' & Hd' & _)|(_ & _ & e' & He' & Hm' & _)].
      * rewrite Hkey in Hd'. congruence.
      * rewrite Hkey in He'. congruence.
    + rewrite lookup_untouched in Hx; [congruence|].
      intros op Hop Hkey.
      destruct (Hops op Hop) as [(_ & d' & Hd' & _)|(_ & _ & e' & He' & _)].
      * rewrite Hkey in Hd'. congruence.
      * rewrite Hkey in He'. congruence.
Qed.

Lemma filter_bool_nil {A} (f : A → bool) (l : list A) :
  (∀ x, x ∈ l → f x = false) → filter (λ x, f x) l = [].
Proof.
  intros Hall. induction l as [|x l IH]; [done|].
  rewrite filter_cons_bool, (Hall x) by (apply elem_of_cons; by left).
  apply IH. intros y Hy. apply Hall, elem_of_cons. by right.
Qed.

(** On a zone that agrees with the desired map the diff emits nothing and
    counts nothing. *)
Lemma converged_noop m D E t1 t2 result :
  converged m D E →
  diffRRsets m D E (range_at t1 D) (range_at t2 E) result = ([], result).
Proof.
  intros [Hd He]. rewrite diffRRsets_spec.
  assert (∀ x, x ∈ range_at t1 D → isCreate E x || isUpdate m E x = false) as H1.
  { intros [k d] Hin%elem_of_range_at. destruct (Hd k d Hin) as (x & Hx & Hc).
    unfold isCreate, isUpdate. simpl. rewrite Hx, Hc.
    by rewrite bool_decide_eq_false_2. }
  assert (∀ x, x ∈ range_at t2 E → isOrphan m D x = false) as H2.
  { intros [k x] Hin%elem_of_range_at. unfold isOrphan. simpl.
    destruct (isManaged m x) eqn:Hm; [|done]. simpl.
    destruct (He k x Hin Hm) as [d Hk]. by rewrite bool_decide_eq_false_2 by congruence. }
  rewrite !filter_bool_nil by done. simpl. f_equal.
  assert (count (isCreate E) (range_at t1 D) = 0) as ->.
  { apply count_zero. intros x Hx. specialize (H1 x Hx).
    by apply orb_false_iff in H1 as [? _]. }
  assert (count (isUpdate m E) (range_at t1 D) = 0) as ->.
  { apply count_zero. intros x Hx. specialize (H1 x Hx).
    by apply orb_false_iff in H1 as [_ ?]. }
  assert (count (isOrphan m D) (range_at t2 E) = 0) as -> by (by apply count_zero).
  result_eq.
Qed.

End Convergence.

(** ** Two runs against the reference backend *)
Section Idempotence.
Import powerdns manager.
Context `{GS : GoStrings} {U : Type}.
Variable initialRRsets : Zone → list RRset.

(** A manager in front of the reference backend. *)
Definition serverManager (account : string) (confirm : option (ConfirmFunc U))
  : Manager (gmap string Zone) U :=
  {| client := server.client initialRRsets; confirmFn := confirm;
     accountName := account |}.

Implicit Types m : Manager (gmap string Zone) U.
Implicit Types st : St (gmap string Zone) U.
Implicit Types b : gmap string Zone.

Lemma strings_HasSuffix_app (s suf : string) : strings_HasSuffix (s +:+ suf) suf = true.
Proof.
  induction s as [|c s IH].
  - rewrite string_app_nil_l. destruct suf as [|c suf]; [done|].
    cbn [strings_HasSuffix]. by rewrite String.eqb_refl.
  - rewrite string_app_cons. cbn [strings_HasSuffix]. rewrite IH.
    by destruct (String.eqb _ _).
Qed.

Lemma CanonicalZoneName_idem (name : string) :
  config.CanonicalZoneName (config.CanonicalZoneName name) = config.CanonicalZoneName name.
Proof.
  unfold config.CanonicalZoneName.
  destruct (strings_HasSuffix name ".") eqn:Hs; simpl.
  - by rewrite Hs.
  - by rewrite strings_HasSuffix_app.
Qed.

Lemma server_readOnly account confirm : readOnly (serverManager account confirm).
Proof. by intros zoneID b. Qed.

Lemma withRRsets_same (zone : Zone) : server.withRRsets zone (Zone_RRsets zone) = zone.
Proof. by destruct zone. Qed.

Lemma sendPatch_server `{MO : MapOrder} account confirm zoneID patch opts st st' zone :
  DryRun opts = false →
  backend st !! config.CanonicalZoneName zoneID = Some zone →
  sendPatch (serverManager account confirm) zoneID patch opts st = (Some None, st') →
  backend st'
  = <[config.CanonicalZoneName zoneID :=
        server.withRRsets zone (foldl server.applyChange (Zone_RRsets zone) patch)]>
      (backend st).
Proof.
  intros Hdry Hz. unfold sendPatch. case_decide as Hlen.
  - intros [= <-]. apply length_zero_iff_nil in Hlen. subst patch. simpl.
    by rewrite withRRsets_same, insert_id.
  - rewrite Hdry. unfold bind at 1.
    assert (∀ st0 : St (gmap string Zone) U, backend st0 = backend st →
      (r ←← callPatchZone (serverManager account confirm) zoneID
               {| ZonePatch_RRsets := patch |};;
       match r with
       | Some err => ret (Some (fmt_Errorf_w "failed to patch zone: " err))
       | None => ret None
       end) st0 = (Some None, st') →
      backend st'
      = <[config.CanonicalZoneName zoneID :=
            server.withRRsets zone (foldl server.applyChange (Zone_RRsets zone) patch)]>
          (backend st)) as Hsend.
    { intros st0 Hb. unfold bind, callPatchZone. simpl. unfold server.serverPatchZone.
      rewrite Hb, Hz. simpl. by intros [= <-]. }
    destruct (negb (AutoConfirm opts)); [destruct confirm as [fn|]|]; simpl.
    + unfold callConfirm. destruct (fn _ _) as [[|] u']; simpl; [|done].
      by apply Hsend.
    + by apply Hsend.
    + by apply Hsend.
Qed.

Lemma applyRRsets_server `{MO : MapOrder} account confirm zoneID cfg zone state opts
    result st result' st' :
  DryRun opts = false →
  config.CanonicalZoneName zoneID = zoneID →
  backend st !! zoneID = Some zone →
  applyRRsets (serverManager account confirm) zoneID cfg (Some zone) state opts result st
  = (Some (None, result'), st') →
  ∃ D zone',
    buildDesiredRRsets (serverManager account confirm) zoneID cfg state = Ok D
    ∧ backend st' = <[zoneID := zone']> (backend st)
    ∧ Zone_Account zone' = Zone_Account zone
    ∧ converged (serverManager account confirm) D (indexRRsets (Zone_RRsets zone')).
Proof.
  intros Hdry Hcanon Hz.
  destruct (buildDesiredRRsets (serverManager account confirm) zoneID cfg state)
    as [D|e] eqn:HD; [|unfold applyRRsets; by rewrite HD].
  rewrite (applyRRsets_run _ _ _ _ _ _ _ _ _ HD). simpl.
  set (ops := (diffRRsets _ D _ _ _ result).1).
  destruct (sendPatch _ zoneID ops opts (enterLoops st)) as [[[err|]|] st1] eqn:Hs;
    simpl; try done.
  intros [= <- <-].
  apply (sendPatch_server _ _ _ _ _ _ _ zone) in Hs; [|done|by rewrite Hcanon].
  rewrite Hcanon in Hs. simpl in Hs.
  eexists D, _. split; [done|]. split; [exact Hs|]. split; [done|].
  simpl. rewrite indexRRsets_foldl_applyChange. apply diffRRsets_converges.
  - intros k d Hk. by eapply buildDesiredRRsets_key.
  - intros k e Hk. by eapply indexRRsets_key.
Qed.

Definition managedZone : config.ZoneState :=
  {| config.Exists := true; config.IsManaged := true |}.

(** The state of a zone matters to the desired map only through the test
    that guards the NS record set. *)
Lemma buildDesiredRRsets_state m zoneID cfg state :
  config.IsManaged state || negb (config.Exists state) = true →
  buildDesiredRRsets m zoneID cfg state = buildDesiredRRsets m zoneID cfg managedZone.
Proof. intros Hs. unfold buildDesiredRRsets. by rewrite Hs. Qed.

Lemma converged_account {B1 U1 B2 U2} (m1 : Manager B1 U1) (m2 : Manager B2 U2) D E :
  accountName m1 = accountName m2 → converged m1 D E → converged m2 D E.
Proof.
  intros Hacc [Hd He]. split.
  - intros k d Hk. destruct (Hd k d Hk) as (x & Hx & Hc). exists x. split; [done|].
    by rewrite <-(isManaged_account m1 m2).
  - intros k x Hx Hm. apply (He k x Hx). by rewrite (isManaged_account m1 m2).
Qed.

(** What the fetch loop records for a zone that the backend holds or not. *)
Definition stateFor (account : string) (found : option Zone) : config.ZoneState :=
  match found with
  | Some zone =>
      {| config.Exists := true;
         config.IsManaged := bool_decide (Zone_Account zone = account) |}
  | None => {| config.Exists := false; config.IsManaged := false |}
  end.

(** A configured zone that the backend holds, owned by the account, in
    agreement with its desired map. *)
Definition zoneGood (account : string) b (x : string * config.Zone) : Prop :=
  ∃ zone D,
    b !! config.CanonicalZoneName x.1 = Some zone
    ∧ Zone_Account zone = account
    ∧ buildDesiredRRsets (serverManager account None) (config.CanonicalZoneName x.1)
        (config.NormalizeZone x.2) managedZone = Ok D
    ∧ converged (serverManager account None) D (indexRRsets (Zone_RRsets zone)).

Lemma applyZone_server `{MO : MapOrder} account confirm zoneID cfg opts result st
    result' st' :
  DryRun opts = false →
  config.CanonicalZoneName zoneID = zoneID →
  foreignZone (stateFor account (backend st !! zoneID)) = false →
  applyZone (serverManager account confirm) zoneID cfg
    (stateFor account (backend st !! zoneID)) (backend st !! zoneID) opts result st
  = (Some (None, result'), st') →
  ∃ zone' D,
    backend st' = <[zoneID := zone']> (backend st)
    ∧ Zone_Account zone' = account
    ∧ buildDesiredRRsets (serverManager account None) zoneID cfg managedZone = Ok D
    ∧ converged (serverManager account None) D (indexRRsets (Zone_RRsets zone')).
Proof.
  intros Hdry Hcanon Hforeign. unfold applyZone.
  destruct (backend st !! zoneID) as [zone|] eqn:Hz; simpl.
  - unfold foreignZone in Hforeign. simpl in Hforeign.
    apply negb_false_iff, bool_decide_eq_true in Hforeign.
    intros (D & zone' & HD & Hb & Hacc & Hconv)%applyRRsets_server; [|done..].
    exists zone', D. split; [done|]. split; [congruence|]. split.
    + rewrite <-HD. symmetry.
      rewrite (buildDesiredRRsets_state (serverManager account confirm)); [done|].
      simpl. by rewrite bool_decide_eq_true_2.
    + by apply (converged_account (serverManager account confirm)).
  - rewrite Hdry. simpl. unfold bind, callCreateZone. simpl.
    unfold server.serverCreateZone. simpl. rewrite Hz. simpl.
    intros (D & zone' & HD & Hb & Hacc & Hconv)%applyRRsets_server;
      [|done|done|by simpl; rewrite lookup_insert_eq].
    simpl in Hb. rewrite insert_insert_eq in Hb.
    exists zone', D. split; [done|]. split; [by rewrite Hacc|]. split.
    + rewrite <-HD. symmetry.
      by rewrite (buildDesiredRRsets_state (serverManager account confirm)).
    + by apply (converged_account (serverManager account confirm)).
Qed.

Lemma zoneGood_lookup account b b' x :
  b' !! config.CanonicalZoneName x.1 = b !! config.CanonicalZoneName x.1 →
  zoneGood account b x → zoneGood account b' x.
Proof. intros Heq (zone & D & Hz & ?). exists zone, D. by rewrite Heq. Qed.

(** The apply loop of a real run that records no error leaves every zone of
    the list in agreement with its desired map, and touches no other zone. *)
Lemma applyZones_server `{MO : MapOrder} account confirm zones existingZones zoneData
    opts result st result' st' :
  DryRun opts = false →
  NoDup (canonicalNames zones) →
  (∀ x, x ∈ zones →
     default config.zeroZoneState (existingZones !! config.CanonicalZoneName x.1)
     = stateFor account (backend st !! config.CanonicalZoneName x.1)
     ∧ zoneData !! config.CanonicalZoneName x.1
       = backend st !! config.CanonicalZoneName x.1
     ∧ foreignZone (stateFor account (backend st !! config.CanonicalZoneName x.1))
       = false) →
  applyZones (serverManager account confirm) zones existingZones zoneData opts result st
  = (Some result', st') →
  Errors result' = Errors result →
  (∀ x, x ∈ zones → zoneGood account (backend st') x)
  ∧ (∀ k, k ∉ canonicalNames zones → backend st' !! k = backend st !! k).
Proof.
  intros Hdry. revert result st.
  induction zones as [|[zn zc] zones IH]; intros result st Hnd Hpre Hrun Herrs.
  - injection Hrun as <- <-. split; [|done]. intros x Hx. by apply elem_of_nil in Hx.
  - revert Hrun. cbn [applyZones]. unfold bind.
    destruct (Hpre (zn, zc)) as (Hstate & Hdata & Hforeign); [apply elem_of_cons; by left|].
    simpl in Hstate, Hdata, Hforeign. rewrite Hstate, Hdata.
    set (cn := config.CanonicalZoneName zn) in *.
    destruct (applyZone _ cn _ _ _ _ _ _) as [[[err r1]|] st1] eqn:Hz; [|done].
    intros Hrun.
    pose proof (applyZone_Errors _ _ _ _ _ _ _ _ _ _ _ Hz) as He1.
    destruct (applyZones_Errors _ _ _ _ _ _ _ _ _ Hrun) as (more & Hmore).
    destruct err as [e|].
    { exfalso. simpl in Hmore. rewrite Hmore, He1, <-app_assoc in Herrs.
      apply (f_equal length) in Herrs. rewrite !length_app in Herrs. simpl in Herrs. lia. }
    apply applyZone_server in Hz as (zone' & D & Hb & Hacc & HD & Hconv);
      [|done|apply CanonicalZoneName_idem|done].
    unfold canonicalNames in Hnd. rewrite fmap_cons in Hnd. simpl in Hnd.
    fold (canonicalNames zones) in Hnd. fold cn in Hnd.
    apply NoDup_cons in Hnd as [Hnin Hnd].
    destruct (IH r1 st1 Hnd) as [Hgood Hother]; [|done|congruence|].
    { intros x Hx.
      assert (config.CanonicalZoneName x.1 ≠ cn) as Hne.
      { intros Heq. apply Hnin. rewrite <-Heq. unfold canonicalNames.
        apply list_elem_of_fmap. by exists x. }
      rewrite Hb, lookup_insert_ne by done. apply Hpre, elem_of_cons. by right. }
    split.
    + intros x [->|Hx]%elem_of_cons; [|by apply Hgood].
      exists zone', D. simpl. fold cn. split; [|done].
      by rewrite (Hother cn Hnin), Hb, lookup_insert_eq.
    + intros k Hk. unfold canonicalNames in Hk. rewrite fmap_cons in Hk.
      apply not_elem_of_cons in Hk as [Hne Hk]. simpl in Hne.
      rewrite (Hother k Hk), Hb. by rewrite lookup_insert_ne.
Qed.

(** On zones that agree with their desired maps the apply loop changes
    neither the result nor, up to the loops entered, the state. *)
Lemma applyZones_converged `{MO : MapOrder} account confirm zones existingZones zoneData
    opts result st :
  (∀ x, x ∈ zones →
     ∃ zone D,
       existingZones !! config.CanonicalZoneName x.1 = Some managedZone
       ∧ zoneData !! config.CanonicalZoneName x.1 = Some zone
       ∧ buildDesiredRRsets (serverManager account None) (config.CanonicalZoneName x.1)
           (config.NormalizeZone x.2) managedZone = Ok D
       ∧ converged (serverManager account None) D (indexRRsets (Zone_RRsets zone))) →
  ∃ st',
    applyZones (serverManager account confirm) zones existingZones zoneData opts result st
    = (Some result, st').
Proof.
  revert st. induction zones as [|[zn zc] zones IH]; intros st Hall; [by eexists|].
  cbn [applyZones]. unfold bind.
  destruct (Hall (zn, zc)) as (zone & D & Hez & Hzd & HD & Hconv);
    [apply elem_of_cons; by left|].
  simpl in Hez, Hzd, HD. rewrite Hez, Hzd. simpl. unfold applyZone. simpl.
  rewrite (applyRRsets_run (serverManager account confirm) _ _ zone _ _ _ _ D) by exact HD.
  simpl. rewrite converged_noop
    by (by apply (converged_account (serverManager account None))).
  simpl.
  apply IH. intros x Hx. apply Hall, elem_of_cons. by right.
Qed.

Lemma NoDup_canonicalNames `{MO : MapOrder} t (zones : gmap string config.Zone) :
  (∀ n1 n2, is_Some (zones !! n1) → is_Some (zones !! n2) →
     config.CanonicalZoneName n1 = config.CanonicalZoneName n2 → n1 = n2) →
  NoDup (canonicalNames (range_at t zones)).
Proof.
  intros Hinj. unfold canonicalNames.
  change (λ x : string * config.Zone, config.CanonicalZoneName x.1)
    with (config.CanonicalZoneName ∘ (fst : string * config.Zone → string)).
  rewrite list_fmap_compose, range_at_perm.
  apply NoDup_fmap_2_strong; [|apply NoDup_fst_map_to_list].
  intros n1 n2 Hn1 Hn2. apply Hinj.
  - apply list_elem_of_fmap in Hn1 as ([k v] & -> & Hin).
    apply elem_of_map_to_list in Hin. by eexists.
  - apply list_elem_of_fmap in Hn2 as ([k v] & -> & Hin).
    apply elem_of_map_to_list in Hin. by eexists.
Qed.

Lemma server_fetchedState account confirm b canonicalName :
  fetchedState (serverManager account confirm) b canonicalName
  = stateFor account (b !! config.CanonicalZoneName canonicalName).
Proof.
  unfold fetchedState, lookupZone, stateFor. simpl. unfold server.serverGetZone. simpl.
  by destruct (b !! config.CanonicalZoneName canonicalName).
Qed.

Lemma server_fetchedZone account confirm b canonicalName :
  fetchedZone (serverManager account confirm) b canonicalName
  = b !! config.CanonicalZoneName canonicalName.
Proof.
  unfold fetchedZone, lookupZone. simpl. unfold server.serverGetZone. simpl.
  by destruct (b !! config.CanonicalZoneName canonicalName).
Qed.

Lemma elem_of_canonicalNames `{MO : MapOrder} t (zones : gmap string config.Zone) zn zc :
  zones !! zn = Some zc →
  config.CanonicalZoneName zn ∈ canonicalNames (range_at t zones).
Proof.
  intros Hz. unfold canonicalNames. apply list_elem_of_fmap. exists (zn, zc).
  split; [done|]. by apply elem_of_range_at.
Qed.

(** C2, as the code has it, against the reference backend (whatever record
    sets it gives a new zone).  Take a configuration in which no two zone
    names have the same canonical name, and a real run (not a dry run) that
    returns a result without errors.  Then a second run from the backend
    state that the first one left, with any options, any iteration orders and
    any confirmation callback, returns a result without errors in which the
    four counters are zero. *)
Theorem second_run_changes_nothing (O1 O2 : MapOrder) (account : string)
    (confirm1 confirm2 : option (ConfirmFunc U)) (cfg : config.Config)
    (opts1 opts2 : ApplyOptions) (st1 st1' st2 : St (gmap string Zone) U)
    (result1 : ApplyResult) :
  (∀ n1 n2, is_Some (config.Zones cfg !! n1) → is_Some (config.Zones cfg !! n2) →
     config.CanonicalZoneName n1 = config.CanonicalZoneName n2 → n1 = n2) →
  DryRun opts1 = false →
  Apply (MO:=O1) (serverManager account confirm1) cfg opts1 st1
  = (Some (Ok result1), st1') →
  Errors result1 = [] →
  backend st2 = backend st1' →
  ∃ result2 st2',
    Apply (MO:=O2) (serverManager account confirm2) cfg opts2 st2
    = (Some (Ok result2), st2')
    ∧ ZonesCreated result2 = 0 ∧ RRsetsCreated result2 = 0
    ∧ RRsetsUpdated result2 = 0 ∧ RRsetsDeleted result2 = 0
    ∧ Errors result2 = [].
Proof.
  intros Hinj Hdry Hrun1 Herrs Hb.
  (* the first run, step by step *)
  rewrite Apply_steps in Hrun1.
  destruct (fetchZones_readOnly (serverManager account confirm1)
              (@range_at O1 (tick st1) _ (config.Zones cfg)) ∅ ∅ (tickSt st1)
              (server_readOnly account confirm1)) as (calls1 & Hf1).
  rewrite Hf1 in Hrun1. simpl in Hrun1.
  destruct (fetchFold _ (backend st1) _ ∅ ∅) as [[ez1 zd1]|e1] eqn:Hfetch1; [|done].
  apply fetchFold_Ok in Hfetch1 as (_ & Hez1 & Hzd1).
  destruct (config.Validate (MO:=O1) (S (tick st1)) cfg ez1) as [v1|] eqn:Hv1; [done|].
  rewrite (Validate_None (MO:=O1)) in Hv1.
  simpl in Hrun1.
  destruct (applyZones _ _ ez1 zd1 opts1 emptyResult _) as [[r1|] s1] eqn:Hloop1; [|done].
  simpl in Hrun1. injection Hrun1 as -> ->.
  apply applyZones_server in Hloop1 as [Hgood _]; [|done| | |done].
  2: { by apply NoDup_canonicalNames. }
  2: { intros [zn zc] Hx%elem_of_range_at. simpl.
       pose proof (elem_of_canonicalNames (MO:=O1) (tick st1) _ zn zc Hx) as Hcn.
       rewrite Hez1, Hzd1, !decide_True by done.
       rewrite server_fetchedState, server_fetchedZone, CanonicalZoneName_idem. simpl.
       split; [done|]. split; [by destruct (backend st1 !! _)|].
       apply Hv1, zoneViolations_nil in Hx as (_ & Hforeign & _).
       unfold stateOf in Hforeign. rewrite Hez1, decide_True in Hforeign by done.
       simpl in Hforeign.
       by rewrite server_fetchedState, CanonicalZoneName_idem in Hforeign. }
  (* the second run *)
  rewrite Apply_steps.
  destruct (fetchZones_readOnly (serverManager account confirm2)
              (@range_at O2 (tick st2) _ (config.Zones cfg)) ∅ ∅ (tickSt st2)
              (server_readOnly account confirm2)) as (calls2 & ->).
  simpl. rewrite Hb.
  destruct (fetchFold _ (backend st1') _ ∅ ∅) as [[ez2 zd2]|e2] eqn:Hfetch2.
  2: { exfalso.
       assert (∃ err, fetchFold (serverManager account confirm2) (backend st1')
                        (@range_at O2 (tick st2) _ (config.Zones cfg)) ∅ ∅ = Err err)
         as Hex by eauto.
       apply fetchFold_Err in Hex as (k & e & _ & Hl). done. }
  apply fetchFold_Ok in Hfetch2 as (_ & Hez2 & Hzd2).
  assert (∀ zn zc, config.Zones cfg !! zn = Some zc →
            ∃ zone D,
              ez2 !! config.CanonicalZoneName zn = Some managedZone
              ∧ zd2 !! config.CanonicalZoneName zn = Some zone
              ∧ buildDesiredRRsets (serverManager account None)
                  (config.CanonicalZoneName zn) (config.NormalizeZone zc) managedZone
                = Ok D
              ∧ converged (serverManager account None) D
                  (indexRRsets (Zone_RRsets zone))) as Hzones.
  { intros zn zc Hz.
    destruct (Hgood (zn, zc)) as (zone & D & Hzone & Hacc & HD & Hconv);
      [by apply elem_of_range_at|].
    simpl in Hzone, HD.
    pose proof (elem_of_canonicalNames (MO:=O2) (tick st2) _ zn zc Hz) as Hcn.
    exists zone, D.
    rewrite Hez2, Hzd2, !decide_True by done.
    rewrite server_fetchedState, server_fetchedZone, CanonicalZoneName_idem, Hzone.
    simpl. by rewrite bool_decide_eq_true_2. }
  destruct (config.Validate (MO:=O2) (S (tick st2)) cfg ez2) as [v2|] eqn:Hv2.
  { exfalso.
    assert (config.Validate (MO:=O2) (S (tick st2)) cfg ez2 = None) as Hnone; [|congruence].
    apply (Validate_None (MO:=O2)). intros zn zc Hz.
    apply zoneViolations_nil.
    destruct (Hzones zn zc Hz) as (zone & D & Hez & _).
    unfold stateOf. rewrite Hez. simpl.
    apply Hv1, zoneViolations_nil in Hz as (_ & _ & Hstatic). done. }
  simpl.
  edestruct (applyZones_converged (MO:=O2) account confirm2) as (st2' & ->).
  { intros [zn zc] Hx%elem_of_range_at. by apply Hzones. }
  simpl. by eexists _, _.
Qed.

End Idempotence.

(** * More of the code *)

(** ** Records of the configuration *)
Section ConfigRecords.
Import config.
Context `{GS : GoStrings}.

(** A record given by its content alone. *)
Definition plainRecord (s : string) : Rec :=
  {| Rec_Content := s; Rec_Comment := ""; Rec_Disabled := false |}.

(** The value of a key of a record object: the string (the boolean) it
    holds, or the zero value when the key is absent. *)
Definition stringField (m : gmap string YAML) (key value : string) : Prop :=
  m !! key = Some (YString value) ∨ (m !! key = None ∧ value = "").

Definition boolField (m : gmap string YAML) (key : string) (value : bool) : Prop :=
  m !! key = Some (YBool value) ∨ (m !! key = None ∧ value = false).

Definition notString (m : gmap string YAML) (key : string) : Prop :=
  ∃ v, m !! key = Some v ∧ ∀ s, v ≠ YString s.

Definition notBool (m : gmap string YAML) (key : string) : Prop :=
  ∃ v, m !! key = Some v ∧ ∀ b, v ≠ YBool b.

Lemma notString_iff m key :
  notString m key ↔ match m !! key with Some (YString _) | None => False | _ => True end.
Proof.
  unfold notString. destruct (m !! key) as [v|].
  - destruct v; split; (try done); try (intros _; eexists; split; [done|]; intros ?; discriminate).
    intros (v & [= <-] & Hv). by apply (Hv s).
  - split; [|done]. by intros (v & Hv & _).
Qed.

Lemma notBool_iff m key :
  notBool m key ↔ match m !! key with Some (YBool _) | None => False | _ => True end.
Proof.
  unfold notBool. destruct (m !! key) as [v|].
  - destruct v; split; (try done); try (intros _; eexists; split; [done|]; intros ?; discriminate).
    intros (v & [= <-] & Hv). by apply (Hv b).
  - split; [|done]. by intros (v & Hv & _).
Qed.

Lemma stringField_iff m key value :
  stringField m key value
  ↔ match m !! key with Some (YString s) => value = s | None => value = "" | _ => False end.
Proof.
  unfold stringField. destruct (m !! key) as [v|]; [destruct v|]; intuition congruence.
Qed.

Lemma boolField_iff m key value :
  boolField m key value
  ↔ match m !! key with Some (YBool b) => value = b | None => value = false | _ => False end.
Proof.
  unfold boolField. destruct (m !! key) as [v|]; [destruct v|]; intuition congruence.
Qed.

Lemma parseRecordMap_cases (m : gmap string YAML) :
  (∀ rec, parseRecordMap m = Ok rec
          ↔ stringField m "content" (Rec_Content rec)
            ∧ boolField m "disabled" (Rec_Disabled rec)
            ∧ stringField m "comment" (Rec_Comment rec))
  ∧ (∀ err, parseRecordMap m = Err err
            ↔ (notString m "content" ∧ err = errors_New "content must be a string")
              ∨ (¬ notString m "content" ∧ notBool m "disabled"
                 ∧ err = errors_New "disabled must be a boolean")
              ∨ (¬ notString m "content" ∧ ¬ notBool m "disabled"
                 ∧ notString m "comment" ∧ err = errors_New "comment must be a string")).
Proof.
  split.
  - intros [c k d]. rewrite !stringField_iff, boolField_iff. unfold parseRecordMap. simpl.
    destruct (m !! "content") as [[]|]; try (by simpl; intuition (try congruence));
      (destruct (m !! "disabled") as [[]|]; try (by simpl; intuition (try congruence));
       (destruct (m !! "comment") as [[]|]; try (by simpl; intuition (try congruence)))).
  - intros err. rewrite !notString_iff, notBool_iff. unfold parseRecordMap.
    destruct (m !! "content") as [[]|]; try (by simpl; intuition (try congruence));
      (destruct (m !! "disabled") as [[]|]; try (by simpl; intuition (try congruence));
       (destruct (m !! "comment") as [[]|]; try (by simpl; intuition (try congruence)))).

Qed.

(** X1.  [parseRecordMap] succeeds exactly when each of the three keys is absent
    or holds a value of its type; absent keys give the zero value and any
    other key is ignored.  When it fails, the error is the one of the first
    ill-typed key in the order content, disabled, comment. *)
Theorem parseRecordMap_fields (m : gmap string YAML) :
  (∀ rec, parseRecordMap m = Ok rec
          ↔ stringField m "content" (Rec_Content rec)
            ∧ boolField m "disabled" (Rec_Disabled rec)
            ∧ stringField m "comment" (Rec_Comment rec))
  ∧ (∀ err, parseRecordMap m = Err err
            ↔ (notString m "content" ∧ err = errors_New "content must be a string")
              ∨ (¬ notString m "content" ∧ notBool m "disabled"
                 ∧ err = errors_New "disabled must be a boolean")
              ∨ (¬ notString m "content" ∧ ¬ notBool m "disabled"
                 ∧ notString m "comment" ∧ err = errors_New "comment must be a string")).
Proof. apply parseRecordMap_cases. Qed.

(** What one item of a list of records stands for. *)
Definition itemRecord (item : YAML) (rec : Rec) : Prop :=
  match item with
  | YString s => rec = plainRecord s
  | YMap m => parseRecordMap m = Ok rec
  | _ => False
  end.

(** The error reported for the item at index [i]. *)
Definition itemError (i : nat) (item : YAML) (err : error) : Prop :=
  match item with
  | YString _ => False
  | YMap m =>
      ∃ e, parseRecordMap m = Err e
           ∧ err = fmt_Errorf_w ("record[" +:+ pretty i +:+ "]: ") e
  | _ => err = errors_New ("record[" +:+ pretty i +:+ "]: unsupported type " +:+ fmt_T item)
  end.

Lemma normalizeRecordsList_from_Ok i items records out :
  normalizeRecordsList_from i items records = Ok out
  ↔ ∃ new, out = records ++ new ∧ Forall2 itemRecord items new.
Proof.
  revert i records. induction items as [|item items IH]; intros i records.
  - simpl. split.
    + intros [= <-]. exists []. by rewrite app_nil_r.
    + intros (new & -> & ->%Forall2_nil_inv_l). by rewrite app_nil_r.
  - cbn [normalizeRecordsList_from].
    assert (∀ rec,
      normalizeRecordsList_from (S i) items (records ++ [rec]) = Ok out
      ↔ ∃ new, out = records ++ rec :: new ∧ Forall2 itemRecord items new) as Hstep.
    { intros rec. rewrite IH. split; intros (new & -> & Hall); exists new;
        by rewrite <-app_assoc. }
    destruct item as [| s | b | l | m | t]; simpl.
    + split; [done|]. intros (new & _ & Hall). by inversion Hall.
    + rewrite Hstep. split.
      * intros (new & -> & Hall). exists (plainRecord s :: new). split; [done|].
        by constructor.
      * intros (new & -> & Hall). inversion Hall as [|? rec ? new' Hrec Hall']; subst.
        simpl in Hrec. subst rec. by exists new'.
    + split; [done|]. intros (new & _ & Hall). by inversion Hall.
    + split; [done|]. intros (new & _ & Hall). by inversion Hall.
    + destruct (parseRecordMap m) as [rec|e] eqn:Hp.
      * rewrite Hstep. split.
        -- intros (new & -> & Hall). exists (rec :: new). split; [done|]. by constructor.
        -- intros (new & -> & Hall). inversion Hall as [|? rec' ? new' Hrec Hall']; subst.
           simpl in Hrec. rewrite Hp in Hrec. injection Hrec as <-. by exists new'.
      * split; [done|]. intros (new & _ & Hall).
        inversion Hall as [|? rec' ? new' Hrec Hall']; subst. simpl in Hrec. congruence.
    + split; [done|]. intros (new & _ & Hall). by inversion Hall.
Qed.

Lemma normalizeRecords_YList (items : list YAML) (records : list Rec) :
  normalizeRecords (YList items) = Ok records ↔ Forall2 itemRecord items records.
Proof.
  simpl. unfold normalizeRecordsList. rewrite normalizeRecordsList_from_Ok. simpl.
  split; [by intros (new & -> & Hall)|]. intros Hall. by exists records.
Qed.

(** X2.  A list of records is normalized item by item, in order: a string gives a
    record with that content, an object gives the record [parseRecordMap]
    reads from it, and the result has one record per item. *)
Theorem normalizeRecords_list (items : list YAML) (records : list Rec) :
  normalizeRecords (YList items) = Ok records ↔ Forall2 itemRecord items records.
Proof. apply normalizeRecords_YList. Qed.

Lemma normalizeRecordsList_from_Err k items records err :
  normalizeRecordsList_from k items records = Err err
  ↔ ∃ i item good,
      items !! i = Some item ∧ Forall2 itemRecord (take i items) good
      ∧ itemError (k + i) item err.
Proof.
  revert k records. induction items as [|item items IH]; intros k records.
  - simpl. split; [done|]. by intros (i & item & good & Hi & _).
  - cbn [normalizeRecordsList_from].
    assert (∀ rec, itemRecord item rec →
      (∃ i item0 good,
         items !! i = Some item0 ∧ Forall2 itemRecord (take i items) good
         ∧ itemError (S k + i) item0 err)
      ↔ (∃ i item0 good,
           (item :: items) !! i = Some item0
           ∧ Forall2 itemRecord (take i (item :: items)) good
           ∧ itemError (k + i) item0 err)) as Hshift.
    { intros rec Hrec. split.
      - intros (i & item0 & good & Hi & Hgood & He).
        exists (S i), item0, (rec :: good). split; [done|]. split; [by constructor|].
        by replace (k + S i)%nat with (S k + i)%nat by lia.
      - intros (i & item0 & good & Hi & Hgood & He). destruct i as [|i].
        + simpl in Hi. injection Hi as <-. replace (k + 0)%nat with k in He by lia.
          destruct item; simpl in Hrec, He; try done.
          destruct He as (e & He & _). congruence.
        + simpl in Hi, Hgood. inversion Hgood as [|? ? ? good' _ Hgood']; subst.
          exists i, item0, good'. split; [done|]. split; [done|].
          by replace (S k + i)%nat with (k + S i)%nat by lia. }
    assert (∀ e, itemError k item e →
      (∃ i item0 good,
         (item :: items) !! i = Some item0
         ∧ Forall2 itemRecord (take i (item :: items)) good
         ∧ itemError (k + i) item0 err) ↔ e = err) as Hhere.
    { intros e He. split.
      - intros (i & item0 & good & Hi & Hgood & He'). destruct i as [|i].
        + simpl in Hi. injection Hi as <-. replace (k + 0)%nat with k in He' by lia.
          destruct item; simpl in He, He'; try done; try congruence.
          destruct He as (e1 & H1 & ->), He' as (e2 & H2 & ->). congruence.
        + simpl in Hgood. inversion Hgood as [|? rec ? ? Hrec _]; subst.
          destruct item; simpl in He, Hrec; try done.
          destruct He as (e1 & H1 & _). congruence.
      - intros <-. exists 0%nat, item, []. split; [done|]. split; [constructor|].
        by replace (k + 0)%nat with k by lia. }
    destruct item as [| s | b | l | m | t]; simpl.
    + rewrite (Hhere _ eq_refl). split; [by intros [= <-]|by intros <-].
    + rewrite IH. by apply (Hshift (plainRecord s)).
    + rewrite (Hhere _ eq_refl). split; [by intros [= <-]|by intros <-].
    + rewrite (Hhere _ eq_refl). split; [by intros [= <-]|by intros <-].
    + destruct (parseRecordMap m) as [rec|e] eqn:Hp.
      * rewrite IH. apply (Hshift rec). done.
      * rewrite (Hhere (fmt_Errorf_w ("record[" +:+ pretty k +:+ "]: ") e)).
        -- split; [by intros [= <-]|by intros <-].
        -- simpl. by exists e.
    + rewrite (Hhere _ eq_refl). split; [by intros [= <-]|by intros <-].
Qed.

(** X3.  When a list of records is refused, the error is that of the first item
    that is neither a string nor a well-formed object, and it names the
    index of that item. *)
Theorem normalizeRecordsList_first_error (items : list YAML) (err : error) :
  normalizeRecords (YList items) = Err err
  ↔ ∃ i item good,
      items !! i = Some item ∧ Forall2 itemRecord (take i items) good
      ∧ itemError i item err.
Proof. simpl. unfold normalizeRecordsList. by rewrite normalizeRecordsList_from_Err. Qed.

(** X4.  The four ways of writing one record with its content alone give the
    same normalized list. *)
Theorem normalizeRecords_forms (s : string) :
  normalizeRecords (YString s) = Ok [plainRecord s]
  ∧ normalizeRecords (YList [YString s]) = Ok [plainRecord s]
  ∧ normalizeRecords (YMap {[ "content" := YString s ]}) = Ok [plainRecord s]
  ∧ normalizeRecords (YList [YMap {[ "content" := YString s ]}]) = Ok [plainRecord s].
Proof.
  assert (parseRecordMap {[ "content" := YString s ]} = Ok (plainRecord s)) as Hp.
  { apply parseRecordMap_cases. unfold stringField, boolField. simpl.
    rewrite lookup_singleton_eq, !lookup_singleton_ne by done. naive_solver. }
  split; [done|]. split; [done|]. split.
  - simpl. by rewrite Hp.
  - apply normalizeRecords_YList. by repeat constructor.
Qed.

(** What [NormalizeRRsets] makes of one record set of the configuration. *)
Definition normalizedFrom (input : RRsetInput) (out : RRset) : Prop :=
  RRset_Name out = RRsetInput_Name input
  ∧ RRset_Type out = strings_ToUpper (RRsetInput_Type input)
  ∧ RRset_TTL out = default 300 (RRsetInput_TTL input)
  ∧ RRset_Comment out = RRsetInput_Comment input
  ∧ normalizeRecords (RRsetInput_Records input) = Ok (RRset_Records out).

Lemma NormalizeRRsets_loop_Ok inputs rrsets out :
  NormalizeRRsets_loop inputs rrsets = Ok out
  ↔ ∃ new, out = rrsets ++ new ∧ Forall2 normalizedFrom inputs new.
Proof.
  revert rrsets. induction inputs as [|input inputs IH]; intros rrsets.
  - simpl. split.
    + intros [= <-]. exists []. by rewrite app_nil_r.
    + intros (new & -> & ->%Forall2_nil_inv_l). by rewrite app_nil_r.
  - cbn [NormalizeRRsets_loop].
    destruct (normalizeRecords (RRsetInput_Records input)) as [records|e] eqn:Hn.
    + rewrite IH. split.
      * intros (new & -> & Hall). eexists (_ :: new). rewrite <-app_assoc. split; [done|].
        constructor; [|done]. unfold normalizedFrom. simpl.
        by destruct (RRsetInput_TTL input).
      * intros (new & -> & Hall). inversion Hall as [|? r ? new' Hr Hall']; subst.
        exists new'. rewrite <-app_assoc. split; [|done]. simpl. do 2 f_equal.
        destruct Hr as (Hname & Htype & Httl & Hcomment & Hrec), r. simpl in *.
        rewrite Hn in Hrec. injection Hrec as <-. subst.
        by destruct (RRsetInput_TTL input).
    + split; [done|]. intros (new & _ & Hall).
      inversion Hall as [|? r ? new' Hr Hall']; subst.
      destruct Hr as (_ & _ & _ & _ & Hrec). congruence.
Qed.

Lemma NormalizeRRsets_cases (z : Zone) :
  (∀ rrsets, NormalizeRRsets z = Ok rrsets ↔ Forall2 normalizedFrom (Zone_RRsets z) rrsets)
  ∧ ((∃ err, NormalizeRRsets z = Err err)
     ↔ ∃ input err, input ∈ Zone_RRsets z
                    ∧ normalizeRecords (RRsetInput_Records input) = Err err).
Proof.
  split.
  - intros rrsets. unfold NormalizeRRsets. rewrite NormalizeRRsets_loop_Ok. simpl.
    split; [by intros (new & -> & Hall)|]. intros Hall. by exists rrsets.
  - unfold NormalizeRRsets. generalize (@nil RRset).
    induction (Zone_RRsets z) as [|input inputs IH]; intros rrsets.
    + simpl. split; [by intros [? ?]|]. intros (input & err & Hin & _).
      by apply elem_of_nil in Hin.
    + cbn [NormalizeRRsets_loop].
      destruct (normalizeRecords (RRsetInput_Records input)) as [records|e] eqn:Hn.
      * rewrite IH. split.
        -- intros (i & err & Hin & He). exists i, err. split; [|done].
           apply elem_of_cons. by right.
        -- intros (i & err & [->|Hin]%elem_of_cons & He); [congruence|by eauto].
      * split; [|by eauto]. intros _. exists input, e. split; [|done].
        apply elem_of_cons. by left.
Qed.

(** X5.  [NormalizeRRsets] keeps the record sets in order, one for one: the name
    and the comment are copied, the type is put in upper case, a missing TTL
    becomes 300 and the records are normalized; it fails as soon as the
    records of one record set cannot be normalized. *)
Theorem NormalizeRRsets_Forall2 (z : Zone) :
  (∀ rrsets, NormalizeRRsets z = Ok rrsets ↔ Forall2 normalizedFrom (Zone_RRsets z) rrsets)
  ∧ ((∃ err, NormalizeRRsets z = Err err)
     ↔ ∃ input err, input ∈ Zone_RRsets z
                    ∧ normalizeRecords (RRsetInput_Records input) = Err err).
Proof. apply NormalizeRRsets_cases. Qed.

End ConfigRecords.

(** ** What a configuration that passes validation looks like *)
Section ValidationSound.
Import config.
Context `{GS : GoStrings}.

(** The key under which [validateRRsets] remembers a record set. *)
Definition inputKey (rrset : RRsetInput) : string :=
  strings_ToLower (RRsetInput_Name rrset) +:+ "/" +:+ strings_ToUpper (RRsetInput_Type rrset).

(** A record set of the configuration against which nothing is held. *)
Definition rrsetInputOk (rrset : RRsetInput) : Prop :=
  strings_EqualFold (RRsetInput_Type rrset) "NS" = false
  ∧ strings_EqualFold (RRsetInput_Type rrset) "SOA" = false
  ∧ RRsetInput_Name rrset ≠ "" ∧ RRsetInput_Type rrset ≠ ""
  ∧ ∃ records, normalizeRecords (RRsetInput_Records rrset) = Ok records
               ∧ records ≠ [] ∧ Forall (λ rec, Rec_Content rec ≠ "") records.

Definition noErrors : ValidationError := {| Errors := [] |}.

Lemma clean_validateRecords_from rrsetID j records :
  Errors (validateRecords_from rrsetID j records noErrors) = []
  ↔ Forall (λ rec, Rec_Content rec ≠ "") records.
Proof.
  revert j. induction records as [|rec records IH]; intros j; [done|].
  cbn [validateRecords_from]. rewrite appends_validateRecords_from.
  rewrite Forall_cons, <-(IH (S j)). fold noErrors.
  case_decide as Hc; simpl; [split; [done|by intros [? _]]|].
  split; [done|by intros [_ ?]].
Qed.

Lemma clean_validateNameservers_from zoneName i nss :
  Errors (validateNameservers_from zoneName i nss noErrors) = []
  ↔ Forall (λ ns, ns ≠ "") nss.
Proof.
  revert i. induction nss as [|ns nss IH]; intros i; [done|].
  cbn [validateNameservers_from]. rewrite appends_validateNameservers_from.
  rewrite Forall_cons, <-(IH (S i)). fold noErrors.
  case_decide as Hc; simpl; [split; [done|by intros [? _]]|].
  split; [done|by intros [_ ?]].
Qed.

Lemma existsb_eqb_elem_of (s : string) (l : list string) :
  existsb (String.eqb s) l = true ↔ s ∈ l.
Proof.
  induction l as [|x l IH]; simpl.
  - split; [done|]. by intros ?%elem_of_nil.
  - rewrite orb_true_iff, IH, elem_of_cons, String.eqb_eq. done.
Qed.

Lemma clean_kindStep zoneName zone :
  Errors (kindStep zoneName zone noErrors) = []
  ↔ Zone_Kind zone = "" ∨ Zone_Kind zone ∈ validKinds.
Proof.
  unfold kindStep. case_decide as Hk.
  - destruct (existsb _ _) eqn:He; simpl.
    + apply existsb_eqb_elem_of in He. split; [by right|done].
    + split; [done|]. intros [?|Hin]; [done|].
      apply existsb_eqb_elem_of in Hin. congruence.
  - split; [by left|done].
Qed.

(** One iteration of the loop over the record sets adds no message exactly
    when the record set is in order and its key has not been seen; the key
    is then remembered. *)
Lemma clean_validateRRsets_body zoneName i rrset seen :
  Errors (validateRRsets_body zoneName i rrset (seen, noErrors)).2 = []
  ↔ rrsetInputOk rrset ∧ default false (seen !! inputKey rrset) = false.
Proof.
  unfold validateRRsets_body, rrsetInputOk. fold (inputKey rrset).
  destruct (strings_EqualFold _ "NS"); [split; [done|by intros [[? _] _]]|].
  destruct (strings_EqualFold _ "SOA"); [split; [done|by intros [(_ & ? & _) _]]|].
  destruct (decide (RRsetInput_Name rrset = "")) as [Hn|Hn].
  { split; [|by intros [(_ & _ & ? & _) _]].
    repeat case_match; simpl; try done;
      try rewrite appends_validateRecords_from; simpl; by repeat case_match. }
  destruct (decide (RRsetInput_Type rrset = "")) as [Ht|Ht].
  { split; [|by intros [(_ & _ & _ & ? & _) _]].
    repeat case_match; simpl; try done;
      try rewrite appends_validateRecords_from; simpl; by repeat case_match. }
  destruct (default false (seen !! inputKey rrset)) eqn:Hseen.
  { split; [|by intros [_ ?]].
    repeat case_match; simpl; try done;
      try rewrite appends_validateRecords_from; simpl; by repeat case_match. }
  destruct (normalizeRecords _) as [records|err]; simpl.
  - case_decide as Hlen.
    + apply length_zero_iff_nil in Hlen. subst records. simpl. split; [done|].
      intros [(_ & _ & _ & _ & records & [= <-] & ? & _) _]. done.
    + fold noErrors. rewrite clean_validateRecords_from. split.
      * intros Hall. split; [|done]. repeat split; try done. exists records.
        split; [done|]. split; [|done]. intros ->. done.
      * intros [(_ & _ & _ & _ & records' & [= <-] & _ & Hall) _]. done.
  - split; [done|]. by intros [(_ & _ & _ & _ & records & ? & _) _].
Qed.

Lemma seen_validateRRsets_body zoneName i rrset seen errs :
  rrsetInputOk rrset →
  (validateRRsets_body zoneName i rrset (seen, errs)).1 = <[inputKey rrset := true]> seen.
Proof.
  intros (Hns & Hsoa & _ & _ & records & Hrec & _).
  unfold validateRRsets_body. fold (inputKey rrset). rewrite Hns, Hsoa, Hrec. done.
Qed.

Lemma clean_validateRRsets_from zoneName i rrsets seen :
  Errors (validateRRsets_from zoneName i rrsets (seen, noErrors)).2 = []
  ↔ Forall rrsetInputOk rrsets ∧ NoDup (inputKey <$> rrsets)
    ∧ ∀ rrset, rrset ∈ rrsets → default false (seen !! inputKey rrset) = false.
Proof.
  revert i seen. induction rrsets as [|rrset rrsets IH]; intros i seen.
  - simpl. split; [|done]. intros _. split; [done|]. split; [constructor|].
    by intros ? ?%elem_of_nil.
  - cbn [validateRRsets_from].
    pose proof (clean_validateRRsets_body zoneName i rrset seen) as Hbody.
    pose proof (λ Hok, seen_validateRRsets_body zoneName i rrset seen noErrors Hok) as Hseen.
    destruct (validateRRsets_body zoneName i rrset (seen, noErrors)) as [seen1 errs1].
    cbn [fst snd] in *.
    rewrite (appends_validateRRsets_from zoneName (S i) rrsets seen1 errs1).
    fold noErrors. rewrite fmap_cons, NoDup_cons, Forall_cons. split.
    + intros [He1 Hrest]%app_eq_nil.
      apply Hbody in He1 as [Hok Hnew]. rewrite (Hseen Hok) in Hrest.
      apply IH in Hrest as (Hall & Hnd & Hfresh).
      split; [done|]. split; [split; [|done]|].
      * intros (other & Hkey & Hin)%list_elem_of_fmap.
        specialize (Hfresh other Hin). by rewrite <-Hkey, lookup_insert_eq in Hfresh.
      * intros r [->|Hin]%elem_of_cons; [done|].
        specialize (Hfresh r Hin).
        destruct (decide (inputKey r = inputKey rrset)) as [Heq|Hne].
        -- by rewrite Heq, lookup_insert_eq in Hfresh.
        -- by rewrite lookup_insert_ne in Hfresh.
    + intros ([Hok Hall] & [Hnin Hnd] & Hfresh).
      assert (Errors errs1 = []) as ->.
      { apply Hbody. split; [done|]. apply Hfresh, elem_of_cons. by left. }
      simpl. rewrite (Hseen Hok). apply IH. split; [done|]. split; [done|].
      intros r Hin. rewrite lookup_insert_ne.
      * apply Hfresh, elem_of_cons. by right.
      * intros Heq. apply Hnin, list_elem_of_fmap. by exists r.
Qed.

Lemma clean_staticViolations zoneName zone :
  staticViolations zoneName zone = []
  ↔ Forall (λ ns, ns ≠ "") (Zone_Nameservers zone)
    ∧ (Zone_Kind zone = "" ∨ Zone_Kind zone ∈ validKinds)
    ∧ Forall rrsetInputOk (Zone_RRsets zone)
    ∧ NoDup (inputKey <$> Zone_RRsets zone).
Proof.
  unfold staticViolations.
  rewrite appends_validateRRsets, appends_kindStep. fold noErrors.
  rewrite <-clean_validateNameservers_from, <-clean_kindStep.
  unfold validateRRsets.
  pose proof (clean_validateRRsets_from zoneName 0 (Zone_RRsets zone) ∅) as Hrr.
  split.
  - intros [[Hns Hk]%app_eq_nil Hr]%app_eq_nil. apply Hrr in Hr as (? & ? & _). done.
  - intros (Hns & Hk & Hok & Hnd). rewrite Hns, Hk. simpl. apply Hrr.
    split; [done|]. split; [done|]. intros r _. by rewrite lookup_empty.
Qed.

Lemma clean_validateZone (zoneName : string) (zone : Zone)
    (existingZones : gmap string ZoneState) (errs : ValidationError) :
  let state := default zeroZoneState (existingZones !! CanonicalZoneName zoneName) in
  Errors (validateZone zoneName zone existingZones errs) = Errors errs
  ↔ (Exists state = true ∨ Zone_Nameservers zone ≠ [])
    ∧ (Exists state = true → IsManaged state = true)
    ∧ Forall (λ ns, ns ≠ "") (Zone_Nameservers zone)
    ∧ (Zone_Kind zone = "" ∨ Zone_Kind zone ∈ validKinds)
    ∧ Forall rrsetInputOk (Zone_RRsets zone)
    ∧ NoDup (inputKey <$> Zone_RRsets zone).
Proof.
  intros state. rewrite validateZone_Errors. fold (stateOf existingZones zoneName).
  change (stateOf existingZones zoneName) with state.
  rewrite <-clean_staticViolations.
  unfold needsNameservers, foreignZone.
  rewrite <-(app_nil_r (Errors errs)) at 2.
  destruct (Exists state), (IsManaged state),
    (Zone_Nameservers zone) as [|ns nss] eqn:Hns; cbn [negb andb length];
    rewrite ?bool_decide_eq_true_2, ?bool_decide_eq_false_2 by done;
    (split; [intros Heq%app_inv_head; cbn [app] in Heq; try discriminate Heq
            |intros (Hex & Hm & ->)]).
  - split; [by left|done].
  - done.
  - split; [by left|done].
  - done.
  - by specialize (Hm eq_refl).
  - by specialize (Hm eq_refl).
  - by destruct Hex.
  - split; [by right|done].
  - done.
  - by destruct Hex.
  - split; [by right|done].
  - done.
Qed.

(** X6.  [validateZone] adds no message for a zone exactly when: the zone exists
    or nameservers are configured; the zone, if it exists, is managed; no
    nameserver is empty; the kind is empty or one of the five kinds; every
    record set has a name, a type that is not NS or SOA, and at least one
    record, all with a content; and no two record sets have the same
    lower-cased name and upper-cased type. *)
Theorem validateZone_clean_iff (zoneName : string) (zone : Zone)
    (existingZones : gmap string ZoneState) (errs : ValidationError) :
  let state := default zeroZoneState (existingZones !! CanonicalZoneName zoneName) in
  Errors (validateZone zoneName zone existingZones errs) = Errors errs
  ↔ (Exists state = true ∨ Zone_Nameservers zone ≠ [])
    ∧ (Exists state = true → IsManaged state = true)
    ∧ Forall (λ ns, ns ≠ "") (Zone_Nameservers zone)
    ∧ (Zone_Kind zone = "" ∨ Zone_Kind zone ∈ validKinds)
    ∧ Forall rrsetInputOk (Zone_RRsets zone)
    ∧ NoDup (inputKey <$> Zone_RRsets zone).
Proof. apply clean_validateZone. Qed.

Lemma clean_zone_normalizes (zoneName : string) (zone : Zone)
    (existingZones : gmap string ZoneState) (errs : ValidationError) :
  Errors (validateZone zoneName zone existingZones errs) = Errors errs →
  ∃ rrsets,
    NormalizeRRsets (NormalizeZone zone) = Ok rrsets
    ∧ length rrsets = length (Zone_RRsets zone)
    ∧ Forall (λ rrset, RRset_Name rrset ≠ "" ∧ RRset_Records rrset ≠ []
                       ∧ Forall (λ rec, Rec_Content rec ≠ "") (RRset_Records rrset))
             rrsets
    ∧ Zone_Kind (NormalizeZone zone) ∈ validKinds.
Proof.
  intros (_ & _ & _ & Hkind & Hok & _)%clean_validateZone.
  assert (Zone_RRsets (NormalizeZone zone) = Zone_RRsets zone) as Hsame.
  { unfold NormalizeZone. by case_decide. }
  destruct (NormalizeRRsets (NormalizeZone zone)) as [rrsets|err] eqn:Hn.
  - exists rrsets. split; [done|].
    apply NormalizeRRsets_cases in Hn. rewrite Hsame in Hn.
    split; [symmetry; by eapply Forall2_length|]. split.
    + clear Hsame Hkind. induction Hn as [|input out inputs outs Hio _ IH]; [done|].
      apply Forall_cons in Hok as [Hin Hok]. constructor; [|by apply IH].
      destruct Hio as (Hname & _ & _ & _ & Hrec).
      destruct Hin as (_ & _ & Hne & _ & records & Hrec' & Hnil & Hall).
      rewrite Hrec in Hrec'. injection Hrec' as <-. by rewrite Hname.
    + unfold NormalizeZone. case_decide as Hk; simpl.
      * apply elem_of_cons. by left.
      * by destruct Hkind.
  - exfalso.
    assert (∃ e, NormalizeRRsets (NormalizeZone zone) = Err e) as He by eauto.
    apply NormalizeRRsets_cases in He as (input & e & Hin & He).
    rewrite Hsame in Hin. rewrite Forall_forall in Hok.
    destruct (Hok input Hin) as (_ & _ & _ & _ & records & Hrec & _). congruence.
Qed.

(** X7.  A zone against which validation holds nothing can be normalized: its
    record sets normalize, each to a non-empty list of records with
    non-empty contents. *)
Theorem validated_zone_normalizes (zoneName : string) (zone : Zone)
    (existingZones : gmap string ZoneState) (errs : ValidationError) :
  Errors (validateZone zoneName zone existingZones errs) = Errors errs →
  ∃ rrsets,
    NormalizeRRsets (NormalizeZone zone) = Ok rrsets
    ∧ length rrsets = length (Zone_RRsets zone)
    ∧ Forall (λ rrset, RRset_Name rrset ≠ "" ∧ RRset_Records rrset ≠ []
                       ∧ Forall (λ rec, Rec_Content rec ≠ "") (RRset_Records rrset))
             rrsets
    ∧ Zone_Kind (NormalizeZone zone) ∈ validKinds.
Proof. apply clean_zone_normalizes. Qed.

End ValidationSound.

(** ** The report of [Validate] *)
Section ValidateReport.
Import config.
Context `{GS : GoStrings}.

(** The messages of all the zones of a configuration, zone by zone in the
    order of [map_to_list]. *)
Definition allViolations (c : Config) (existingZones : gmap string ZoneState)
  : list string :=
  map_to_list (Zones c) ≫= λ x, zoneViolations x.1 x.2 existingZones.

(** X8.  Whatever the order in which [Validate] ranges over the zones, it returns
    [nil] exactly when no zone has a violation, and otherwise an error that
    holds every message of every zone once; it never returns an error
    without messages. *)
Theorem Validate_reports_all (O : MapOrder) (t : nat) (c : Config)
    (existingZones : gmap string ZoneState) :
  match Validate (MO:=O) t c existingZones with
  | Some e => Errors e ≠ [] ∧ Errors e ≡ₚ allViolations c existingZones
  | None => allViolations c existingZones = []
  end.
Proof.
  unfold Validate, Validate_over, HasErrors, allViolations.
  pose proof (foldl_validateZone_Errors existingZones
                (@range_at O t _ (Zones c)) {| Errors := [] |}) as He.
  simpl in He.
  assert ((@range_at O t _ (Zones c) ≫= λ x, zoneViolations x.1 x.2 existingZones)
          ≡ₚ (map_to_list (Zones c) ≫= λ x, zoneViolations x.1 x.2 existingZones)) as Hp.
  { by rewrite (@range_at_perm O). }
  case_bool_decide as Hlen.
  - split; [intros Hnil; rewrite Hnil in Hlen; simpl in Hlen; lia|].
    by rewrite He, Hp.
  - symmetry. apply Permutation_nil_l. rewrite <-Hp, <-He.
    destruct (Errors _); [done|simpl in Hlen; lia].
Qed.

(** X9.  [CanonicalZoneName] gives a name that ends with a dot and that it leaves
    as it is; two names get the same canonical name exactly when they are
    equal or one is the other followed by a dot. *)
Theorem CanonicalZoneName_collisions (a b : string) :
  strings_HasSuffix (CanonicalZoneName a) "." = true
  ∧ CanonicalZoneName (CanonicalZoneName a) = CanonicalZoneName a
  ∧ (CanonicalZoneName a = CanonicalZoneName b
     ↔ a = b
       ∨ (a = b +:+ "." ∧ strings_HasSuffix b "." = false)
       ∨ (b = a +:+ "." ∧ strings_HasSuffix a "." = false)).
Proof.
  assert (∀ s, strings_HasSuffix (CanonicalZoneName s) "." = true) as Hdot.
  { intros s. unfold CanonicalZoneName.
    destruct (strings_HasSuffix s ".") eqn:Hs; simpl; [done|apply strings_HasSuffix_app]. }
  split; [apply Hdot|]. split.
  { unfold CanonicalZoneName at 1. by rewrite Hdot. }
  unfold CanonicalZoneName.
  destruct (strings_HasSuffix a ".") eqn:Ha, (strings_HasSuffix b ".") eqn:Hb; simpl.
  - split; [by left|]. intros [?|[[_ ?]|[_ ?]]]; done.
  - split; [intros ->; right; by left|].
    intros [->|[[? _]|[_ ?]]]; [congruence|done|done].
  - split; [intros <-; right; by right|].
    intros [->|[[_ ?]|[? _]]]; [congruence|done|done].
  - split.
    + intros [-> _]%string_app_inj_2; [by left|done].
    + intros [->|[[-> _]|[-> _]]]; [done| |].
      * by rewrite strings_HasSuffix_app in Ha.
      * by rewrite strings_HasSuffix_app in Hb.
Qed.

End ValidateReport.

(** ** The calls of a run *)
Section Trace.
Import powerdns manager.
Context `{GS : GoStrings} `{MO : MapOrder} {B U : Type}.
Implicit Types m : Manager B U.
Implicit Types st : St B U.

(** The zone that [applyZone] asks the backend to create. *)
Definition zoneToCreate m (zoneID : string) (zoneConfig : config.Zone) : Zone :=
  {| Zone_ID := ""; Zone_Name := zoneID; Zone_Type := "";
     Zone_Kind := config.Zone_Kind zoneConfig;
     Zone_Account := accountName m;
     Zone_Masters := [];
     Zone_Nameservers :=
       normalizeNameservers m (config.Zone_Nameservers zoneConfig) zoneID;
     Zone_RRsets := [] |}.

(** The zone that stands for a zone to be created in a dry run. *)
Definition mockZone (zoneID : string) : Zone :=
  {| Zone_ID := ""; Zone_Name := zoneID; Zone_Type := ""; Zone_Kind := "";
     Zone_Account := ""; Zone_Masters := []; Zone_Nameservers := [];
     Zone_RRsets := [] |}.

(** The confirmation callback is there, it is consulted, and it says no
    whatever it is asked. *)
Definition declines m (opts : ApplyOptions) : Prop :=
  AutoConfirm opts = false
  ∧ ∃ fn, confirmFn m = Some fn ∧ ∀ prompt u, (fn prompt u).1 = false.

(** The confirmation callback is not consulted. *)
Definition quiet m (opts : ApplyOptions) : Prop :=
  DryRun opts = true ∨ AutoConfirm opts = true ∨ confirmFn m = None.

Definition createdOk (c : Call) : bool :=
  match c with
  | CallCreateZone _ (Ok _) => true
  | _ => false
  end.

Definition isPatchZone (c : Call) : bool :=
  match c with
  | CallPatchZone _ _ _ => true
  | _ => false
  end.

(** The calls made for one zone: at most one [CreateZone], for a zone taken
    as absent in a real run, then at most one [PatchZone], with a patch
    that is not empty, in a real run that the user has not declined. *)
Definition zoneCalls m (opts : ApplyOptions) (zoneID : string) (cfg : config.Zone)
    (state : config.ZoneState) (new : list Call) : Prop :=
  ∃ creates patches,
    new = creates ++ patches
    ∧ (creates = []
       ∨ ∃ answer,
           creates = [CallCreateZone (zoneToCreate m zoneID cfg) answer]
           ∧ config.Exists state = false ∧ DryRun opts = false)
    ∧ (patches = []
       ∨ ∃ patch answer,
           patches = [CallPatchZone zoneID {| ZonePatch_RRsets := patch |} answer]
           ∧ patch ≠ [] ∧ DryRun opts = false ∧ ¬ declines m opts).

(** The zones counted as created for one zone. *)
Definition zonesCreatedBy (opts : ApplyOptions) (state : config.ZoneState)
    (new : list Call) : N :=
  if config.Exists state then 0
  else if DryRun opts then 1
  else count createdOk new.

(** Where the error of one zone comes from. *)
Definition zoneError m (opts : ApplyOptions) (zoneID : string) (cfg : config.Zone)
    (state : config.ZoneState) (new : list Call) (e : error) : Prop :=
  (∃ zone e0, CallCreateZone zone (Err e0) ∈ new
              ∧ e = fmt_Errorf_w "failed to create zone: " e0)
  ∨ (∃ patch e0, CallPatchZone zoneID patch (Some e0) ∈ new
                 ∧ e = fmt_Errorf_w "failed to patch zone: " e0)
  ∨ (e = ErrAborted ∧ DryRun opts = false ∧ AutoConfirm opts = false
     ∧ is_Some (confirmFn m))
  ∨ buildDesiredRRsets m zoneID cfg state = Err e.

Lemma applyZone_unfold m zoneID cfg state existingZone opts result st :
  applyZone m zoneID cfg state existingZone opts result st
  = if config.Exists state
    then applyRRsets m zoneID cfg existingZone state opts result st
    else if DryRun opts
    then applyRRsets m zoneID cfg (Some (mockZone zoneID)) state opts (incZones result) st
    else
      let answer := CreateZone (client m) (zoneToCreate m zoneID cfg) (backend st) in
      let st1 := mkSt answer.2 (user st)
                   (calls st ++ [CallCreateZone (zoneToCreate m zoneID cfg) answer.1])
                   (tick st) in
      match answer.1 with
      | Err err => (Some (Some (fmt_Errorf_w "failed to create zone: " err), result), st1)
      | Ok created => applyRRsets m zoneID cfg created state opts (incZones result) st1
      end.
Proof.
  unfold applyZone. destruct (config.Exists state); simpl; [done|].
  destruct (DryRun opts); simpl; [done|].
  unfold bind, callCreateZone. fold (zoneToCreate m zoneID cfg).
  destruct (CreateZone _ _ _) as [[created|err] b]; done.
Qed.

Lemma applyRRsets_unfold m zoneID cfg existingZone state opts result st :
  applyRRsets m zoneID cfg existingZone state opts result st
  = match buildDesiredRRsets m zoneID cfg state with
    | Err err => (Some (Some err, result), st)
    | Ok D =>
        match existingZone with
        | None => (None, st)
        | Some z =>
            let E := indexRRsets (Zone_RRsets z) in
            let dr := diffRRsets m D E (range_at (tick st) D)
                        (range_at (S (tick st)) E) result in
            let r := sendPatch m zoneID dr.1 opts (enterLoops st) in
            (option_map (λ err, (err, dr.2)) r.1, r.2)
        end
    end.
Proof.
  destruct (buildDesiredRRsets m zoneID cfg state) as [D|err] eqn:HD.
  - destruct existingZone as [z|].
    + by apply applyRRsets_run.
    + unfold applyRRsets. by rewrite HD.
  - unfold applyRRsets. by rewrite HD.
Qed.

(** What [sendPatch] does, case by case. *)
Lemma sendPatch_cases m zoneID patch opts st :
  ∃ err st',
    sendPatch m zoneID patch opts st = (Some err, st') ∧ tick st' = tick st
    ∧ (quiet m opts → user st' = user st)
    ∧ ((calls st' = calls st ∧ backend st' = backend st
        ∧ (err = None
           ∨ (err = Some ErrAborted ∧ DryRun opts = false ∧ AutoConfirm opts = false
              ∧ is_Some (confirmFn m))))
       ∨ (∃ answer,
            calls st' = calls st
                        ++ [CallPatchZone zoneID {| ZonePatch_RRsets := patch |} answer]
            ∧ patch ≠ [] ∧ DryRun opts = false ∧ ¬ declines m opts
            ∧ err = fmt_Errorf_w "failed to patch zone: " <$> answer
            ∧ PatchZone (client m) zoneID {| ZonePatch_RRsets := patch |} (backend st)
              = (answer, backend st'))).
Proof.
  unfold sendPatch, quiet. case_decide as Hlen.
  { exists None, st. repeat split; try done. left. by repeat split; [..|left]. }
  destruct (DryRun opts) eqn:Hdry.
  { exists None, st. repeat split; try done. left. by repeat split; [..|left]. }
  assert (patch ≠ []) as Hne by (by intros ->).
  assert (∀ u', ¬ declines m opts →
    ∃ err st',
      (r ←← callPatchZone m zoneID {| ZonePatch_RRsets := patch |};;
       match r with
       | Some err => ret (Some (fmt_Errorf_w "failed to patch zone: " err))
       | None => ret None
       end) (mkSt (backend st) u' (calls st) (tick st)) = (Some err, st')
      ∧ tick st' = tick st ∧ user st' = u'
      ∧ ∃ answer,
          calls st' = calls st
                      ++ [CallPatchZone zoneID {| ZonePatch_RRsets := patch |} answer]
          ∧ patch ≠ [] ∧ false = false ∧ ¬ declines m opts
          ∧ err = fmt_Errorf_w "failed to patch zone: " <$> answer
          ∧ PatchZone (client m) zoneID {| ZonePatch_RRsets := patch |} (backend st)
            = (answer, backend st')) as Hsend.
  { intros u' Hdec. unfold bind, callPatchZone. simpl.
    destruct (PatchZone _ _ _ _) as [[err|] b'] eqn:Hp; simpl.
    - eexists _, _. split; [done|]. split; [done|]. split; [done|].
      exists (Some err). by repeat split.
    - eexists _, _. split; [done|]. split; [done|]. split; [done|].
      exists None. by repeat split. }
  unfold bind at 1.
  destruct (AutoConfirm opts) eqn:Hauto; simpl.
  - destruct (Hsend (user st)) as (err & st' & Hrun & Ht & Hu & Hpatch).
    { intros [? _]. congruence. }
    replace (mkSt (backend st) (user st) (calls st) (tick st)) with st in Hrun
      by (by destruct st).
    exists err, st'. split; [done|]. split; [done|]. split; [done|]. by right.
  - destruct (confirmFn m) as [fn|] eqn:Hfn; simpl.
    + unfold callConfirm. destruct (fn _ _) as [[|] u'] eqn:Hask; simpl.
      * destruct (Hsend u') as (err & st' & Hrun & Ht & Hu & Hpatch).
        { intros (_ & fn' & Hfn' & Hno). rewrite Hfn in Hfn'. injection Hfn' as <-.
          specialize (Hno "Apply these changes?" (user st)). by rewrite Hask in Hno. }
        exists err, st'. split; [done|]. split; [done|].
        split; [by intros [?|[?|?]]|]. by right.
      * eexists _, _. split; [done|]. split; [done|].
        split; [by intros [?|[?|?]]|]. left. simpl. split; [done|]. split; [done|].
        right. by repeat split.
    + destruct (Hsend (user st)) as (err & st' & Hrun & Ht & Hu & Hpatch).
      { intros (_ & fn' & ? & _). congruence. }
      replace (mkSt (backend st) (user st) (calls st) (tick st)) with st in Hrun
        by (by destruct st).
      exists err, st'. split; [done|]. split; [done|]. split; [done|]. by right.
Qed.

(** The patch entries of one zone. *)
Definition patchCalls m (opts : ApplyOptions) (zoneID : string) (patches : list Call)
  : Prop :=
  patches = []
  ∨ ∃ patch answer,
      patches = [CallPatchZone zoneID {| ZonePatch_RRsets := patch |} answer]
      ∧ patch ≠ [] ∧ DryRun opts = false ∧ ¬ declines m opts.

Lemma applyRRsets_summary m zoneID cfg existingZone state opts result st :
  ∃ out st' patches,
    applyRRsets m zoneID cfg existingZone state opts result st = (out, st')
    ∧ calls st' = calls st ++ patches
    ∧ patchCalls m opts zoneID patches
    ∧ (quiet m opts → user st' = user st)
    ∧ match out with
      | Some (err, result') =>
          Errors result' = Errors result
          ∧ ZonesCreated result' = ZonesCreated result
          ∧ ∀ e, err = Some e →
              (∃ patch e0, CallPatchZone zoneID patch (Some e0) ∈ patches
                           ∧ e = fmt_Errorf_w "failed to patch zone: " e0)
              ∨ (e = ErrAborted ∧ DryRun opts = false ∧ AutoConfirm opts = false
                 ∧ is_Some (confirmFn m))
              ∨ buildDesiredRRsets m zoneID cfg state = Err e
      | None => existingZone = None
      end.
Proof.
  rewrite applyRRsets_unfold.
  destruct (buildDesiredRRsets m zoneID cfg state) as [D|err] eqn:HD.
  - destruct existingZone as [z|].
    + cbv zeta. rewrite diffRRsets_spec. cbn [fst snd].
      set (patch := _ ++ _).
      destruct (sendPatch_cases m zoneID patch opts (enterLoops st))
        as (err & st' & -> & Ht & Hu & Hcases).
      exists (Some (err, bump result (count (isCreate (indexRRsets (Zone_RRsets z)))
                                        (range_at (tick st) D))
                          (count (isUpdate m (indexRRsets (Zone_RRsets z)))
                                 (range_at (tick st) D))
                          (count (isOrphan m D)
                                 (range_at (S (tick st)) (indexRRsets (Zone_RRsets z)))))),
        st'.
      destruct Hcases as [(Hc & _ & He)|(answer & Hc & Hne & Hdry & Hdec & He & _)].
      * exists []. split; [done|]. split; [by rewrite Hc, app_nil_r|].
        split; [by left|]. split; [done|]. split; [done|]. split; [done|].
        intros e ->. destruct He as [?|([= ->] & ? & ? & ?)]; [done|]. right. by left.
      * eexists. split; [done|]. split; [exact Hc|].
        split; [right; by exists patch, answer|].
        split; [done|]. split; [done|]. split; [done|].
        intros e ->. left. destruct answer as [e0|]; [|done].
        injection He as ->. exists {| ZonePatch_RRsets := patch |}, e0.
        split; [|done]. by apply list_elem_of_singleton.
    + exists None, st, []. rewrite app_nil_r. split; [done|]. split; [done|].
      split; [by left|]. done.
  - exists (Some (Some err, result)), st, []. rewrite app_nil_r.
    split; [done|]. split; [done|]. split; [by left|]. split; [done|].
    split; [done|]. split; [done|]. intros e [= <-]. by right; right.
Qed.

Lemma count_createdOk_patch m opts zoneID patches :
  patchCalls m opts zoneID patches → count createdOk patches = 0.
Proof. by intros [->|(patch & answer & -> & _)]. Qed.

(** What [applyZone] does for one zone. *)
Lemma applyZone_summary m zoneID cfg state existingZone opts result st :
  ∃ out st' new,
    applyZone m zoneID cfg state existingZone opts result st = (out, st')
    ∧ calls st' = calls st ++ new
    ∧ zoneCalls m opts zoneID cfg state new
    ∧ (quiet m opts → user st' = user st)
    ∧ match out with
      | Some (err, result') =>
          Errors result' = Errors result
          ∧ ZonesCreated result' = ZonesCreated result + zonesCreatedBy opts state new
          ∧ ∀ e, err = Some e → zoneError m opts zoneID cfg state new e
      | None =>
          (config.Exists state = true ∧ existingZone = None)
          ∨ ∃ b, (CreateZone (client m) (zoneToCreate m zoneID cfg) b).1 = Ok None
      end.
Proof.
  rewrite applyZone_unfold. unfold zoneCalls, zonesCreatedBy, zoneError.
  destruct (config.Exists state) eqn:Hex.
  { destruct (applyRRsets_summary m zoneID cfg existingZone state opts result st)
      as (out & st' & patches & -> & Hc & Hp & Hu & Hout).
    exists out, st', patches. split; [done|]. split; [done|].
    split; [exists [], patches; split; [done|]; split; [by left|done]|]. split; [done|].
    destruct out as [[err result']|]; [|by left].
    destruct Hout as (He & Hz & Herr). split; [done|]. split; [by rewrite Hz, N.add_0_r|].
    intros e ->. right. by apply Herr. }
  destruct (DryRun opts) eqn:Hdry.
  { destruct (applyRRsets_summary m zoneID cfg (Some (mockZone zoneID)) state opts
                (incZones result) st)
      as (out & st' & patches & -> & Hc & Hp & Hu & Hout).
    assert (patches = []) as ->.
    { destruct Hp as [?|(? & ? & _ & _ & ? & _)]; [done|congruence]. }
    exists out, st', []. split; [done|]. split; [done|].
    split; [exists [], []; split; [done|]; split; by left|]. split; [done|].
    destruct out as [[err result']|]; [|done].
    destruct Hout as (He & Hz & Herr). split; [done|]. split; [by rewrite Hz|].
    intros e ->. right. specialize (Herr e eq_refl). by rewrite Hdry in Herr. }
  cbv zeta.
  destruct (CreateZone (client m) (zoneToCreate m zoneID cfg) (backend st))
    as [answer b] eqn:Hcreate. cbn [fst snd].
  set (call := CallCreateZone (zoneToCreate m zoneID cfg) answer).
  destruct answer as [created|err].
  - destruct (applyRRsets_summary m zoneID cfg created state opts (incZones result)
                (mkSt b (user st) (calls st ++ [call]) (tick st)))
      as (out & st' & patches & -> & Hc & Hp & Hu & Hout).
    pose proof Hp as Hp'. unfold patchCalls in Hp'. rewrite Hdry in Hp'.
    exists out, st', ([call] ++ patches). split; [done|].
    split; [by rewrite Hc; simpl; rewrite <-app_assoc|].
    split.
    { exists [call], patches. split; [done|]. split; [|done]. right.
      by exists (Ok created). }
    split; [done|].
    destruct out as [[err result']|].
    + destruct Hout as (He & Hz & Herr). split; [done|]. split.
      * rewrite Hz. cbn [incZones ZonesCreated app].
        rewrite count_cons. cbn [createdOk call].
        by rewrite (count_createdOk_patch m opts zoneID patches Hp), N.add_0_r.
      * intros e ->. destruct (Herr e eq_refl) as [(patch & e0 & Hin & ->)|Hrest].
        -- right. left. exists patch, e0. split; [|done]. apply elem_of_app. by right.
        -- right. right. rewrite Hdry in Hrest. done.
    + subst created. right. exists (backend st). by rewrite Hcreate.
  - eexists _, _, [call]. split; [done|]. split; [done|].
    split.
    { exists [call], []. split; [done|]. split; [|by left]. right. by exists (Err err). }
    split; [done|]. split; [done|]. split.
    + rewrite count_cons. cbn [createdOk call]. rewrite count_nil. lia.
    + intros e [= <-]. left. exists (zoneToCreate m zoneID cfg), err.
      split; [|done]. by apply list_elem_of_singleton.
Qed.

(** What a run did for one zone: its calls and its error. *)
Definition zoneRecord m (opts : ApplyOptions)
    (existingZones : gmap string config.ZoneState)
    (x : string * config.Zone) (p : list Call * option error) : Prop :=
  let zoneID := config.CanonicalZoneName x.1 in
  let cfg := config.NormalizeZone x.2 in
  let state := stateOf existingZones x.1 in
  zoneCalls m opts zoneID cfg state p.1
  ∧ ∀ e, p.2 = Some e → zoneError m opts zoneID cfg state p.1 e.

Definition zoneErrors (zones : list (string * config.Zone))
    (perZone : list (list Call * option error)) : list error :=
  omap (λ xp, wrapZone xp.1.1 <$> xp.2.2) (zip zones perZone).

Definition zonesCreatedIn (opts : ApplyOptions)
    (existingZones : gmap string config.ZoneState)
    (zones : list (string * config.Zone))
    (perZone : list (list Call * option error)) : N :=
  foldr (λ xp acc, zonesCreatedBy opts (stateOf existingZones xp.1.1) xp.2.1 + acc) 0
        (zip zones perZone).

(** A zone on which [applyZone] panics: it is recorded as existing without
    its data, or the backend answers its creation with no zone and no
    error. *)
Definition panics m (existingZones : gmap string config.ZoneState)
    (zoneData : gmap string Zone) (x : string * config.Zone) : Prop :=
  (config.Exists (stateOf existingZones x.1) = true
   ∧ zoneData !! config.CanonicalZoneName x.1 = None)
  ∨ ∃ b, (CreateZone (client m)
            (zoneToCreate m (config.CanonicalZoneName x.1) (config.NormalizeZone x.2))
            b).1 = Ok None.

Lemma applyZones_summary m zones existingZones zoneData opts result st :
  ∃ out st' perZone,
    applyZones m zones existingZones zoneData opts result st = (out, st')
    ∧ calls st' = calls st ++ mjoin perZone.*1
    ∧ (quiet m opts → user st' = user st)
    ∧ Forall2 (zoneRecord m opts existingZones) (take (length perZone) zones) perZone
    ∧ match out with
      | Some result' =>
          length perZone = length zones
          ∧ Errors result' = Errors result ++ zoneErrors zones perZone
          ∧ ZonesCreated result'
            = ZonesCreated result + zonesCreatedIn opts existingZones zones perZone
      | None => ∃ x, x ∈ zones ∧ panics m existingZones zoneData x
      end.
Proof.
  revert result st. induction zones as [|[zn zc] zones IH]; intros result st.
  - exists (Some result), st, []. simpl. rewrite !app_nil_r.
    repeat split; try done. unfold zonesCreatedIn. simpl. lia.
  - cbn [applyZones]. unfold bind.
    destruct (applyZone_summary m (config.CanonicalZoneName zn) (config.NormalizeZone zc)
                (default config.zeroZoneState
                   (existingZones !! config.CanonicalZoneName zn))
                (zoneData !! config.CanonicalZoneName zn) opts result st)
      as (out1 & st1 & new & -> & Hc1 & Hcalls & Hu1 & Hout1).
    destruct out1 as [[err result1]|].
    + destruct Hout1 as (He1 & Hz1 & Herr1).
      set (result2 := match err with
                      | Some err0 => addError result1
                                       (fmt_Errorf_w ("zone " +:+ zn +:+ ": ") err0)
                      | None => result1
                      end).
      destruct (IH result2 st1) as (out & st' & perZone & -> & Hc & Hu & Hrec & Hout).
      exists out, st', ((new, err) :: perZone). split; [done|].
      split; [by rewrite Hc, Hc1; simpl; rewrite <-app_assoc|].
      split; [intros Hq; by rewrite Hu, Hu1|].
      split; [simpl; constructor; [by split|done]|].
      destruct out as [result'|].
      * destruct Hout as (Hlen & He & Hz). split; [by simpl; rewrite Hlen|]. split.
        -- rewrite He. unfold zoneErrors. simpl. unfold result2.
           destruct err as [e|]; simpl; [by rewrite He1, <-app_assoc|by rewrite He1].
        -- rewrite Hz. unfold zonesCreatedIn. simpl.
           assert (ZonesCreated result2 = ZonesCreated result1) as ->.
           { unfold result2. by destruct err. }
           rewrite Hz1. unfold stateOf. simpl. lia.
      * destruct Hout as (x & Hin & Hp). exists x. split; [|done].
        apply elem_of_cons. by right.
    + exists None, st1, [(new, None)]. split; [done|].
      split; [by simpl; rewrite app_nil_r|]. split; [done|].
      split; [simpl; rewrite take_0; repeat constructor; done|].
      exists (zn, zc). split; [apply elem_of_cons; by left|]. done.
Qed.

(** The [GetZone] calls of a fetch that succeeds: one for each zone of the
    list, in order, under its canonical name. *)
Definition getCalls (zones : list (string * config.Zone))
    (answers : list (option Zone)) : list Call :=
  zip_with (λ x a, CallGetZone (config.CanonicalZoneName x.1) (Ok a)) zones answers.

Lemma fetchZones_summary m zones existingZones zoneData st existingZones' zoneData' st' :
  fetchZones m zones existingZones zoneData st
  = (Some (Ok (existingZones', zoneData')), st') →
  ∃ answers,
    length answers = length zones
    ∧ calls st' = calls st ++ getCalls zones answers
    ∧ user st' = user st ∧ tick st' = tick st
    ∧ (∀ k s, existingZones' !! k = Some s →
         existingZones !! k = Some s
         ∨ ∃ a, CallGetZone k (Ok a) ∈ getCalls zones answers
                ∧ s = stateFor (accountName m) a)
    ∧ ((∀ k s, existingZones !! k = Some s → config.Exists s = true →
               is_Some (zoneData !! k)) →
       ∀ k s, existingZones' !! k = Some s → config.Exists s = true →
              is_Some (zoneData' !! k))
    ∧ (∀ k, is_Some (existingZones !! k) → is_Some (existingZones' !! k))
    ∧ (∀ x, x ∈ zones → is_Some (existingZones' !! config.CanonicalZoneName x.1)).
Proof.
  revert existingZones zoneData st.
  induction zones as [|[zn zc] zones IH]; intros ez zd st.
  - intros [= <- <- <-]. exists []. simpl. rewrite app_nil_r.
    repeat split; try done; [by left|by intros ? ?%elem_of_nil].
  - cbn [fetchZones]. unfold bind, callGetZone.
    destruct (GetZone (client m) (config.CanonicalZoneName zn) (backend st))
      as [r b'] eqn:Hget.
    set (cn := config.CanonicalZoneName zn).
    destruct r as [found|e]; simpl; [|done].
    set (st1 := mkSt b' (user st) (calls st ++ [CallGetZone cn (Ok found)]) (tick st)).
    set (ez1 := <[cn := stateFor (accountName m) found]> ez).
    set (zd1 := match found with Some zone => <[cn := zone]> zd | None => zd end).
    intros Hrun.
    assert (fetchZones m zones ez1 zd1 st1 = (Some (Ok (existingZones', zoneData')), st'))
      as Hrun' by (by destruct found).
    clear Hrun.
    destruct (IH ez1 zd1 st1 Hrun')
      as (answers & Hlen & Hc & Hu & Ht & Hez & Hcons & Hmono & Hall).
    exists (found :: answers). split; [by simpl; rewrite Hlen|].
    split; [by rewrite Hc; simpl; rewrite <-app_assoc|].
    split; [done|]. split; [done|]. split; [|split; [|split]].
    + intros k s Hk. destruct (Hez k s Hk) as [Hk1|(a & Hin & ->)].
      * unfold ez1 in Hk1. destruct (decide (k = cn)) as [->|Hne].
        -- rewrite lookup_insert_eq in Hk1. injection Hk1 as <-. right.
           exists found. split; [|done]. apply elem_of_cons. by left.
        -- rewrite lookup_insert_ne in Hk1 by done. by left.
      * right. exists a. split; [|done]. apply elem_of_cons. by right.
    + intros Hinit. apply Hcons. intros k s Hk Hex. unfold ez1 in Hk. unfold zd1.
      destruct (decide (k = cn)) as [->|Hne].
      * rewrite lookup_insert_eq in Hk. injection Hk as <-.
        destruct found as [zone|]; [|done]. rewrite lookup_insert_eq. by eexists.
      * rewrite lookup_insert_ne in Hk by done.
        destruct found as [zone|]; [rewrite lookup_insert_ne by done|]; by eapply Hinit.
    + intros k Hk. apply Hmono. unfold ez1.
      destruct (decide (k = cn)) as [->|Hne];
        [rewrite lookup_insert_eq; by eexists|by rewrite lookup_insert_ne].
    + intros x [->|Hin]%elem_of_cons; [|by apply Hall].
      apply Hmono. unfold ez1. simpl. fold cn. rewrite lookup_insert_eq. by eexists.
Qed.

End Trace.

(** ** A run of [Apply], from its calls *)

Lemma Forall2_impl_elem_of {A A'} (P Q : A → A' → Prop) (l : list A) (k : list A') :
  Forall2 P l k → (∀ x y, x ∈ l → P x y → Q x y) → Forall2 Q l k.
Proof.
  induction 1 as [|x y l k Hxy _ IH]; intros Himpl; [constructor|].
  constructor.
  - apply Himpl; [apply elem_of_cons; by left|done].
  - apply IH. intros x' y' Hin. apply Himpl, elem_of_cons. by right.
Qed.

Lemma Forall2_Forall_right {A A'} (P : A → A' → Prop) (Q : A' → Prop)
    (l : list A) (k : list A') :
  Forall2 P l k → (∀ x y, P x y → Q y) → Forall Q k.
Proof. induction 1; intros Himpl; constructor; eauto. Qed.

Lemma Forall2_zip_elem_of {A A'} (P : A → A' → Prop) (l : list A) (k : list A') x y :
  Forall2 P l k → (x, y) ∈ zip l k → P x y ∧ x ∈ l ∧ y ∈ k.
Proof.
  induction 1 as [|x0 y0 l k Hxy _ IH]; simpl; [by intros ?%elem_of_nil|].
  intros [[= -> ->]|Hin]%elem_of_cons.
  - split; [done|]. split; apply elem_of_cons; by left.
  - destruct (IH Hin) as (? & ? & ?). split; [done|]. split; apply elem_of_cons; by right.
Qed.

Lemma count_app {A} (f : A → bool) (l1 l2 : list A) :
  count f (l1 ++ l2) = count f l1 + count f l2.
Proof.
  induction l1 as [|x l1 IH]; [by rewrite count_nil|].
  cbn [app]. rewrite !count_cons, IH. lia.
Qed.

Section ApplyRun.
Import powerdns manager.
Context `{GS : GoStrings} `{MO : MapOrder} {B U : Type}.
Implicit Types m : Manager B U.
Implicit Types st : St B U.

Lemma Apply_Ok_inv m cfg opts st result st' :
  Apply m cfg opts st = (Some (Ok result), st') →
  ∃ existingZones zoneData st1,
    fetchZones m (range_at (tick st) (config.Zones cfg)) ∅ ∅ (tickSt st)
    = (Some (Ok (existingZones, zoneData)), st1)
    ∧ config.Validate (tick st1) cfg existingZones = None
    ∧ applyZones m (range_at (S (tick st1)) (config.Zones cfg)) existingZones zoneData
        opts emptyResult (tickSt (tickSt st1))
      = (Some result, st').
Proof.
  rewrite Apply_steps.
  destruct (fetchZones _ _ _ _ _) as [[[[ez zd]|err]|] st1]; [|done|done].
  destruct (config.Validate _ _ _) as [v|] eqn:Hv; [done|].
  cbv zeta. destruct (applyZones _ _ _ _ _ _ _) as [[r|] st2] eqn:Hrun; [|done].
  simpl. intros [= <- <-]. by exists ez, zd, st1.
Qed.

(** After validation, the desired state of every configured zone can be
    built. *)
Lemma validated_builds t cfg existingZones zoneName zc m zoneID state :
  config.Validate t cfg existingZones = None →
  config.Zones cfg !! zoneName = Some zc →
  ∃ D, buildDesiredRRsets m zoneID (config.NormalizeZone zc) state = Ok D.
Proof.
  intros Hv Hz. rewrite Validate_None in Hv. specialize (Hv zoneName zc Hz).
  destruct (clean_zone_normalizes zoneName zc existingZones {| config.Errors := [] |})
    as (rrsets & Hn & _); [done|].
  unfold buildDesiredRRsets. rewrite Hn. by eexists.
Qed.

(** What [Apply] may ask for one zone after the fetch: at most one
    [CreateZone], in a real run, for a zone that a [GetZone] call of this
    run has reported absent, for the configured zone under its canonical
    name, with the account of the manager; then at most one [PatchZone], in
    a real run that the user has not declined, with a patch that is not
    empty. *)
Definition zoneMutations m (opts : ApplyOptions) (gets : list Call)
    (x : string * config.Zone) (new : list Call) : Prop :=
  let zoneID := config.CanonicalZoneName x.1 in
  ∃ creates patches,
    new = creates ++ patches
    ∧ (creates = []
       ∨ ∃ answer,
           creates = [CallCreateZone (zoneToCreate m zoneID (config.NormalizeZone x.2))
                        answer]
           ∧ DryRun opts = false ∧ CallGetZone zoneID (Ok None) ∈ gets)
    ∧ (patches = []
       ∨ ∃ patch answer,
           patches = [CallPatchZone zoneID {| ZonePatch_RRsets := patch |} answer]
           ∧ patch ≠ [] ∧ DryRun opts = false ∧ ¬ declines m opts).

(** The run of [Apply] that returns a result, as one statement. *)
Lemma Apply_Ok_summary m cfg opts st result st' :
  Apply m cfg opts st = (Some (Ok result), st') →
  ∃ order1 answers order2 perZone existingZones,
    order1 ≡ₚ map_to_list (config.Zones cfg)
    ∧ order2 ≡ₚ map_to_list (config.Zones cfg)
    ∧ length answers = length order1
    ∧ calls st' = calls st ++ getCalls order1 answers ++ mjoin perZone.*1
    ∧ Forall2 (zoneRecord m opts existingZones) order2 perZone
    ∧ Forall2 (zoneMutations m opts (getCalls order1 answers)) order2 perZone.*1
    ∧ (∀ x e, x ∈ order2 →
         buildDesiredRRsets m (config.CanonicalZoneName x.1) (config.NormalizeZone x.2)
           (stateOf existingZones x.1) ≠ Err e)
    ∧ Errors result = zoneErrors order2 perZone
    ∧ ZonesCreated result = zonesCreatedIn opts existingZones order2 perZone.
Proof.
  intros (ez & zd & st1 & Hfetch & Hvalid & Hrun)%Apply_Ok_inv.
  apply fetchZones_summary in Hfetch
    as (answers & Hlen & Hc1 & Hu1 & Ht1 & Hez & _ & _ & Hall).
  destruct (applyZones_summary m (range_at (S (tick st1)) (config.Zones cfg)) ez zd opts
              emptyResult (tickSt (tickSt st1)))
    as (out & st2 & perZone & Hrun' & Hc2 & _ & Hrec & Hout).
  rewrite Hrun in Hrun'. injection Hrun' as <- <-.
  destruct Hout as (Hlen2 & He & Hz).
  rewrite Hlen2, firstn_all in Hrec.
  set (order1 := range_at (tick st) (config.Zones cfg)) in *.
  set (order2 := range_at (S (tick st1)) (config.Zones cfg)) in *.
  assert (∀ x, x ∈ order2 → config.Zones cfg !! x.1 = Some x.2) as Hconf.
  { intros [zn zc] Hin. by apply elem_of_range_at in Hin. }
  exists order1, answers, order2, perZone, ez.
  split; [apply range_at_perm|]. split; [apply range_at_perm|]. split; [done|].
  split; [by rewrite Hc2; simpl; rewrite Hc1; simpl; rewrite <-app_assoc|].
  split; [done|]. split; [|split; [|split]].
  - apply Forall2_fmap_r.
    apply (Forall2_impl_elem_of _ _ _ _ Hrec). intros x [new err] Hin [Hcalls _].
    destruct Hcalls as (creates & patches & Hnew & Hcreates & Hpatches).
    exists creates, patches. split; [done|]. split; [|done].
    destruct Hcreates as [?|(answer & Hcr & Hex & Hdry)]; [by left|]. right.
    exists answer. split; [done|]. split; [done|].
    assert (x ∈ order1) as Hin1.
    { destruct x as [zn zc]. apply elem_of_range_at. by apply (Hconf (zn, zc)). }
    destruct (Hall x Hin1) as [s Hs].
    unfold stateOf in Hex. rewrite Hs in Hex. simpl in Hex.
    destruct (Hez _ _ Hs) as [Hempty|(a & Ha & ->)]; [by rewrite lookup_empty in Hempty|].
    destruct a as [zone|]; [done|]. done.
  - intros [zn zc] e Hin.
    destruct (validated_builds (tick st1) cfg ez zn zc m (config.CanonicalZoneName zn)
                (stateOf ez zn) Hvalid (Hconf (zn, zc) Hin)) as [D HD].
    simpl. by rewrite HD.
  - by rewrite He.
  - rewrite Hz. simpl. lia.
Qed.

(** X10.  The calls of a run that returns a result.  First the zones are looked
    up: one [GetZone] call for each configured zone, under its canonical
    name, all answered without error.  Then come the changes, zone by zone:
    for each configured zone at most one [CreateZone] call, only in a real
    run and only for a zone that a [GetZone] call of this run has reported
    absent, asking for the zone with the account of the manager; followed
    by at most one [PatchZone] call, only in a real run that the user has
    not declined, with a patch that is not empty. *)
Theorem Apply_calls m (cfg : config.Config) (opts : ApplyOptions) st
    (result : ApplyResult) st' :
  Apply m cfg opts st = (Some (Ok result), st') →
  ∃ order1 answers order2 perZone,
    order1 ≡ₚ map_to_list (config.Zones cfg)
    ∧ order2 ≡ₚ map_to_list (config.Zones cfg)
    ∧ length answers = length order1
    ∧ calls st' = calls st ++ getCalls order1 answers ++ mjoin perZone
    ∧ Forall2 (zoneMutations m opts (getCalls order1 answers)) order2 perZone.
Proof.
  intros (order1 & answers & order2 & perZone & ez & Hp1 & Hp2 & Hlen & Hc & _ & Hm & _)
    %Apply_Ok_summary.
  by exists order1, answers, order2, perZone.*1.
Qed.

Lemma length_omap_le {A A'} (f : A → option A') (l : list A) :
  (length (omap f l) ≤ length l)%nat.
Proof.
  induction l as [|x l IH]; [done|]. csimpl. destruct (f x); csimpl; simpl in *; lia.
Qed.

(** X11.  The errors of a result.  There is at most one for each configured zone;
    each is the error of one zone, prefixed with the name of the zone, and
    it is the error that the backend gave to a [CreateZone] or a
    [PatchZone] call of this run, or the refusal of the user.  After
    validation nothing else can fail. *)
Theorem Apply_errors m (cfg : config.Config) (opts : ApplyOptions) st
    (result : ApplyResult) st' :
  Apply m cfg opts st = (Some (Ok result), st') →
  ∃ new,
    calls st' = calls st ++ new
    ∧ (length (Errors result) ≤ size (config.Zones cfg))%nat
    ∧ ∀ err, err ∈ Errors result →
        ∃ zoneName e,
          is_Some (config.Zones cfg !! zoneName) ∧ err = wrapZone zoneName e
          ∧ ((∃ zone e0, CallCreateZone zone (Err e0) ∈ new
                         ∧ e = fmt_Errorf_w "failed to create zone: " e0)
             ∨ (∃ patch e0,
                  CallPatchZone (config.CanonicalZoneName zoneName) patch (Some e0) ∈ new
                  ∧ e = fmt_Errorf_w "failed to patch zone: " e0)
             ∨ (e = ErrAborted ∧ DryRun opts = false ∧ AutoConfirm opts = false
                ∧ is_Some (confirmFn m))).
Proof.
  intros (order1 & answers & order2 & perZone & ez & Hp1 & Hp2 & Hlen & Hc & Hrec & _
          & Hbuild & He & _)%Apply_Ok_summary.
  exists (getCalls order1 answers ++ mjoin perZone.*1). split; [done|]. split.
  - rewrite He. unfold zoneErrors.
    etrans; [apply length_omap_le|]. rewrite length_zip.
    rewrite <-(length_map_to_list (config.Zones cfg)), <-Hp2. lia.
  - intros err Hin. rewrite He in Hin. unfold zoneErrors in Hin.
    apply list_elem_of_omap in Hin as ([[zn zc] [new oe]] & Hin & Hf).
    simpl in Hf. destruct oe as [e|]; [|done]. injection Hf as <-.
    destruct (Forall2_zip_elem_of _ _ _ _ _ Hrec Hin) as ([_ Herr] & Hin2 & Hinp).
    assert (∀ c, c ∈ new → c ∈ getCalls order1 answers ++ mjoin perZone.*1) as Hsub.
    { intros c Hc'. apply elem_of_app. right. apply list_elem_of_join.
      exists new. split; [done|]. apply list_elem_of_fmap. by exists (new, Some e). }
    exists zn, e. split.
    { rewrite Hp2 in Hin2. apply elem_of_map_to_list in Hin2. by eexists. }
    split; [done|].
    destruct (Herr e eq_refl) as [(zone & e0 & Hcall & ->)|[(patch & e0 & Hcall & ->)|[?|Hb]]].
    + left. exists zone, e0. split; [by apply Hsub|done].
    + right. left. exists patch, e0. split; [by apply Hsub|done].
    + right. by right.
    + by apply (Hbuild (zn, zc) e Hin2) in Hb.
Qed.

Lemma count_createdOk_getCalls zones answers : count createdOk (getCalls zones answers) = 0.
Proof.
  apply count_zero. intros c (x & a & -> & _)%elem_of_zip_with. done.
Qed.

Lemma zonesCreatedBy_zoneCalls m opts zoneID cfg state new :
  zoneCalls m opts zoneID cfg state new →
  zonesCreatedBy opts state new ≤ 1
  ∧ (DryRun opts = false → zonesCreatedBy opts state new = count createdOk new).
Proof.
  intros (creates & patches & -> & Hcreates & Hpatches). unfold zonesCreatedBy.
  assert (count createdOk patches = 0) as Hp.
  { by destruct Hpatches as [->|(patch & answer & -> & _)]. }
  rewrite count_app, Hp, N.add_0_r.
  destruct Hcreates as [->|(answer & -> & Hex & Hdry)].
  - rewrite count_nil. destruct (config.Exists state); [done|].
    destruct (DryRun opts); [split; [lia|done]|done].
  - rewrite Hex, Hdry, count_cons, count_nil. split; [|done].
    destruct answer; simpl; lia.
Qed.

Lemma zonesCreatedIn_zoneRecords m opts existingZones zones perZone :
  Forall2 (zoneRecord m opts existingZones) zones perZone →
  zonesCreatedIn opts existingZones zones perZone ≤ N.of_nat (length zones)
  ∧ (DryRun opts = false →
     zonesCreatedIn opts existingZones zones perZone = count createdOk (mjoin perZone.*1)).
Proof.
  unfold zonesCreatedIn.
  induction 1 as [|x p zones perZone [Hcalls _] _ [IH1 IH2]]; [done|].
  apply zonesCreatedBy_zoneCalls in Hcalls as [Hle Heq].
  change (zip (x :: zones) (p :: perZone)) with ((x, p) :: zip zones perZone).
  rewrite fmap_cons.
  change (mjoin (p.1 :: perZone.*1)) with (p.1 ++ mjoin perZone.*1).
  cbn [foldr fst snd length].
  split; [lia|]. intros Hdry. rewrite count_app, <-(Heq Hdry), <-(IH2 Hdry). done.
Qed.

(** X12.  The counter of created zones.  It never exceeds the number of
    configured zones, and in a real run it is the number of [CreateZone]
    calls of the run that the backend answered without error. *)
Theorem Apply_ZonesCreated m (cfg : config.Config) (opts : ApplyOptions) st
    (result : ApplyResult) st' :
  Apply m cfg opts st = (Some (Ok result), st') →
  ∃ new,
    calls st' = calls st ++ new
    ∧ ZonesCreated result ≤ N.of_nat (size (config.Zones cfg))
    ∧ (DryRun opts = false → ZonesCreated result = count createdOk new).
Proof.
  intros (order1 & answers & order2 & perZone & ez & Hp1 & Hp2 & Hlen & Hc & Hrec & _
          & _ & _ & Hz)%Apply_Ok_summary.
  exists (getCalls order1 answers ++ mjoin perZone.*1). split; [done|].
  destruct (zonesCreatedIn_zoneRecords m opts ez order2 perZone Hrec) as [Hle Heq].
  rewrite Hz. split.
  - rewrite <-(length_map_to_list (config.Zones cfg)), <-Hp2. done.
  - intros Hdry. by rewrite count_app, count_createdOk_getCalls, (Heq Hdry).
Qed.

(** X13.  The confirmation callback.  In a dry run, with [AutoConfirm], or when no
    callback is set, the user is not asked anything; and when the callback
    is consulted and always says no, no [PatchZone] call is made (zones are
    created all the same: creating a zone is not subject to confirmation). *)
Theorem Apply_confirmation m (cfg : config.Config) (opts : ApplyOptions) st :
  (quiet m opts → user (Apply m cfg opts st).2 = user st)
  ∧ (declines m opts →
     ∃ new, calls (Apply m cfg opts st).2 = calls st ++ new
            ∧ Forall (λ c, isPatchZone c = false) new).
Proof.
  rewrite Apply_steps.
  destruct (fetchZones_outcome m (range_at (tick st) (config.Zones cfg)) ∅ ∅ (tickSt st))
    as (out & st1 & gets & -> & Hc1 & Hg & _ & Hu1 & _).
  assert (Forall (λ c, isPatchZone c = false) gets) as Hg'.
  { eapply Forall_impl; [exact Hg|]. by intros []. }
  destruct out as [[ez zd]|err]; [|split; [done|by exists gets]].
  destruct (config.Validate _ _ _); [split; [done|by exists gets]|].
  destruct (applyZones_summary m (range_at (S (tick st1)) (config.Zones cfg)) ez zd opts
              emptyResult (tickSt (tickSt st1)))
    as (out & st2 & perZone & -> & Hc2 & Hu2 & Hrec & _).
  cbn [fst snd]. split.
  - intros Hq. by rewrite (Hu2 Hq).
  - intros Hdec. exists (gets ++ mjoin perZone.*1).
    split; [by rewrite Hc2; simpl; rewrite Hc1; simpl; rewrite <-app_assoc|].
    apply Forall_app. split; [done|].
    apply Forall_forall. intros c (new & Hc & Hin)%list_elem_of_join.
    apply list_elem_of_fmap in Hin as ([new' oe] & -> & Hin).
    assert (Forall (λ p, ∀ c, c ∈ p.1 → isPatchZone c = false) perZone) as Hall.
    { apply (Forall2_Forall_right _ _ _ _ Hrec).
      intros x p [(creates & patches & -> & Hcr & Hpa) _] c' Hc'.
      destruct Hpa as [->|(? & ? & _ & _ & _ & Hno)]; [|done].
      rewrite app_nil_r in Hc'.
      destruct Hcr as [->|(answer & -> & _)]; [by apply elem_of_nil in Hc'|].
      by apply list_elem_of_singleton in Hc' as ->. }
    rewrite Forall_forall in Hall. by apply (Hall _ Hin).
Qed.

Lemma Apply_never_panics m (cfg : config.Config) (opts : ApplyOptions) st :
  (∀ zone b, (CreateZone (client m) zone b).1 ≠ Ok None) →
  ∃ out st', Apply m cfg opts st = (Some out, st').
Proof.
  intros Hcreate. rewrite Apply_steps.
  destruct (fetchZones m (range_at (tick st) (config.Zones cfg)) ∅ ∅ (tickSt st))
    as [[[[ez zd]|err]|] st1] eqn:Hfetch.
  - destruct (config.Validate _ _ _); [by eauto|].
    apply fetchZones_summary in Hfetch as (answers & _ & _ & _ & _ & _ & Hcons & _).
    destruct (applyZones_summary m (range_at (S (tick st1)) (config.Zones cfg)) ez zd opts
                emptyResult (tickSt (tickSt st1)))
      as (out & st2 & perZone & -> & _ & _ & _ & Hout).
    destruct out as [result|]; [by eauto|]. exfalso.
    destruct Hout as (x & _ & [[Hex Hnone]|[b Hb]]); [|by apply Hcreate in Hb].
    unfold stateOf in Hex.
    destruct (ez !! config.CanonicalZoneName x.1) as [s|] eqn:Hs; [|done].
    simpl in Hex. destruct (Hcons (λ k s' Hk, False_ind _ (lookup_empty_Some _ _ Hk))
                              _ _ Hs Hex) as [z Hz].
    congruence.
  - by eauto.
  - destruct (fetchZones_outcome m (range_at (tick st) (config.Zones cfg)) ∅ ∅ (tickSt st))
      as (out & st1' & gets & Hf & _). congruence.
Qed.

(** X14.  [Apply] returns, with a result or an error, whatever the configuration,
    the options and the answers of the backend, as long as the backend
    never answers a [CreateZone] call with no zone and no error. *)
Theorem Apply_returns m (cfg : config.Config) (opts : ApplyOptions) st :
  (∀ zone b, (CreateZone (client m) zone b).1 ≠ Ok None) →
  ∃ out st', Apply m cfg opts st = (Some out, st').
Proof. apply Apply_never_panics. Qed.

(** X15.  When [Apply] returns an error instead of a result, it has changed
    nothing: all it has asked of the backend is [GetZone], and the user has
    not been asked anything. *)
Theorem Apply_error_changes_nothing m (cfg : config.Config) (opts : ApplyOptions) st
    (err : error) st' :
  Apply m cfg opts st = (Some (Err err), st') →
  ∃ new, calls st' = calls st ++ new ∧ Forall (λ c, isGetZone c = true) new
         ∧ user st' = user st.
Proof.
  rewrite Apply_steps.
  destruct (fetchZones_outcome m (range_at (tick st) (config.Zones cfg)) ∅ ∅ (tickSt st))
    as (out & st1 & gets & -> & Hc1 & Hg & _ & Hu1 & _).
  destruct out as [[ez zd]|err0].
  - destruct (config.Validate _ _ _).
    + intros [= _ <-]. by exists gets.
    + cbv zeta. destruct (applyZones _ _ _ _ _ _ _) as [[r|] st2]; done.
  - intros [= _ <-]. by exists gets.
Qed.

(** X16.  A configured zone that the backend holds under another account makes
    [Apply] fail before any change: if all the lookups succeed, the error is
    the validation error and it has the "not managed" message of the zone. *)
Theorem foreign_zone_refused m (cfg : config.Config) (opts : ApplyOptions) st
    (zoneName : string) (zc : config.Zone) (zone : Zone) :
  readOnly m →
  config.Zones cfg !! zoneName = Some zc →
  lookupZone m (backend st) (config.CanonicalZoneName zoneName) = Ok (Some zone) →
  Zone_Account zone ≠ accountName m →
  ∃ err st' new,
    Apply m cfg opts st = (Some (Err err), st')
    ∧ calls st' = calls st ++ new ∧ Forall (λ c, isGetZone c = true) new
    ∧ backend st' = backend st
    ∧ ((∃ failed e, err = wrapFetch failed e)
       ∨ ∃ errs, err = ValidationErr errs ∧ config.msg_not_managed zoneName ∈ errs).
Proof.
  intros Hro Hz Hlook Hacc. rewrite Apply_steps.
  destruct (fetchZones_outcome m (range_at (tick st) (config.Zones cfg)) ∅ ∅ (tickSt st))
    as (out & st1 & gets & Hf & Hc1 & Hg & _ & Hu1 & Herr).
  destruct (fetchZones_readOnly m (range_at (tick st) (config.Zones cfg)) ∅ ∅ (tickSt st)
              Hro) as (calls' & Hf').
  rewrite Hf in Hf'. injection Hf' as -> ->. rewrite Hf. simpl in *.
  destruct (fetchFold m (backend st) (range_at (tick st) (config.Zones cfg)) ∅ ∅)
    as [[ez zd]|err0] eqn:Hfold.
  - apply fetchFold_Ok in Hfold as (_ & Hez & _).
    specialize (Hez (config.CanonicalZoneName zoneName)).
    rewrite decide_True in Hez by (by eapply elem_of_canonicalNames).
    assert (stateOf ez zoneName
            = {| config.Exists := true; config.IsManaged := false |}) as Hstate.
    { unfold stateOf. rewrite Hez. simpl. unfold fetchedState. rewrite Hlook.
      by rewrite bool_decide_eq_false_2. }
    assert (∀ t, config.msg_not_managed zoneName
            ∈ config.Errors
                (foldl (λ errs '(zn, z), config.validateZone zn z ez errs)
                       {| config.Errors := [] |}
                       (range_at t (config.Zones cfg)))) as Hmsg.
    { intros t. rewrite foldl_validateZone_Errors. simpl. apply list_elem_of_bind.
      exists (zoneName, zc). split; [|by apply elem_of_range_at]. simpl.
      unfold zoneViolations. rewrite validateZone_Errors, Hstate. simpl.
      apply elem_of_cons. by left. }
    unfold config.Validate, config.Validate_over, config.HasErrors. simpl.
    specialize (Hmsg (S (tick st))).
    case_bool_decide as Hlen.
    + eexists _, _, gets. split; [done|]. split; [done|]. split; [done|].
      split; [done|]. right. eexists. split; [done|]. exact Hmsg.
    + exfalso. apply Hlen. destruct (config.Errors _); [by apply elem_of_nil in Hmsg|].
      simpl. lia.
  - eexists _, _, gets. split; [done|]. split; [done|]. split; [done|]. split; [done|].
    left. destruct (Herr err0 eq_refl) as (zn & _ & e & _ & _ & _ & _ & ->). eauto.
Qed.

End ApplyRun.

(** ** Names and order of the changes *)
Section DesiredState.
Import powerdns manager.
Context `{GS : GoStrings} {B U : Type}.
Implicit Types m : Manager B U.

Lemma strings_HasSuffix_app_r (s t suf : string) :
  strings_HasSuffix t suf = true → strings_HasSuffix (s +:+ t) suf = true.
Proof.
  intros Ht. induction s as [|c s IH]; [done|].
  rewrite string_app_cons. cbn [strings_HasSuffix]. by destruct (String.eqb _ _).
Qed.

Lemma buildFQDN_qualified m name zoneID :
  strings_HasSuffix zoneID "." = true →
  strings_HasSuffix (buildFQDN m name zoneID) "." = true.
Proof.
  intros Hz. unfold buildFQDN. case_decide; [done|].
  destruct (strings_HasSuffix name ".") eqn:Hn; [done|].
  by apply strings_HasSuffix_app_r, strings_HasSuffix_app_r.
Qed.

Lemma normalizeNameserver_qualified m ns zoneID :
  strings_HasSuffix zoneID "." = true →
  strings_HasSuffix (normalizeNameserver m ns zoneID) "." = true.
Proof.
  intros Hz. unfold normalizeNameserver.
  destruct (strings_HasSuffix ns ".") eqn:Hn; [done|].
  by apply strings_HasSuffix_app_r, strings_HasSuffix_app_r.
Qed.

(** X17.  For a zone name that ends with a dot, as the canonical names that
    [Apply] passes do, every name that goes to the backend is fully
    qualified: the nameservers of a zone to create, the names of the desired
    record sets and the contents of the NS records made from the
    nameservers all end with a dot.  A nameserver that already ends with a
    dot is kept as it is. *)
Theorem names_fully_qualified m (zoneID : string) (cfg : config.Zone)
    (state : config.ZoneState) (desiredRRsets : gmap string RRset) :
  strings_HasSuffix zoneID "." = true →
  buildDesiredRRsets m zoneID cfg state = Ok desiredRRsets →
  Forall (λ ns, strings_HasSuffix ns "." = true)
         (normalizeNameservers m (config.Zone_Nameservers cfg) zoneID)
  ∧ (∀ ns, strings_HasSuffix ns "." = true → normalizeNameserver m ns zoneID = ns)
  ∧ ∀ key desired, desiredRRsets !! key = Some desired →
      strings_HasSuffix (RRset_Name desired) "." = true
      ∧ (desired = nsRRset m zoneID cfg →
         Forall (λ rec, strings_HasSuffix (Rec_Content rec) "." = true)
                (RRset_Records desired)).
Proof.
  intros Hz (rrsets & _ & HD)%buildDesiredRRsets_entries.
  split; [|split].
  - unfold normalizeNameservers. apply Forall_forall.
    intros ns (ns0 & -> & _)%list_elem_of_fmap. by apply normalizeNameserver_qualified.
  - intros ns Hns. unfold normalizeNameserver. by rewrite Hns.
  - intros key desired Hk. split.
    + destruct (HD key desired Hk) as [(_ & -> & _)|(r & _ & Heq)]; [done|].
      injection Heq as _ ->. simpl. by apply buildFQDN_qualified.
    + intros ->. simpl. apply Forall_forall.
      intros rec (ns0 & -> & _)%list_elem_of_fmap. simpl.
      by apply normalizeNameserver_qualified.
Qed.

(** X18.  The patch does not depend on the order in which Go ranges over the two
    maps, except for the order of its entries: two runs of the loops build
    patches with the same entries; in each, all the REPLACE entries come
    before all the DELETE entries. *)
Theorem patch_order_irrelevant m (desiredRRsets existingByKey : gmap string RRset)
    (order1 order1' order2 order2' : list (string * RRset)) (result result' : ApplyResult) :
  order1 ≡ₚ order1' → order2 ≡ₚ order2' →
  (diffRRsets m desiredRRsets existingByKey order1 order2 result).1
  ≡ₚ (diffRRsets m desiredRRsets existingByKey order1' order2' result').1
  ∧ ∃ replaces deletes,
      (diffRRsets m desiredRRsets existingByKey order1 order2 result).1
      = replaces ++ deletes
      ∧ Forall (λ op, RRset_ChangeType op = "REPLACE") replaces
      ∧ Forall (λ op, RRset_ChangeType op = "DELETE") deletes.
Proof.
  intros Hp1 Hp2. rewrite !diffRRsets_spec. cbn [fst]. split.
  - by rewrite Hp1, Hp2.
  - eexists _, _. split; [done|]. split; apply Forall_forall.
    + by intros op (x & -> & _)%list_elem_of_fmap.
    + by intros op (x & -> & _)%list_elem_of_fmap.
Qed.

End DesiredState.

(** ** The backend changes through the calls only *)
Section Replay.
Import powerdns manager.
Context `{GS : GoStrings} `{MO : MapOrder} {B U : Type}.
Implicit Types m : Manager B U.
Implicit Types st : St B U.

(** The state in which a call leaves the backend. *)
Definition replay m (b : B) (c : Call) : B :=
  match c with
  | CallCreateZone zone _ => (CreateZone (client m) zone b).2
  | CallGetZone zoneID _ => (GetZone (client m) zoneID b).2
  | CallPatchZone zoneID patch _ => (PatchZone (client m) zoneID patch b).2
  end.

(** The answer that a call got is the answer of the backend in the state
    in which the call found it. *)
Definition answered m (b : B) (c : Call) : Prop :=
  match c with
  | CallCreateZone zone answer => (CreateZone (client m) zone b).1 = answer
  | CallGetZone zoneID answer => (GetZone (client m) zoneID b).1 = answer
  | CallPatchZone zoneID patch answer => (PatchZone (client m) zoneID patch b).1 = answer
  end.

(** The calls [new], made one after the other from the state [b], got the
    answers they record. *)
Fixpoint faithful m (b : B) (new : list Call) : Prop :=
  match new with
  | [] => True
  | c :: rest => answered m b c ∧ faithful m (replay m b c) rest
  end.

(** From [st] to [st']: calls were added, the backend went through them, and
    they record the answers of the backend. *)
Definition replays m (st st' : St B U) : Prop :=
  ∃ new, calls st' = calls st ++ new
         ∧ backend st' = foldl (replay m) (backend st) new
         ∧ faithful m (backend st) new.

Lemma faithful_app m b new1 new2 :
  faithful m b (new1 ++ new2)
  ↔ faithful m b new1 ∧ faithful m (foldl (replay m) b new1) new2.
Proof.
  revert b. induction new1 as [|c new1 IH]; intros b; simpl; [tauto|].
  rewrite IH. tauto.
Qed.

Lemma replays_refl m st st' :
  calls st' = calls st → backend st' = backend st → replays m st st'.
Proof. intros Hc Hb. exists []. by rewrite app_nil_r. Qed.

Lemma replays_trans m st1 st2 st3 :
  replays m st1 st2 → replays m st2 st3 → replays m st1 st3.
Proof.
  intros (new1 & Hc1 & Hb1 & Hf1) (new2 & Hc2 & Hb2 & Hf2). exists (new1 ++ new2).
  split; [by rewrite Hc2, Hc1, app_assoc|].
  split; [by rewrite Hb2, Hb1, foldl_app|].
  apply faithful_app. split; [done|]. by rewrite <-Hb1.
Qed.

Lemma replays_call m st st' c :
  calls st' = calls st ++ [c] → backend st' = replay m (backend st) c →
  answered m (backend st) c → replays m st st'.
Proof. intros Hc Hb Ha. by exists [c]. Qed.

Lemma sendPatch_replays m zoneID patch opts st :
  replays m st (sendPatch m zoneID patch opts st).2.
Proof.
  destruct (sendPatch_cases m zoneID patch opts st)
    as (err & st' & -> & _ & _ & [(Hc & Hb & _)|(answer & Hc & _ & _ & _ & _ & Hp)]).
  - by apply replays_refl.
  - eapply replays_call; [exact Hc|..]; simpl; by rewrite Hp.
Qed.

Lemma applyRRsets_replays m zoneID cfg existingZone state opts result st :
  replays m st (applyRRsets m zoneID cfg existingZone state opts result st).2.
Proof.
  rewrite applyRRsets_unfold.
  destruct (buildDesiredRRsets m zoneID cfg state) as [D|err]; [|by apply replays_refl].
  destruct existingZone as [z|]; [|by apply replays_refl].
  cbv zeta. cbn [snd].
  eapply replays_trans; [|apply sendPatch_replays]. by apply replays_refl.
Qed.

Lemma applyZone_replays m zoneID cfg state existingZone opts result st :
  replays m st (applyZone m zoneID cfg state existingZone opts result st).2.
Proof.
  rewrite applyZone_unfold.
  destruct (config.Exists state); [apply applyRRsets_replays|].
  destruct (DryRun opts); [apply applyRRsets_replays|].
  cbv zeta.
  destruct (CreateZone (client m) (zoneToCreate m zoneID cfg) (backend st))
    as [answer b] eqn:Hcreate. cbn [fst snd].
  assert (replays m st
            (mkSt b (user st)
               (calls st ++ [CallCreateZone (zoneToCreate m zoneID cfg) answer]) (tick st)))
    as Hstep.
  { eapply replays_call; [done|..]; simpl; by rewrite Hcreate. }
  destruct answer as [created|err]; [|done].
  eapply replays_trans; [exact Hstep|apply applyRRsets_replays].
Qed.

Lemma applyZones_replays m zones existingZones zoneData opts result st :
  replays m st (applyZones m zones existingZones zoneData opts result st).2.
Proof.
  revert result st. induction zones as [|[zn zc] zones IH]; intros result st.
  - by apply replays_refl.
  - cbn [applyZones]. unfold bind.
    pose proof (applyZone_replays m (config.CanonicalZoneName zn) (config.NormalizeZone zc)
                  (default config.zeroZoneState
                     (existingZones !! config.CanonicalZoneName zn))
                  (zoneData !! config.CanonicalZoneName zn) opts result st) as Hz.
    destruct (applyZone _ _ _ _ _ _ _ _) as [[[err r1]|] st1]; [|done].
    eapply replays_trans; [exact Hz|apply IH].
Qed.

Lemma fetchZones_replays m zones existingZones zoneData st :
  replays m st (fetchZones m zones existingZones zoneData st).2.
Proof.
  revert existingZones zoneData st.
  induction zones as [|[zn zc] zones IH]; intros ez zd st.
  - by apply replays_refl.
  - cbn [fetchZones]. unfold bind, callGetZone.
    destruct (GetZone (client m) (config.CanonicalZoneName zn) (backend st))
      as [r b'] eqn:Hget. simpl.
    assert (replays m st
              (mkSt b' (user st)
                 (calls st ++ [CallGetZone (config.CanonicalZoneName zn) r]) (tick st)))
      as Hstep.
    { eapply replays_call; [done|..]; simpl; by rewrite Hget. }
    destruct r as [[zone|]|e]; [| |done];
      (eapply replays_trans; [exact Hstep|apply IH]).
Qed.

Lemma Apply_replays m (cfg : config.Config) (opts : ApplyOptions) st :
  ∃ new,
    calls (Apply m cfg opts st).2 = calls st ++ new
    ∧ backend (Apply m cfg opts st).2 = foldl (replay m) (backend st) new
    ∧ faithful m (backend st) new.
Proof.
  change (replays m st (Apply m cfg opts st).2). rewrite Apply_steps.
  pose proof (fetchZones_replays m (range_at (tick st) (config.Zones cfg)) ∅ ∅ (tickSt st))
    as Hfetch.
  destruct (fetchZones _ _ _ _ _) as [[[[ez zd]|err]|] st1]; [|done|done].
  destruct (config.Validate _ _ _).
  - eapply replays_trans; [exact Hfetch|]. by apply replays_refl.
  - cbv zeta. cbn [snd].
    eapply replays_trans; [exact Hfetch|].
    eapply replays_trans; [|apply applyZones_replays]. by apply replays_refl.
Qed.

(** X20.  A dry run leaves the backend as it found it, when looking a zone up
    changes nothing in the backend. *)
Theorem dry_run_leaves_backend m (cfg : config.Config) (opts : ApplyOptions) st :
  readOnly m → DryRun opts = true →
  backend (Apply m cfg opts st).2 = backend st.
Proof.
  intros Hro Hdry.
  destruct (Apply_replays m cfg opts st) as (new & Hc & -> & _).
  destruct (Apply_dry_calls m cfg opts st Hdry) as (new' & Hc' & Hgets).
  rewrite Hc in Hc'. apply app_inv_head in Hc'. subst new'. clear Hc.
  generalize (backend st). induction Hgets as [|call new Hcall _ IH]; intros b; [done|].
  destruct call as [| zoneID answer |]; simpl in Hcall; try done. cbn [foldl replay].
  rewrite (Hro zoneID b). apply IH.
Qed.

End Replay.

(** ** Masking of secrets *)
Section Logger.

Lemma string_length_app (s t : string) :
  String.length (s +:+ t) = (String.length s + String.length t)%nat.
Proof. induction s as [|c s IH]; [done|]. rewrite string_app_cons. simpl. by rewrite IH. Qed.

Lemma substring_0_0 (s : string) : Stdlib.Strings.String.substring 0 0 s = "".
Proof. by destruct s. Qed.

Lemma substring_whole (s : string) :
  Stdlib.Strings.String.substring 0 (String.length s) s = s.
Proof. induction s as [|c s IH]; [done|]. simpl. by rewrite IH. Qed.

Lemma substring_prefix (s t : string) :
  Stdlib.Strings.String.substring 0 (String.length s) (s +:+ t) = s.
Proof.
  induction s as [|c s IH]; [apply substring_0_0|].
  rewrite string_app_cons. simpl. by rewrite IH.
Qed.

Lemma substring_skip (s t : string) (n : nat) :
  Stdlib.Strings.String.substring (String.length s) n (s +:+ t)
  = Stdlib.Strings.String.substring 0 n t.
Proof. induction s as [|c s IH]; [done|]. rewrite string_app_cons. simpl. by rewrite IH. Qed.

Lemma strings_Repeat_length (s : string) (count : nat) :
  String.length (strings_Repeat s count) = (count * String.length s)%nat.
Proof.
  induction count as [|count IH]; [done|]. simpl. by rewrite string_length_app, IH.
Qed.

(** X21.  [MaskSecret] gives four asterisks for a secret of at most four bytes.
    A longer secret keeps its first two and its last two bytes and has every
    byte between them replaced by an asterisk, so that the result has the
    length of the secret (and a secret of five bytes shows four of them).
    The result is never shorter than four bytes. *)
Theorem MaskSecret_shape (secret : string) :
  ((String.length secret ≤ 4)%nat → logger.MaskSecret secret = "****")
  ∧ (∀ first mid last,
       secret = first +:+ mid +:+ last →
       String.length first = 2%nat → String.length last = 2%nat → mid ≠ "" →
       logger.MaskSecret secret
       = first +:+ strings_Repeat "*" (String.length mid) +:+ last)
  ∧ String.length (logger.MaskSecret secret) = (4 `max` String.length secret)%nat.
Proof.
  unfold logger.MaskSecret. split; [|split].
  - intros Hlen. by rewrite bool_decide_eq_true_2.
  - intros first mid last -> Hfirst Hlast Hmid.
    assert (String.length mid ≠ 0%nat) as Hm by (by destruct mid).
    rewrite bool_decide_eq_false_2 by (rewrite !string_length_app; lia).
    rewrite !string_length_app, Hfirst, Hlast.
    replace (2 + (String.length mid + 2) - 4)%nat with (String.length mid) by lia.
    replace (2 + (String.length mid + 2) - 2)%nat
      with (String.length (first +:+ mid)) by (rewrite string_length_app; lia).
    rewrite <-Hfirst at 1. rewrite substring_prefix.
    rewrite <-(string_app_assoc first mid last), substring_skip.
    by rewrite <-Hlast, substring_whole.
  - case_bool_decide as Hlen; [simpl; lia|].
    rewrite !string_length_app, strings_Repeat_length.
    assert (∀ n s, (n + 2 ≤ String.length s)%nat →
              String.length (Stdlib.Strings.String.substring n 2 s) = 2%nat) as Hsub.
    { intros n s. revert n. induction s as [|c s IH]; intros n Hn; [simpl in Hn; lia|].
      destruct n as [|n]; simpl.
      - destruct s as [|c' s]; [simpl in Hn; lia|]. simpl. by rewrite substring_0_0.
      - apply IH. simpl in Hn. lia. }
    rewrite !Hsub by lia. simpl. lia.
Qed.

End Logger.

(** ** The account name of the command line *)
Section AccountName.
Import powerdns manager.

(** X22.  The account name is never empty: a variable that is not set, or set to
    the empty string, gives "zone-manager"; any other value is taken as it
    is.  So a record set whose comments all have an empty account is not
    managed, whatever the environment. *)
Theorem blank_account_unmanaged {B U : Type} (env : gmap string string)
    (client : PowerDNSClient B) (rrset : RRset) :
  cmd.getAccountName env ≠ ""
  ∧ (cmd.getAccountName env
     = match env !! "ACCOUNT_NAME" with
       | Some name => if decide (name = "") then "zone-manager" else name
       | None => "zone-manager"
       end)
  ∧ (Forall (λ comment, Comment_Account comment = "") (RRset_Comments rrset) →
     isManaged (NewManager (U:=U) client (cmd.getAccountName env)) rrset = false).
Proof.
  assert (cmd.getAccountName env ≠ "") as Hne.
  { unfold cmd.getAccountName. case_decide as Hn; [done|]. done. }
  split; [done|]. split.
  - unfold cmd.getAccountName, cmd.os_Getenv.
    destruct (env !! "ACCOUNT_NAME") as [name|]; simpl; [|done].
    by repeat case_decide.
  - intros Hall. unfold isManaged. simpl.
    induction Hall as [|comment comments Hc _ IH]; [done|]. simpl. rewrite IH.
    rewrite bool_decide_eq_false_2; [done|]. intros Heq. apply Hne. by rewrite <-Heq.
Qed.

End AccountName.

(** ** The REST client *)
Section RestClient.
Import powerdns restclient.
Context `{GJ : GoJSON} {H : Type} `{GH : GoHTTP H}.

(** The request that [doRequest] sends. *)
Definition requestFor (c : Client) (method path : string) (body : option string)
  : Request :=
  {| Method := method; URL := baseURL c +:+ path;
     Header := ("X-API-Key", apiKey c)
               :: match body with
                  | Some _ => [("Content-Type", "application/json")]
                  | None => []
                  end;
     ReqBody := body |}.

(** The encoded body of a request. *)
Definition encoded (body : option Payload) (data : option string) : Prop :=
  match body with
  | Some payload => ∃ d, json_Marshal payload = Ok d ∧ data = Some d
  | None => data = None
  end.

Lemma doRequest_Ok c method path body h resp h' :
  doRequest c method path body h = (Ok resp, h')
  ↔ ∃ data, encoded body data
            ∧ http_NewRequest method (baseURL c +:+ path) = None
            ∧ http_Do (requestFor c method path data) h = (Ok resp, h').
Proof.
  unfold doRequest, encoded, requestFor.
  destruct body as [payload|].
  - destruct (json_Marshal payload) as [d|e] eqn:Hm.
    + destruct (http_NewRequest method (baseURL c +:+ path)) as [e|] eqn:Hn.
      * split; [done|]. by intros (data & _ & ? & _).
      * split.
        -- intros Hdo. exists (Some d). split; [by exists d|]. split; [done|].
           destruct (http_Do _ h) as [[r|e] h1]; [by injection Hdo as -> ->|done].
        -- intros (data & (d' & [= <-] & ->) & _ & ->). done.
    + split; [done|]. by intros (data & (d' & ? & _) & _).
  - destruct (http_NewRequest method (baseURL c +:+ path)) as [e|] eqn:Hn.
    + split; [done|]. by intros (data & _ & ? & _).
    + split.
      * intros Hdo. exists None. split; [done|]. split; [done|].
        destruct (http_Do _ h) as [[r|e] h1]; [by injection Hdo as -> ->|done].
      * intros (data & -> & _ & ->). done.
Qed.

(** X23.  The zone id may be given with or without its final dot: both reach the
    server under the same path. *)
Theorem zone_id_final_dot_optional (c : Client) (zoneID : string) (patch : ZonePatch)
    (h : H) :
  GetZone c (config.CanonicalZoneName zoneID) h = GetZone c zoneID h
  ∧ PatchZone c (config.CanonicalZoneName zoneID) patch h = PatchZone c zoneID patch h.
Proof.
  unfold GetZone, PatchZone.
  change (if negb (strings_HasSuffix (config.CanonicalZoneName zoneID) ".")
          then config.CanonicalZoneName zoneID +:+ "."
          else config.CanonicalZoneName zoneID)
    with (config.CanonicalZoneName (config.CanonicalZoneName zoneID)).
  by rewrite CanonicalZoneName_idem.
Qed.

(** X24.  When the three operations succeed.  [CreateZone] returns a zone exactly
    when the server answers the POST of the encoded zone with status 201 and
    a body that is read and decoded; it never returns "no zone, no error".
    [GetZone] returns "no zone" exactly when the server answers 404, whatever
    the body, and a zone exactly when it answers 200 with a body that is
    read and decoded.  [PatchZone] succeeds exactly when the server answers
    the PATCH of the encoded patch with status 204. *)
Theorem success_status_codes (c : Client) (zone : Zone) (zoneID : string)
    (patch : ZonePatch) (h h' : H) :
  (∀ created,
     CreateZone c zone h = (Ok created, h')
     ↔ ∃ data resp z,
         json_Marshal_Zone zone = Ok data
         ∧ http_NewRequest "POST" (baseURL c +:+ "/zones") = None
         ∧ http_Do (requestFor c "POST" "/zones" (Some data)) h = (Ok resp, h')
         ∧ StatusCode resp = 201%Z ∧ readZone resp = Ok z ∧ created = Some z)
  ∧ (∀ found,
       GetZone c zoneID h = (Ok found, h')
       ↔ ∃ resp,
           http_NewRequest "GET"
             (baseURL c +:+ "/zones/" +:+ config.CanonicalZoneName zoneID) = None
           ∧ http_Do (requestFor c "GET"
                        ("/zones/" +:+ config.CanonicalZoneName zoneID) None) h
             = (Ok resp, h')
           ∧ ((StatusCode resp = 404%Z ∧ found = None)
              ∨ (StatusCode resp = 200%Z ∧ ∃ z, readZone resp = Ok z ∧ found = Some z)))
  ∧ (PatchZone c zoneID patch h = (None, h')
     ↔ ∃ data resp,
         json_Marshal_ZonePatch patch = Ok data
         ∧ http_NewRequest "PATCH"
             (baseURL c +:+ "/zones/" +:+ config.CanonicalZoneName zoneID) = None
         ∧ http_Do (requestFor c "PATCH"
                      ("/zones/" +:+ config.CanonicalZoneName zoneID) (Some data)) h
           = (Ok resp, h')
         ∧ StatusCode resp = 204%Z).
Proof.
  split; [|split].
  - intros created. unfold CreateZone. split.
    + destruct (doRequest c "POST" "/zones" (Some (ZoneBody zone)) h) as [[resp|e] h1]
        eqn:Hdo; [|done].
      apply doRequest_Ok in Hdo as (data & (d & Hm & ->) & Hn & Hdo).
      case_decide as Hs; [done|].
      destruct (readZone resp) as [z|e] eqn:Hr; [|done].
      intros [= <- <-]. exists d, resp, z. by repeat split.
    + intros (data & resp & z & Hm & Hn & Hdo & Hs & Hr & ->).
      assert (doRequest c "POST" "/zones" (Some (ZoneBody zone)) h = (Ok resp, h')) as ->.
      { apply doRequest_Ok. exists (Some data). split; [by exists data|done]. }
      rewrite decide_False by (rewrite Hs; intros Hne; by apply Hne). by rewrite Hr.
  - intros found. unfold GetZone.
    change (if negb (strings_HasSuffix zoneID ".") then zoneID +:+ "." else zoneID)
      with (config.CanonicalZoneName zoneID).
    set (path := "/zones/" +:+ config.CanonicalZoneName zoneID). split.
    + destruct (doRequest c "GET" path None h) as [[resp|e] h1] eqn:Hdo; [|done].
      apply doRequest_Ok in Hdo as (data & -> & Hn & Hdo).
      case_decide as H404.
      * intros [= <- <-]. exists resp. split; [done|]. split; [done|]. by left.
      * case_decide as H200; [done|].
        destruct (readZone resp) as [z|e] eqn:Hr; [|done].
        intros [= <- <-]. exists resp. split; [done|]. split; [done|]. right.
        split; [done|by exists z].
    + intros (resp & Hn & Hdo & Hcases).
      assert (doRequest c "GET" path None h = (Ok resp, h')) as ->.
      { apply doRequest_Ok. by exists None. }
      destruct Hcases as [[Hs ->]|(Hs & z & Hr & ->)].
      * by rewrite decide_True.
      * rewrite decide_False by (rewrite Hs; done).
        rewrite decide_False by (rewrite Hs; intros Hne; by apply Hne). by rewrite Hr.
  - unfold PatchZone.
    change (if negb (strings_HasSuffix zoneID ".") then zoneID +:+ "." else zoneID)
      with (config.CanonicalZoneName zoneID).
    set (path := "/zones/" +:+ config.CanonicalZoneName zoneID). split.
    + destruct (doRequest c "PATCH" path (Some (PatchBody patch)) h) as [[resp|e] h1]
        eqn:Hdo; [|done].
      apply doRequest_Ok in Hdo as (data & (d & Hm & ->) & Hn & Hdo).
      case_decide as Hs; [done|]. intros [= <-]. exists d, resp. by repeat split.
    + intros (data & resp & Hm & Hn & Hdo & Hs).
      assert (doRequest c "PATCH" path (Some (PatchBody patch)) h = (Ok resp, h')) as ->.
      { apply doRequest_Ok. exists (Some data). split; [by exists data|done]. }
      by rewrite decide_False by (rewrite Hs; intros Hne; by apply Hne).
Qed.

(** X25.  One slash at the end of the base URL is dropped, so that the URL of a
    request has a single slash between the base and the path; a second
    slash would stay. *)
Theorem NewClient_trailing_slash (url key : string) :
  baseURL (NewClient (url +:+ "/") key) = url
  ∧ (strings_HasSuffix url "/" = false → baseURL (NewClient url key) = url)
  ∧ (strings_HasSuffix url "/" = false →
     NewClient (url +:+ "/") key = NewClient url key).
Proof.
  assert (strings_TrimSuffix (url +:+ "/") "/" = url) as Hslash.
  { unfold strings_TrimSuffix. rewrite strings_HasSuffix_app, string_length_app. simpl.
    replace (String.length url + 1 - 1)%nat with (String.length url) by lia.
    apply substring_prefix. }
  assert (strings_HasSuffix url "/" = false → strings_TrimSuffix url "/" = url) as Hnone.
  { intros Hs. unfold strings_TrimSuffix. by rewrite Hs. }
  split; [done|]. split; [done|]. intros Hs. unfold NewClient.
  by rewrite Hslash, (Hnone Hs).
Qed.

End RestClient.

(** ** The manager in front of the REST client *)
Section RestRun.
Import powerdns manager.
Context `{GS : GoStrings} `{MO : MapOrder} `{GJ : GoJSON} {H U : Type}.
Context `{GH : restclient.GoHTTP H}.

(** The transport [GH], made to keep the requests it is given: the state is
    the state of the transport and the requests sent so far. *)
Definition recorder : restclient.GoHTTP (H * list restclient.Request) :=
  {| restclient.http_NewRequest := restclient.http_NewRequest (H:=H);
     restclient.http_Do := λ req hs,
       let r := restclient.http_Do req hs.1 in
       (r.1, (r.2, hs.2 ++ [req])) |}.

(** A manager built on the REST client over the recording transport. *)
Definition restManager (c : restclient.Client) (account : string)
    (confirm : option (ConfirmFunc U))
  : Manager (H * list restclient.Request) U :=
  {| client := restclient.asPowerDNSClient (GH:=recorder) c;
     confirmFn := confirm; accountName := account |}.

Definition isZoneLookup (c : restclient.Client) (req : restclient.Request) : Prop :=
  ∃ zoneID,
    req = requestFor c "GET" ("/zones/" +:+ config.CanonicalZoneName zoneID) None.

Lemma GetZone_sent c zoneID (hs : H * list restclient.Request) :
  ∃ sent,
    (restclient.GetZone (GH:=recorder) c zoneID hs).2.2 = hs.2 ++ sent
    ∧ Forall (isZoneLookup c) sent.
Proof.
  unfold restclient.GetZone, restclient.doRequest.
  change (if negb (strings_HasSuffix zoneID ".") then zoneID +:+ "." else zoneID)
    with (config.CanonicalZoneName zoneID).
  destruct (restclient.http_NewRequest _ _) as [e|].
  { exists []. by rewrite app_nil_r. }
  cbn [restclient.http_Do recorder].
  match goal with
  | |- context [restclient.http_Do ?req hs.1] =>
      destruct (restclient.http_Do req hs.1) as [[resp|e] h1]
  end; cbn [fst snd].
  - exists [requestFor c "GET" ("/zones/" +:+ config.CanonicalZoneName zoneID) None].
    split; [|repeat constructor; by exists zoneID].
    repeat case_decide; try done. by destruct (restclient.readZone resp).
  - exists [requestFor c "GET" ("/zones/" +:+ config.CanonicalZoneName zoneID) None].
    split; [done|repeat constructor; by exists zoneID].
Qed.

Lemma lookups_sent c account confirm (new : list Call) (hs : H * list restclient.Request) :
  Forall (λ call, isGetZone call = true) new →
  ∃ sent,
    (foldl (replay (restManager c account confirm)) hs new).2 = hs.2 ++ sent
    ∧ Forall (isZoneLookup c) sent.
Proof.
  intros Hall. revert hs. induction Hall as [|call new Hcall _ IH]; intros hs.
  - exists []. by rewrite app_nil_r.
  - destruct call as [| zoneID answer |]; try done. cbn [foldl replay].
    destruct (GetZone_sent c zoneID hs) as (sent1 & Hs1 & Hl1).
    destruct (IH ((GetZone (client (restManager c account confirm)) zoneID hs).2))
      as (sent2 & Hs2 & Hl2).
    exists (sent1 ++ sent2). split; [|by apply Forall_app].
    rewrite Hs2. simpl. by rewrite Hs1, app_assoc.
Qed.

(** X26.  A dry run reads only: every request it sends is a GET of a zone, under
    a name that ends with a dot; it carries the API key and no body. *)
Theorem dry_run_sends_lookups_only (c : restclient.Client) (account : string)
    (confirm : option (ConfirmFunc U)) (cfg : config.Config) (opts : ApplyOptions)
    (st : St (H * list restclient.Request) U) :
  DryRun opts = true →
  ∃ sent,
    (backend (Apply (restManager c account confirm) cfg opts st).2).2
    = (backend st).2 ++ sent
    ∧ Forall (λ req,
                restclient.Method req = "GET" ∧ restclient.ReqBody req = None
                ∧ restclient.Header req = [("X-API-Key", restclient.apiKey c)]
                ∧ ∃ zoneID,
                    restclient.URL req
                    = restclient.baseURL c +:+ "/zones/"
                      +:+ config.CanonicalZoneName zoneID)
             sent.
Proof.
  intros Hdry.
  destruct (Apply_replays (restManager c account confirm) cfg opts st)
    as (new & Hc & Hb & _).
  destruct (Apply_dry_calls (restManager c account confirm) cfg opts st Hdry)
    as (new' & Hc' & Hgets).
  rewrite Hc in Hc'. apply app_inv_head in Hc'. subst new'.
  destruct (lookups_sent c account confirm new (backend st) Hgets) as (sent & Hs & Hl).
  exists sent. split; [by rewrite Hb|].
  eapply Forall_impl; [exact Hl|]. intros req [zoneID ->]. simpl.
  repeat split; try done. by exists zoneID.
Qed.

(** X27.  In front of the REST client [Apply] always returns, with a result or an
    error: the client never answers a creation with no zone and no error,
    so the record sets of a zone just created are never read through a nil
    pointer. *)
Theorem Apply_on_REST_returns (c : restclient.Client) (account : string)
    (confirm : option (ConfirmFunc U)) (cfg : config.Config) (opts : ApplyOptions)
    (st : St (H * list restclient.Request) U) :
  ∃ out st', Apply (restManager c account confirm) cfg opts st = (Some out, st').
Proof.
  apply Apply_never_panics. intros zone hs. simpl. unfold restclient.CreateZone.
  destruct (restclient.doRequest _ _ _ _ _) as [[resp|e] h1]; [|done].
  case_decide; [done|]. by destruct (restclient.readZone resp).
Qed.

End RestRun.

(** ** Closed instances *)

(** The scenarios below are those of the manager's tests, run with the
    ASCII instance of the library functions and the listed iteration order. *)
Module scenario.
Import powerdns manager.
#[local] Existing Instance ascii_strings.ascii_GoStrings.
#[local] Existing Instance listed_order.

Definition mgr : Manager mock.MockClient unit := NewManager mock.client "zone-manager".

Definition declining : ConfirmFunc unit := λ _ u, (false, u).

Definition start (c : mock.MockClient) : St mock.MockClient unit := mkSt c tt [] 0.

Definition rrsetA (name content : string) : config.RRsetInput :=
  {| config.RRsetInput_Name := name; config.RRsetInput_Type := "A";
     config.RRsetInput_Records := config.YString content;
     config.RRsetInput_TTL := None; config.RRsetInput_Comment := "" |}.

Definition wwwZone : config.Zone :=
  {| config.Zone_Kind := ""; config.Zone_Nameservers := ["ns1.example.com."];
     config.Zone_RRsets := [rrsetA "www" "192.168.1.1"] |}.

Definition wwwConfig : config.Config :=
  {| config.Zones := {[ "example.com" := wwwZone ]} |}.

Definition existingRRset (name content account : string) : RRset :=
  {| RRset_Name := name; RRset_Type := "A"; RRset_ChangeType := "";
     RRset_Records := [ {| Rec_Content := content; Rec_Disabled := false |} ];
     RRset_Comments := [ {| Comment_Content := "Manual record";
                            Comment_Account := account |} ];
     RRset_TTL := 300 |}.

Definition manualZone : Zone :=
  {| Zone_ID := ""; Zone_Name := "example.com."; Zone_Type := ""; Zone_Kind := "";
     Zone_Account := "zone-manager"; Zone_Masters := []; Zone_Nameservers := [];
     Zone_RRsets := [existingRRset "manual.example.com." "192.168.1.99" "other-account"] |}.

Definition managedState : config.ZoneState :=
  {| config.Exists := true; config.IsManaged := true |}.

Definition realRun : ApplyOptions := {| DryRun := false; AutoConfirm := false |}.
Definition dryRun : ApplyOptions := {| DryRun := true; AutoConfirm := false |}.

(** [TestManager_Apply_CreateZone]: one zone and two record sets created. *)
Example Apply_CreateZone :
  (Apply mgr wwwConfig realRun (start mock.NewMockClient)).1
  = Some (Ok {| Errors := []; ZonesCreated := 1; RRsetsCreated := 2;
                RRsetsUpdated := 0; RRsetsDeleted := 0 |}).
Proof. vm_compute. reflexivity. Qed.

(** [TestManager_Apply_DryRun]: the same counters, no zone stored, no patch. *)
Example Apply_DryRun :
  let run := Apply mgr wwwConfig dryRun (start mock.NewMockClient) in
  run.1 = Some (Ok {| Errors := []; ZonesCreated := 1; RRsetsCreated := 2;
                      RRsetsUpdated := 0; RRsetsDeleted := 0 |})
  ∧ backend run.2 = mock.NewMockClient.
Proof. vm_compute. split; reflexivity. Qed.

Lemma sendPatch_guards_witness :
  sendPatch (SetConfirmFunc mgr declining) "example.com."
    [createRRsetPatch mgr (existingRRset "www.example.com." "192.168.1.1" "")]
    realRun (start mock.NewMockClient)
  = (Some (Some ErrAborted), start mock.NewMockClient).
Proof.
  apply (proj2 (proj2 (sendPatch_guards (SetConfirmFunc mgr declining) "example.com."
           [createRRsetPatch mgr (existingRRset "www.example.com." "192.168.1.1" "")]
           realRun (start mock.NewMockClient))) declining tt); reflexivity || done.
Defined.

Definition wwwDesired : gmap string RRset :=
  Eval vm_compute in
    match buildDesiredRRsets mgr "example.com." wwwZone managedState with
    | Ok desiredRRsets => desiredRRsets
    | Err _ => ∅
    end.

Lemma wwwDesired_built :
  buildDesiredRRsets mgr "example.com." wwwZone managedState = Ok wwwDesired.
Proof. vm_compute. reflexivity. Qed.

Lemma unmanaged_never_patched_witness :
  ∃ new,
    calls (applyRRsets mgr "example.com." wwwZone (Some manualZone) managedState
             realRun emptyResult (start mock.NewMockClient)).2
    = [] ++ new.
Proof.
  destruct (unmanaged_never_patched mgr "example.com." wwwZone manualZone managedState
              realRun emptyResult (start mock.NewMockClient) wwwDesired wwwDesired_built)
    as (new & Hcalls & _).
  exists new. exact Hcalls.
Defined.

Definition txtZone : config.Zone :=
  {| config.Zone_Kind := ""; config.Zone_Nameservers := [];
     config.Zone_RRsets :=
       [ {| config.RRsetInput_Name := "note"; config.RRsetInput_Type := "txt";
            config.RRsetInput_Records := config.YString "hello";
            config.RRsetInput_TTL := None; config.RRsetInput_Comment := "" |} ] |}.

Definition txtDesired : gmap string RRset :=
  Eval vm_compute in
    match buildDesiredRRsets mgr "example.com." txtZone managedState with
    | Ok desiredRRsets => desiredRRsets
    | Err _ => ∅
    end.

Definition txtEntry : RRset :=
  Eval vm_compute in
    match txtDesired !! "note.example.com./TXT" with
    | Some desired => desired
    | None => nsRRset mgr "example.com." txtZone
    end.

Lemma txtDesired_built :
  buildDesiredRRsets mgr "example.com." txtZone managedState = Ok txtDesired.
Proof. vm_compute. reflexivity. Qed.

Lemma txtEntry_found : txtDesired !! "note.example.com./TXT" = Some txtEntry.
Proof. vm_compute. reflexivity. Qed.

(** The content [hello] of the TXT record set comes out quoted. *)
Example txtEntry_quoted :
  Rec_Content <$> RRset_Records txtEntry = [dquote +:+ "hello" +:+ dquote].
Proof. vm_compute. reflexivity. Qed.





(** Two record sets of a zone that passes validation, under one
    fully qualified name: the second one takes the place of the first. *)
Definition shadowedZone : config.Zone :=
  {| config.Zone_Kind := ""; config.Zone_Nameservers := [];
     config.Zone_RRsets :=
       [ {| config.RRsetInput_Name := "note"; config.RRsetInput_Type := "TXT";
            config.RRsetInput_Records := config.YString "first";
            config.RRsetInput_TTL := None; config.RRsetInput_Comment := "" |};
         {| config.RRsetInput_Name := "note.example.com."; config.RRsetInput_Type := "TXT";
            config.RRsetInput_Records := config.YString "second";
            config.RRsetInput_TTL := None; config.RRsetInput_Comment := "" |} ] |}.

Example later_record_set_takes_the_key :
  config.Errors (config.validateZone "example.com" shadowedZone
                   {[ "example.com." := managedState ]} {| config.Errors := [] |}) = []
  ∧ match buildDesiredRRsets mgr "example.com." shadowedZone managedState with
    | Ok desiredRRsets =>
        (λ x, (x.1, Rec_Content <$> RRset_Records x.2)) <$> map_to_list desiredRRsets
        = [("note.example.com./TXT", [dquote +:+ "second" +:+ dquote])]
    | Err _ => False
    end.
Proof. vm_compute. split; reflexivity. Qed.





(** [TestManager_Apply_ClientError] for [CreateZone]: the backend refuses to
    create the zone. *)
Definition refusingCreate : mock.MockClient :=
  {| mock.zones := ∅; mock.createZoneErr := Some (errors_New "connection refused");
     mock.getZoneErr := None; mock.patchZoneErr := None; mock.patchCalls := [] |}.


(** [TestManager_Apply_ClientError] for [GetZone]: the backend answers the
    lookup with an error. *)
Definition refusingLookup : mock.MockClient :=
  {| mock.zones := ∅; mock.createZoneErr := None;
     mock.getZoneErr := Some (errors_New "connection refused");
     mock.patchZoneErr := None; mock.patchCalls := [] |}.




(** The run of that test: the error names the zone, and the one call made
    is the lookup that failed. *)
Example Apply_lookup_refused :
  let run := Apply mgr wwwConfig realRun (start refusingLookup) in
  run.1 = Some (Err (wrapFetch "example.com" (errors_New "connection refused")))
  ∧ calls run.2 = [CallGetZone "example.com." (Err (errors_New "connection refused"))].
Proof. vm_compute. split; reflexivity. Qed.

Lemma mock_readOnly : readOnly mgr.
Proof.
  intros zoneID b. unfold mgr, NewManager. simpl. unfold mock.mockGetZone.
  by destruct (mock.getZoneErr b).
Qed.


(** *** Two runs against the reference backend *)

(** The reference backend, with new zones created empty. *)
Definition serverMgr : Manager (gmap string Zone) unit :=
  serverManager (λ _, []) "zone-manager" None.

Definition emptyServer : St (gmap string Zone) unit := mkSt ∅ tt [] 0.

Definition firstRunResult : ApplyResult :=
  {| Errors := []; ZonesCreated := 1; RRsetsCreated := 2;
     RRsetsUpdated := 0; RRsetsDeleted := 0 |}.

Definition firstRunState : St (gmap string Zone) unit :=
  Eval vm_compute in (Apply serverMgr wwwConfig realRun emptyServer).2.

Lemma firstRun_done :
  Apply serverMgr wwwConfig realRun emptyServer = (Some (Ok firstRunResult), firstRunState).
Proof. vm_compute. reflexivity. Qed.

Lemma wwwConfig_distinct (n1 n2 : string) :
  is_Some (config.Zones wwwConfig !! n1) → is_Some (config.Zones wwwConfig !! n2) →
  config.CanonicalZoneName n1 = config.CanonicalZoneName n2 → n1 = n2.
Proof.
  intros [z1 H1] [z2 H2] _. unfold wwwConfig in H1, H2. simpl in H1, H2.
  apply lookup_singleton_Some in H1 as [<- _].
  by apply lookup_singleton_Some in H2 as [<- _].
Qed.

Lemma second_run_changes_nothing_witness :
  ∃ result2 st2',
    Apply serverMgr wwwConfig realRun firstRunState = (Some (Ok result2), st2')
    ∧ ZonesCreated result2 = 0 ∧ RRsetsCreated result2 = 0
    ∧ RRsetsUpdated result2 = 0 ∧ RRsetsDeleted result2 = 0
    ∧ Errors result2 = [].
Proof.
  exact (second_run_changes_nothing (λ _, []) listed_order listed_order "zone-manager"
           None None wwwConfig realRun realRun emptyServer firstRunState firstRunState
           firstRunResult wwwConfig_distinct eq_refl firstRun_done eq_refl eq_refl).
Defined.

(** One zone under two names, "example.com" and "example.com.", each name
    with a record set of its own; the backend holds the zone, managed and
    empty. *)
Definition mailZone : config.Zone :=
  {| config.Zone_Kind := ""; config.Zone_Nameservers := [];
     config.Zone_RRsets := [rrsetA "mail" "192.168.1.2"] |}.

Definition wwwOnlyZone : config.Zone :=
  {| config.Zone_Kind := ""; config.Zone_Nameservers := [];
     config.Zone_RRsets := [rrsetA "www" "192.168.1.1"] |}.

Definition aliasConfig : config.Config :=
  {| config.Zones := {[ "example.com" := wwwOnlyZone; "example.com." := mailZone ]} |}.

Definition ownedEmptyZone : Zone :=
  {| Zone_ID := ""; Zone_Name := "example.com."; Zone_Type := ""; Zone_Kind := "Native";
     Zone_Account := "zone-manager"; Zone_Masters := []; Zone_Nameservers := [];
     Zone_RRsets := [] |}.

Definition ownedServer : St (gmap string Zone) unit :=
  mkSt {[ "example.com." := ownedEmptyZone ]} tt [] 0.

(** The first run creates the two record sets and records no error; the
    second run, from the state the first one left, deletes both. *)
Lemma aliased_zone_names_second_run_deletes :
  let run1 := Apply serverMgr aliasConfig realRun ownedServer in
  let run2 := Apply serverMgr aliasConfig realRun run1.2 in
  run1.1 = Some (Ok {| Errors := []; ZonesCreated := 0; RRsetsCreated := 2;
                       RRsetsUpdated := 0; RRsetsDeleted := 0 |})
  ∧ run2.1 = Some (Ok {| Errors := []; ZonesCreated := 0; RRsetsCreated := 0;
                         RRsetsUpdated := 0; RRsetsDeleted := 2 |}).
Proof. vm_compute. split; reflexivity. Qed.

End scenario.

(** ** Closed instances of the further properties *)

(** Runs of the manager against the mock client, the reference backend and a
    REST server that holds no zone, with the ASCII instance of the library
    functions and the listed iteration order. *)
Module examples.
Import powerdns manager scenario.
#[local] Existing Instance ascii_strings.ascii_GoStrings.
#[local] Existing Instance listed_order.

Lemma wwwZone_valid :
  config.Errors (config.validateZone "example.com" wwwZone ∅ noErrors)
  = config.Errors noErrors.
Proof. vm_compute. reflexivity. Qed.

Lemma validated_zone_normalizes_witness :
  ∃ rrsets,
    config.NormalizeRRsets (config.NormalizeZone wwwZone) = Ok rrsets
    ∧ length rrsets = 1%nat.
Proof.
  destruct (validated_zone_normalizes "example.com" wwwZone ∅ noErrors wwwZone_valid)
    as (rrsets & Hnorm & Hlen & _).
  exists rrsets. split; [exact Hnorm|exact Hlen].
Defined.

(** The run of [TestManager_Apply_CreateZone] against the mock client. *)
Definition mockRunResult : ApplyResult :=
  {| Errors := []; ZonesCreated := 1; RRsetsCreated := 2;
     RRsetsUpdated := 0; RRsetsDeleted := 0 |}.

Definition mockRunState : St mock.MockClient unit :=
  Eval vm_compute in (Apply mgr wwwConfig realRun (start mock.NewMockClient)).2.

Lemma mockRun_done :
  Apply mgr wwwConfig realRun (start mock.NewMockClient)
  = (Some (Ok mockRunResult), mockRunState).
Proof. vm_compute. reflexivity. Qed.

Lemma Apply_calls_witness :
  ∃ order1 answers perZone,
    length answers = length order1
    ∧ calls mockRunState = [] ++ getCalls order1 answers ++ mjoin perZone.
Proof.
  destruct (Apply_calls mgr wwwConfig realRun (start mock.NewMockClient)
              mockRunResult mockRunState mockRun_done)
    as (order1 & answers & order2 & perZone & _ & _ & Hlen & Hcalls & _).
  exists order1, answers, perZone. split; [exact Hlen|exact Hcalls].
Defined.

(** The run of [TestManager_Apply_ClientError]: the backend refuses to
    create the zone, and the run records the error and goes on. *)
Definition refusedRunResult : ApplyResult :=
  Eval vm_compute in
    match (Apply mgr wwwConfig realRun (start refusingCreate)).1 with
    | Some (Ok result) => result
    | _ => emptyResult
    end.

Definition refusedRunState : St mock.MockClient unit :=
  Eval vm_compute in (Apply mgr wwwConfig realRun (start refusingCreate)).2.

Lemma refusedRun_done :
  Apply mgr wwwConfig realRun (start refusingCreate)
  = (Some (Ok refusedRunResult), refusedRunState).
Proof. vm_compute. reflexivity. Qed.

Example refusedRun_error :
  Errors refusedRunResult
  = [wrapZone "example.com"
       (fmt_Errorf_w "failed to create zone: " (errors_New "connection refused"))].
Proof. vm_compute. reflexivity. Qed.

Lemma Apply_errors_witness :
  (length (Errors refusedRunResult) ≤ size (config.Zones wwwConfig))%nat.
Proof.
  destruct (Apply_errors mgr wwwConfig realRun (start refusingCreate)
              refusedRunResult refusedRunState refusedRun_done)
    as (new & _ & Hlen & _).
  exact Hlen.
Defined.

Lemma Apply_ZonesCreated_witness :
  ∃ new, calls firstRunState = [] ++ new
         ∧ ZonesCreated firstRunResult = count createdOk new.
Proof.
  destruct (Apply_ZonesCreated serverMgr wwwConfig realRun emptyServer
              firstRunResult firstRunState firstRun_done)
    as (new & Hcalls & _ & Hcount).
  exists new. split; [exact Hcalls|exact (Hcount eq_refl)].
Defined.

(** The mock client answers a creation with the zone created or with an
    error. *)
Lemma mock_creates_or_fails (zone : Zone) (b : mock.MockClient) :
  (CreateZone (client mgr) zone b).1 ≠ Ok None.
Proof.
  unfold mgr, NewManager. simpl. unfold mock.mockCreateZone.
  by destruct (mock.createZoneErr b).
Qed.

Lemma Apply_returns_witness :
  ∃ out st', Apply mgr wwwConfig realRun (start mock.NewMockClient) = (Some out, st').
Proof.
  exact (Apply_returns mgr wwwConfig realRun (start mock.NewMockClient)
           mock_creates_or_fails).
Defined.

(** [TestManager_Apply_ClientError] for [GetZone]: the lookup fails. *)
Definition failedRunError : error :=
  Eval vm_compute in
    match (Apply mgr wwwConfig realRun (start refusingLookup)).1 with
    | Some (Err err) => err
    | _ => ErrAborted
    end.

Definition failedRunState : St mock.MockClient unit :=
  Eval vm_compute in (Apply mgr wwwConfig realRun (start refusingLookup)).2.

Lemma failedRun_done :
  Apply mgr wwwConfig realRun (start refusingLookup)
  = (Some (Err failedRunError), failedRunState).
Proof. vm_compute. reflexivity. Qed.

Lemma Apply_error_changes_nothing_witness :
  ∃ new, calls failedRunState = [] ++ new ∧ Forall (λ c, isGetZone c = true) new.
Proof.
  destruct (Apply_error_changes_nothing mgr wwwConfig realRun (start refusingLookup)
              failedRunError failedRunState failedRun_done)
    as (new & Hcalls & Hgets & _).
  exists new. split; [exact Hcalls|exact Hgets].
Defined.

(** The zone of the configuration held by the backend for another account. *)
Definition foreignZone : Zone :=
  {| Zone_ID := ""; Zone_Name := "example.com."; Zone_Type := ""; Zone_Kind := "Native";
     Zone_Account := "other-account"; Zone_Masters := []; Zone_Nameservers := [];
     Zone_RRsets := [] |}.

Definition foreignBackend : mock.MockClient :=
  {| mock.zones := {[ "example.com." := foreignZone ]}; mock.createZoneErr := None;
     mock.getZoneErr := None; mock.patchZoneErr := None; mock.patchCalls := [] |}.

Lemma foreignZone_found :
  lookupZone mgr (backend (start foreignBackend)) (config.CanonicalZoneName "example.com")
  = Ok (Some foreignZone).
Proof. vm_compute. reflexivity. Qed.

Lemma foreignZone_other_account : Zone_Account foreignZone ≠ accountName mgr.
Proof. vm_compute. discriminate. Qed.

Lemma foreign_zone_refused_witness :
  ∃ err st',
    Apply mgr wwwConfig realRun (start foreignBackend) = (Some (Err err), st')
    ∧ backend st' = foreignBackend.
Proof.
  destruct (foreign_zone_refused mgr wwwConfig realRun (start foreignBackend)
              "example.com" wwwZone foreignZone mock_readOnly eq_refl
              foreignZone_found foreignZone_other_account)
    as (err & st' & new & Hrun & _ & _ & Hbackend & _).
  exists err, st'. split; [exact Hrun|exact Hbackend].
Defined.

Lemma names_fully_qualified_witness :
  Forall (λ ns, strings_HasSuffix ns "." = true)
         (normalizeNameservers mgr (config.Zone_Nameservers wwwZone) "example.com.").
Proof.
  exact (proj1 (names_fully_qualified mgr "example.com." wwwZone managedState
                  wwwDesired eq_refl wwwDesired_built)).
Defined.

(** The desired record sets of the zone, visited in the two orders. *)
Definition wwwOrder : list (string * RRset) := map_to_list wwwDesired.

Lemma patch_order_irrelevant_witness :
  (diffRRsets mgr wwwDesired ∅ wwwOrder [] emptyResult).1
  ≡ₚ (diffRRsets mgr wwwDesired ∅ (reverse wwwOrder) [] emptyResult).1.
Proof.
  exact (proj1 (patch_order_irrelevant mgr wwwDesired ∅ wwwOrder (reverse wwwOrder)
                  [] [] emptyResult emptyResult
                  (Permutation_sym (reverse_Permutation wwwOrder))
                  (Permutation_refl []))).
Defined.

Lemma dry_run_leaves_backend_witness :
  backend (Apply mgr wwwConfig dryRun (start mock.NewMockClient)).2
  = mock.NewMockClient.
Proof.
  exact (dry_run_leaves_backend mgr wwwConfig dryRun (start mock.NewMockClient)
           mock_readOnly eq_refl).
Defined.

(** A server that holds no zone answers every request with 404; the codec
    is not reached by a dry run against it. *)
Definition notFound : restclient.Response :=
  {| restclient.StatusCode := 404; restclient.Status := "404 Not Found";
     restclient.Body := ("Not Found", None) |}.

#[local] Instance emptyServer_GoHTTP : restclient.GoHTTP unit :=
  {| restclient.http_NewRequest := λ _ _, None;
     restclient.http_Do := λ _ h, (Ok notFound, h) |}.

#[local] Instance undecoded_GoJSON : GoJSON :=
  {| json_Marshal_Zone := λ _, Ok "{}";
     json_Marshal_ZonePatch := λ _, Ok "{}";
     json_Unmarshal_Zone := λ _, Err (errors_New "unexpected end of JSON input");
     json_Unmarshal_APIError := λ _, Err (errors_New "unexpected end of JSON input") |}.

Definition restClient : restclient.Client :=
  restclient.NewClient "http://localhost:8081/api/v1/servers/localhost/" "secret".

Definition restStart : St (unit * list restclient.Request) unit :=
  mkSt (tt, []) tt [] 0.

Lemma dry_run_sends_lookups_only_witness :
  ∃ sent,
    (backend (Apply (restManager restClient "zone-manager" None)
                wwwConfig dryRun restStart).2).2
    = [] ++ sent
    ∧ Forall (λ req, restclient.Method req = "GET") sent.
Proof.
  destruct (dry_run_sends_lookups_only restClient "zone-manager" None wwwConfig dryRun
              restStart eq_refl)
    as (sent & Hsent & Hall).
  exists sent. split; [exact Hsent|].
  eapply Forall_impl; [exact Hall|]. intros req Hreq. exact (proj1 Hreq).
Defined.

(** The one request of that dry run. *)
Example dry_run_request :
  (backend (Apply (restManager restClient "zone-manager" None)
              wwwConfig dryRun restStart).2).2
  = [ {| restclient.Method := "GET";
         restclient.URL := "http://localhost:8081/api/v1/servers/localhost/zones/example.com.";
         restclient.Header := [("X-API-Key", "secret")];
         restclient.ReqBody := None |} ].
Proof. vm_compute. reflexivity. Qed.

(** The rows of [TestMaskSecret]. *)
Example MaskSecret_rows :
  logger.MaskSecret "" = "****"
  ∧ logger.MaskSecret "ab" = "****"
  ∧ logger.MaskSecret "abcd" = "****"
  ∧ logger.MaskSecret "abcde" = "ab*de"
  ∧ logger.MaskSecret "secretkey123" = "se********23"
  ∧ logger.MaskSecret "mysupersecretapikey" = "my***************ey".
Proof. vm_compute. repeat split. Qed.

End examples.
